(** * Media Import 2: the file-pairing and field-derivation engine

    A shallow embedding of [doMediaImport] (mediaimport-2/__init__.py) and of
    the settings module it imports (mediaimport-2/src/settings.py), together
    with the properties of the import engine that the specification states.

    Conventions of the embedding:
    - Python [str] is [string]; a character is an 8-bit [ascii], so [lower]
      folds the letters A-Z only. A name outside ASCII is held as the bytes of
      its UTF-8 encoding, and [PyStr.len] counts its code points.
    - Python [dict] is a [gmap] where only lookups matter, and an association
      list updated in place ([odict_set]) where the insertion order is
      observed ([file_pair_index], whose keys become the file list).
    - An uncaught [KeyError] is an explicit result, never a stuck term.
    - The host application (Anki: [mw.col.media.add_file], [mw.col.addNote],
      [mw.progress], the tooltip, the deck browser, the dialogs) is a log of
      the calls made to it. The log does not record the lookup of the deck
      ([mw.col.decks.id], line 77) and the construction of the note object
      for every listed file (lines 160-161). *)

From stdpp Require Import gmap strings list fin_maps pretty.
From Stdlib Require Import ZArith Ascii Sorted.

Open Scope string_scope.
Open Scope list_scope.

(** ** Python string primitives *)

Module PyStr.
#[local] Open Scope Z_scope.

Definition newline : ascii := "010"%char.
Definition dquote : ascii := "034"%char.

(** [c.lower()] on one character: A-Z (65..90) are moved to a-z. *)
Definition lower_char (c : ascii) : ascii :=
  let n := nat_of_ascii c in
  if ((65 <=? n) && (n <=? 90))%nat then ascii_of_nat (n + 32) else c.

(** [s.lower()] *)
Fixpoint lower (s : string) : string :=
  match s with
  | EmptyString => EmptyString
  | String c s' => String (lower_char c) (lower s')
  end.

(** [s[:n]] for [0 <= n] *)
Fixpoint take (n : nat) (s : string) : string :=
  match n, s with
  | S n', String c s' => String c (take n' s')
  | _, _ => EmptyString
  end.

(** [s[n:]] for [0 <= n] *)
Fixpoint drop (n : nat) (s : string) : string :=
  match n, s with
  | S n', String _ s' => drop n' s'
  | _, _ => s
  end.

(** [s[i:i+1]]: the character at index [i] as a string, empty when out of
    range. *)
Definition at_index (s : string) (i : Z) : string :=
  if i <? 0 then EmptyString else take 1 (drop (Z.to_nat i) s).

(** [s.rfind(c)] for a one-character [c], scanning [s] whose first character
    has index [i]; -1 when [c] does not occur. *)
Fixpoint rfind_from (c : ascii) (s : string) (i : Z) : Z :=
  match s with
  | EmptyString => -1
  | String a s' =>
      let r := rfind_from c s' (i + 1) in
      if 0 <=? r then r else if Ascii.eqb a c then i else -1
  end.

Definition rfind (c : ascii) (s : string) : Z := rfind_from c s 0.

(** [s.replace(a, b)] for one-character [a] and [b]. *)
Fixpoint replace_char (a b : ascii) (s : string) : string :=
  match s with
  | EmptyString => EmptyString
  | String c s' => String (if Ascii.eqb c a then b else c) (replace_char a b s')
  end.

(** [s.split(sep)] for a one-character [sep]: never an empty list. *)
Fixpoint split (sep : ascii) (s : string) : list string :=
  match s with
  | EmptyString => [EmptyString]
  | String c s' =>
      if Ascii.eqb c sep then EmptyString :: split sep s'
      else match split sep s' with
           | [] => [String c EmptyString]
           | w :: ws => String c w :: ws
           end
  end.

(** [sep.join(l)] *)
Fixpoint join (sep : string) (l : list string) : string :=
  match l with
  | [] => EmptyString
  | [x] => x
  | x :: l' => x +:+ sep +:+ join sep l'
  end.

(** [l.remove(x)]: drops the first occurrence of [x]. The source guards the
    call with [if x in l], so the [ValueError] of a missing [x] is not
    modelled: the list is returned as it is. *)
Fixpoint remove_first (x : string) (l : list string) : list string :=
  match l with
  | [] => []
  | y :: l' => if String.eqb y x then l' else y :: remove_first x l'
  end.

(** [len(s)]: the number of code points. In the UTF-8 encoding the bytes
    128..191 continue a code point and every other byte starts one. *)
Definition is_continuation (c : ascii) : bool :=
  let n := nat_of_ascii c in ((128 <=? n) && (n <=? 191))%nat.

Fixpoint len (s : string) : nat :=
  match s with
  | EmptyString => O
  | String c s' => ((if is_continuation c then 0 else 1) + len s')%nat
  end.

(** [str(n)] for a non-negative integer. *)
Definition str (n : nat) : string := pretty n.

End PyStr.

(** ** [os.path] on a POSIX host *)

Module OsPath.
#[local] Open Scope Z_scope.

(** The loop of [genericpath._splitext] that skips leading dots: is there a
    character other than the dot among the [n] characters from
    [filenameIndex] on? *)
Fixpoint has_non_dot (p : string) (filenameIndex : Z) (n : nat) : bool :=
  match n with
  | O => false
  | S n' =>
      if negb (String.eqb (PyStr.at_index p filenameIndex) ".") then true
      else has_non_dot p (filenameIndex + 1) n'
  end.

(** [os.path.splitext(p)] *)
Definition splitext (p : string) : string * string :=
  let sepIndex := PyStr.rfind "/"%char p in
  let dotIndex := PyStr.rfind "."%char p in
  if (sepIndex <? dotIndex)
     && has_non_dot p (sepIndex + 1) (Z.to_nat (dotIndex - (sepIndex + 1)))
  then (PyStr.take (Z.to_nat dotIndex) p, PyStr.drop (Z.to_nat dotIndex) p)
  else (p, EmptyString).

(** [os.path.join(a, b)] *)
Definition join (a b : string) : string :=
  if String.prefix "/" b then b
  else if String.eqb a EmptyString || String.eqb (PyStr.drop (Nat.pred (String.length a)) a) "/"
       then a +:+ b
       else a +:+ "/" +:+ b.

End OsPath.

(** ** Exceptions and dictionaries *)

Inductive exn : Type :=
| KeyError (key : string)
| TypeError.

Inductive result (A : Type) : Type :=
| Ok (a : A)
| Raise (e : exn).
Arguments Ok {A} a.
Arguments Raise {A} e.

#[global] Instance result_ret : MRet result := fun _ a => Ok a.
#[global] Instance result_bind : MBind result := fun _ _ f r =>
  match r with
  | Ok a => f a
  | Raise e => Raise e
  end.

(** [d[k]] on a dict used as a plain map. *)
Definition getitem {V : Type} (d : gmap string V) (k : string) : result V :=
  match d !! k with
  | Some v => Ok v
  | None => Raise (KeyError k)
  end.

(** A dict whose insertion order is observed: [d[k] = v] replaces the value
    of an existing key where it stands and appends a new key at the end. *)
Fixpoint odict_set (k v : string) (d : list (string * string)) : list (string * string) :=
  match d with
  | [] => [(k, v)]
  | (k', v') :: d' =>
      if String.eqb k' k then (k, v) :: d' else (k', v') :: odict_set k v d'
  end.

Fixpoint odict_get (d : list (string * string)) (k : string) : option string :=
  match d with
  | [] => None
  | (k', v') :: d' => if String.eqb k' k then Some v' else odict_get d' k
  end.

(** [list(d.keys())] *)
Definition odict_keys (d : list (string * string)) : list string := map fst d.

(** ** The persisted settings (src/settings.py) *)

(** The values the settings document holds: strings, flags and the
    per-note-type field mappings. *)
Inductive Value : Type :=
| VStr (s : string)
| VBool (b : bool)
| VFieldSettings (m : gmap string (gmap string string)).

Module Settings.

(** What is on disk: [user_data/transient_settings.json] when the file
    exists, and the add-on configuration the host keeps
    ([mw.addonManager.getConfig] returns what [writeConfig] stored). The JSON
    text itself is not modelled: the file holds the document. *)
Record Disk : Type := {
  transient_file : option (gmap string Value);
  addon_config : gmap string Value
}.

Section WithHome.

(** [os.path.expanduser("~")] *)
Variable home : string.

(** The dataclass fields, in declaration order. *)
Definition TransientSettings : list (string * Value) :=
  [("loadFolder", VStr home);
   ("includeSubfolders", VBool true);
   ("fieldSettings", VFieldSettings ∅)].

Definition DefaultSettings : list (string * Value) :=
  [("secondMediaSuffix", VStr "_2");
   ("showExtensionActions", VBool false)].

(** [dataclasses.asdict] *)
Definition asdict (fields : list (string * Value)) : gmap string Value :=
  list_to_map fields.

(** [{**a, **b, **c, **d}]: later documents win. *)
Definition merge4 (a b c d : gmap string Value) : gmap string Value :=
  d ∪ (c ∪ (b ∪ a)).

Definition mergedSettings (d : Disk) : gmap string Value :=
  let defaultTransientSettings := asdict TransientSettings in
  let defaultUserSettings := asdict DefaultSettings in
  let transientSettings := default ∅ (transient_file d) in
  let userSettings := addon_config d in
  merge4 defaultTransientSettings defaultUserSettings transientSettings userSettings.

(** [initializeSettings()]: every key of the merged document is stored into
    the global dictionary, whose other keys stay. *)
Definition initializeSettings (d : Disk) (settings : gmap string Value) : gmap string Value :=
  mergedSettings d ∪ settings.

(** [{key: settings[key] for key in keys}] *)
Fixpoint select_keys (settings : gmap string Value) (keys : list string)
  : result (gmap string Value) :=
  match keys with
  | [] => Ok ∅
  | key :: keys' =>
      v ← getitem settings key;
      rest ← select_keys settings keys';
      Ok (<[key := v]> rest)
  end.

(** [saveSettings()] *)
Definition saveSettings (settings : gmap string Value) (d : Disk) : result Disk :=
  let defaultSettings := asdict DefaultSettings in
  userSettings ← select_keys settings (map fst DefaultSettings);
  let transientSettings :=
    filter (fun kv => defaultSettings !! kv.1 = None) settings in
  Ok {| transient_file := Some transientSettings; addon_config := userSettings |}.

End WithHome.

End Settings.

(** ** The host and the run request *)

(** [class Actions(str, Enum)]: the action keywords, compared as strings. *)
Module Actions.
Definition nothing : string := EmptyString.
Definition media : string := "Media".
Definition media_2 : string := "Media_2".
Definition file_name : string := "File Name".
Definition file_name_full : string := "File Name (full)".
Definition extension : string := "Extension".
Definition extension_case_sensitive : string := "Extension (case-sensitive)".
Definition sequence : string := "Sequence".
Definition folder_tags_individual : string := "Subfolder tags (individual)".
Definition folder_tags_hierarchical : string := "Subfolder tag (hierarchical)".
End Actions.

(** A note as the engine fills it: [note[field] = data] and [note.tags]. *)
Record Note : Type := {
  note_fields : gmap string string;
  note_tags : list string
}.

(** The calls the engine makes to the progress bar, the media store, the note
    store, the tooltip, the deck browser and the dialogs, in the order they
    are made. Two host calls are not recorded: [mw.col.decks.id] (line 77,
    before the progress bar is opened) and [notes.Note] with
    [note.note_type()] (lines 160-161, once for every listed file). *)
Inductive Event : Type :=
| ProgressStart (max : nat)
| AddFile (filePath : string)
| AddNote (note : Note) (created : bool)
| ProgressUpdate (value : nat)
| ProgressFinish
| Tooltip (newCount : nat)
| DeckBrowserRefresh
| ShowFailureDialog
| ShowCompletionDialog (newCount : nat).

(** A folder on disk: its files and its subfolders, both in the order the
    directory listing gives them. *)
#[local] Unset Elimination Schemes.
Inductive Tree : Type :=
| Folder (files : list string) (dirs : list (string * Tree)).
#[local] Set Elimination Schemes.

(** One step of [os.walk]: the folder's path, its path relative to the
    import folder as a list of components, and its files. *)
Record Walked : Type := {
  w_root : string;
  w_rel : list string;
  w_files : list string
}.

(** [os.walk(top)], top-down; with [recursive = false] the loop body empties
    [dirs], so that the walk stops after the first folder. *)
Fixpoint walk (recursive : bool) (top : string) (rel : list string) (t : Tree)
  : list Walked :=
  match t with
  | Folder files dirs =>
      {| w_root := top; w_rel := rel; w_files := files |} ::
      (if recursive
       then flat_map (fun d => match d with
                               | (name, sub) =>
                                   walk recursive (OsPath.join top name) (rel ++ [name]) sub
                               end) dirs
       else [])
  end.

(** [os.path.relpath(root, path)] for a folder [root] that the walk reached
    from [path] through the components [rel]. *)
Definition relpath (rel : list string) : string :=
  match rel with
  | [] => "."
  | _ => PyStr.join "/" rel
  end.

(** What [getDialogResult] returns when the dialog was accepted; [model] is
    the list of the note type's field names. *)
Record Request : Type := {
  path : string;
  recursive : bool;
  model : list string;
  fieldList : list (string * string * bool)
}.

(** The value an action computes: a string or, for the tag actions, a list. *)
Inductive Data : Type :=
| DStr (s : string)
| DList (l : list string).

(** How a loop body ends: fall through to the next iteration, [break] with
    [failure = True], or an uncaught exception. *)
Inductive Flow : Type :=
| Next
| Break
| Raised (e : exn).

Record RunState : Type := {
  log : list Event;
  newCount : nat
}.

(** The notes the host created, the files it stored and the progress values
    it was shown, read off the log. *)
Definition created_notes (l : list Event) : list Note :=
  omap (fun e => match e with AddNote n true => Some n | _ => None end) l.

Definition rejected_notes (l : list Event) : list Note :=
  omap (fun e => match e with AddNote n false => Some n | _ => None end) l.

Definition stored_media (l : list Event) : list string :=
  omap (fun e => match e with AddFile p => Some p | _ => None end) l.

Definition progress_values (l : list Event) : list nat :=
  omap (fun e => match e with ProgressUpdate v => Some v | _ => None end) l.

(** ** Indexing the primary and secondary files of one folder *)

(** [re.search(f".{re.escape(suffix)}$", mediaName, re.MULTILINE)], in two
    parts. [line_ends_with suffix s]: [s] starts with the literal [suffix] and
    [$] matches right after it, that is at the end of the string or before a
    newline. *)
Fixpoint line_ends_with (suffix s : string) : bool :=
  match suffix with
  | EmptyString =>
      match s with
      | EmptyString => true
      | String c _ => Ascii.eqb c PyStr.newline
      end
  | String a suffix' =>
      match s with
      | EmptyString => false
      | String c s' => Ascii.eqb a c && line_ends_with suffix' s'
      end
  end.

(** The search itself: at some position stands a character other than the
    newline (the [.] of the pattern), followed by the suffix and [$]. *)
Fixpoint matches_pair_suffix (suffix mediaName : string) : bool :=
  match mediaName with
  | EmptyString => false
  | String c rest =>
      (negb (Ascii.eqb c PyStr.newline) && line_ends_with suffix rest)
      || matches_pair_suffix suffix rest
  end.

(** [secondary_media.sort(key=len)]: a stable sort, here by insertion of each
    name behind the names that are not longer. *)
Fixpoint insert_by_len (x : string) (l : list string) : list string :=
  match l with
  | [] => [x]
  | y :: l' =>
      if (PyStr.len x <? PyStr.len y)%nat then x :: y :: l'
      else y :: insert_by_len x l'
  end.

Definition sort_by_len (l : list string) : list string :=
  fold_left (fun acc x => insert_by_len x acc) l [].

Record FolderIndex : Type := {
  file_ending_index : gmap string string;
  primary_media : list string;
  secondary_media : list string
}.

Record PairIndex : Type := {
  file_pair_index : list (string * string);
  secondary_media_matched : gmap string bool
}.

Section Engine.

(** [editor.audio] and [editor.pics] of the host. *)
Variables AUDIO IMAGE : list string.

(** [mw.col.media.add_file]: the name the host gives the stored file, and
    [mw.col.addNote]: whether the host created a card. Both may depend on the
    calls made so far. *)
Variable add_file : list Event -> string -> string.
Variable addNote : list Event -> Note -> bool.

Definition is_audio (ext : string) : bool := bool_decide (ext ∈@{list string} AUDIO).
Definition is_image (ext : string) : bool := bool_decide (ext ∈@{list string} IMAGE).

(** [ext in AUDIO + IMAGE] *)
Definition is_media (ext : string) : bool := bool_decide (ext ∈@{list string} (AUDIO ++ IMAGE)%list).

(** [os.path.splitext(fileName)[1][1:].lower()] *)
Definition file_ext (fileName : string) : string :=
  PyStr.lower (PyStr.drop 1 (OsPath.splitext fileName).2).

(** The body of the first loop over [files] (lines 113-128). *)
Definition index_file (file_pair_suffix : string) (ix : FolderIndex) (fileName : string)
  : FolderIndex :=
  let mediaName := (OsPath.splitext fileName).1 in
  let ext := file_ext fileName in
  if negb (is_media ext) then ix
  else
    let file_ending_index' := <[mediaName := fileName]> (file_ending_index ix) in
    if matches_pair_suffix file_pair_suffix mediaName
    then {| file_ending_index := file_ending_index';
            primary_media := primary_media ix;
            secondary_media := secondary_media ix ++ [mediaName] |}
    else {| file_ending_index := file_ending_index';
            primary_media := primary_media ix ++ [mediaName];
            secondary_media := secondary_media ix |}.

Definition index_files (file_pair_suffix : string) (files : list string) : FolderIndex :=
  fold_left (index_file file_pair_suffix) files
    {| file_ending_index := ∅; primary_media := []; secondary_media := [] |}.

(** The body shared by the two matching loops (lines 132-137, 150-155). *)
Definition match_pair (file_pair_suffix : string) (idx : gmap string string)
    (pf : string) (pi : PairIndex) : result PairIndex :=
  primary_filename ← getitem idx pf;
  secondary_filename ← getitem idx (pf +:+ file_pair_suffix);
  Ok {| file_pair_index :=
          odict_set primary_filename secondary_filename (file_pair_index pi);
        secondary_media_matched :=
          <[pf +:+ file_pair_suffix := true]> (secondary_media_matched pi) |}.

(** First pass: every trivial primary file is matched. *)
Fixpoint match_primaries (file_pair_suffix : string) (idx : gmap string string)
    (names : list string) (pi : PairIndex) : result PairIndex :=
  match names with
  | [] => Ok pi
  | pf :: names' =>
      pi' ← match_pair file_pair_suffix idx pf pi;
      match_primaries file_pair_suffix idx names' pi'
  end.

(** Second pass: the secondary names not matched so far are matched with
    each other. *)
Fixpoint match_secondaries (file_pair_suffix : string) (idx : gmap string string)
    (names : list string) (pi : PairIndex) : result PairIndex :=
  match names with
  | [] => Ok pi
  | pf :: names' =>
      match secondary_media_matched pi !! pf with
      | None =>
          pi' ← match_pair file_pair_suffix idx pf pi;
          match_secondaries file_pair_suffix idx names' pi'
      | Some _ => match_secondaries file_pair_suffix idx names' pi
      end
  end.

Definition empty_pairs : PairIndex :=
  {| file_pair_index := []; secondary_media_matched := ∅ |}.

(** Lines 113-157 for a string suffix: the pair index of one folder. *)
Definition pair_files (file_pair_suffix : string) (files : list string)
  : result (list (string * string)) :=
  let ix := index_files file_pair_suffix files in
  pi1 ← match_primaries file_pair_suffix (file_ending_index ix) (primary_media ix) empty_pairs;
  pi2 ← match_secondaries file_pair_suffix (file_ending_index ix)
          (sort_by_len (secondary_media ix)) pi1;
  Ok (file_pair_index pi2).

(** The same for the value read from the settings: a suffix that is not a
    string makes [re.escape] raise at the first media file. *)
Definition pair_files_value (file_pair_suffix : Value) (files : list string)
  : result (list (string * string)) :=
  match file_pair_suffix with
  | VStr s => pair_files s files
  | _ => if existsb (fun f => is_media (file_ext f)) files
         then Raise TypeError else Ok []
  end.

(** ** Filling one note (lines 177-226) *)

(** What the loop over [fieldList] knows about the current file. *)
Record Context : Type := {
  c_fileName : string;
  c_mediaName : string;
  c_ext : string;
  c_internalFileName : string;
  c_internalFileName_2 : string;
  c_i : nat;
  c_rel : list string
}.

Definition sound_tag (name : string) : string := "[sound:" +:+ name +:+ "]".

Definition img_tag (name : string) : string :=
  "<img src=" +:+ String PyStr.dquote name +:+ String PyStr.dquote ">".

(** [relative_path.split(os.sep)] without its first ["."] *)
Definition folder_tags (rel : list string) : list string :=
  let data := PyStr.split "/"%char (relpath rel) in
  if bool_decide ("." ∈@{list string} data) then PyStr.remove_first "." data else data.

(** The chain of [if action == ...]: [None] stands for [continue]. *)
Definition evaluate (action : string) (c : Context) : option Data :=
  if String.eqb action Actions.nothing then None
  else if String.eqb action Actions.media then
    if is_audio (c_ext c) then Some (DStr (sound_tag (c_internalFileName c)))
    else if is_image (c_ext c) then Some (DStr (img_tag (c_internalFileName c)))
    else None
  else if String.eqb action Actions.media_2 then
    if is_audio (c_ext c) then Some (DStr (sound_tag (c_internalFileName_2 c)))
    else if is_image (c_ext c) then Some (DStr (img_tag (c_internalFileName_2 c)))
    else None
  else if String.eqb action Actions.file_name then Some (DStr (c_mediaName c))
  else if String.eqb action Actions.file_name_full then Some (DStr (c_fileName c))
  else if String.eqb action Actions.extension then Some (DStr (c_ext c))
  else if String.eqb action Actions.extension_case_sensitive then
    Some (DStr (PyStr.drop 1 (OsPath.splitext (c_mediaName c)).2))
  else if String.eqb action Actions.sequence then Some (DStr (PyStr.str (c_i c)))
  else if String.eqb action Actions.folder_tags_individual then
    Some (DList (folder_tags (c_rel c)))
  else if String.eqb action Actions.folder_tags_hierarchical then
    Some (DStr (PyStr.join "::" (folder_tags (c_rel c))))
  else None.

(** Lines 218-226: tags are appended, a field is overwritten. The dialog
    builds [fieldList] from the fields of the model, so the [KeyError] of
    [note[field]] for a field the note type lacks is not modelled. *)
Definition store (field : string) (special : bool) (data : Data) (note : Note) : Note :=
  if special && String.eqb field "Tags" then
    let tags := match data with DStr s => [s] | DList l => l end in
    {| note_fields := note_fields note;
       note_tags := note_tags note ++ map (PyStr.replace_char " " "_") tags |}
  else
    let text := match data with DStr s => s | DList l => PyStr.join " " l end in
    {| note_fields := <[field := text]> (note_fields note);
       note_tags := note_tags note |}.

Definition apply_mapping (c : Context) (note : Note) (m : string * string * bool) : Note :=
  match m with
  | (field, action, special) =>
      match evaluate action c with
      | None => note
      | Some data => store field special data note
      end
  end.

(** [notes.Note(mw.col, model)]: every field empty, no tags. *)
Definition new_note (model : list string) : Note :=
  {| note_fields := list_to_map (map (fun f => (f, EmptyString)) model);
     note_tags := [] |}.

Definition fill_note (rq : Request) (c : Context) : Note :=
  fold_left (apply_mapping c) (fieldList rq) (new_note (model rq)).

(** ** The loops of [doMediaImport] *)

(** [file_pairs_used]: some mapping asks for the secondary media file. *)
Definition file_pairs_used (rq : Request) : bool :=
  existsb (fun m => String.eqb m.1.2 Actions.media_2) (fieldList rq).

(** The body of the loop over [enumerate(files)] (lines 160-234). The lookup
    [file_pair_index[fileName]] is kept fallible as in the source. *)
Definition import_file (rq : Request) (w : Walked) (pairs : list (string * string))
    (st : RunState) (item : nat * string) : RunState * Flow :=
  let '(i, fileName) := item in
  let mediaName := (OsPath.splitext fileName).1 in
  let ext := file_ext fileName in
  let filePath := OsPath.join (w_root w) fileName in
  if negb (is_media ext) then (st, Next)
  else
    let internalFileName := add_file (log st) filePath in
    let log1 := log st ++ [AddFile filePath] in
    let second :=
      if file_pairs_used rq then
        match odict_get pairs fileName with
        | None => Raise (KeyError fileName)
        | Some secondary =>
            let filePath_2 := OsPath.join (w_root w) secondary in
            Ok (add_file log1 filePath_2, log1 ++ [AddFile filePath_2])
        end
      else Ok (EmptyString, log1) in
    match second with
    | Raise e => ({| log := log1; newCount := newCount st |}, Raised e)
    | Ok (internalFileName_2, log2) =>
        let note := fill_note rq
          {| c_fileName := fileName; c_mediaName := mediaName; c_ext := ext;
             c_internalFileName := internalFileName;
             c_internalFileName_2 := internalFileName_2;
             c_i := i; c_rel := w_rel w |} in
        if addNote log2 note then
          ({| log := log2 ++ [AddNote note true; ProgressUpdate (S (newCount st))];
              newCount := S (newCount st) |}, Next)
        else
          ({| log := log2 ++ [AddNote note false]; newCount := newCount st |}, Break)
    end.

(** A [for] loop whose body may [break] or raise. *)
Fixpoint for_each {A : Type} (body : RunState -> A -> RunState * Flow)
    (items : list A) (st : RunState) : RunState * Flow :=
  match items with
  | [] => (st, Next)
  | x :: items' =>
      match body st x with
      | (st', Next) => for_each body items' st'
      | stop => stop
      end
  end.

(** [enumerate(files)] *)
Definition enumerate (files : list string) : list (nat * string) :=
  zip (seq 0 (length files)) files.

(** The body of the loop over [os.walk(path)] (lines 92-236). *)
Definition import_folder (settings : gmap string Value) (rq : Request)
    (st : RunState) (w : Walked) : RunState * Flow :=
  match getitem settings "secondImageSuffix" with
  | Raise e => (st, Raised e)
  | Ok file_pair_suffix =>
      if file_pairs_used rq then
        match pair_files_value file_pair_suffix (w_files w) with
        | Raise e => (st, Raised e)
        | Ok pairs => for_each (import_file rq w pairs) (enumerate (odict_keys pairs)) st
        end
      else for_each (import_file rq w []) (enumerate (w_files w)) st
  end.

(** How the run ends: it returns, with [newCount] and [failure], or an
    exception leaves it. *)
Inductive Outcome : Type :=
| Returned (newCount : nat) (failure : bool)
| Uncaught (e : exn).

(** [sum([len(files) for _, _, files in os.walk(path)])] *)
Definition fileCount (rq : Request) (t : Tree) : nat :=
  sum_list (map (fun w => length (w_files w)) (walk true (path rq) [] t)).

(** Lines 75-245: the run once the dialog was accepted. *)
Definition run_import (settings : gmap string Value) (rq : Request) (t : Tree)
  : list Event * Outcome :=
  let st0 := {| log := [ProgressStart (fileCount rq t)]; newCount := 0 |} in
  match for_each (import_folder settings rq) (walk (recursive rq) (path rq) [] t) st0 with
  | (st, Raised e) => (log st, Uncaught e)
  | (st, flow) =>
      let failure := match flow with Break => true | _ => false end in
      (log st ++ [ProgressFinish; Tooltip (newCount st); DeckBrowserRefresh;
                  if failure then ShowFailureDialog
                  else ShowCompletionDialog (newCount st)],
       Returned (newCount st) failure)
  end.

End Engine.

(** ** The entry point *)

(** The dialog as the user left it: rejected, or accepted for a note type
    with the request it returns. *)
Inductive Dialog : Type :=
| Rejected
| Accepted (noteType : string) (rq : Request).

Section EntryPoint.

Variable home : string.
Variables AUDIO IMAGE : list string.
Variable add_file : list Event -> string -> string.
Variable addNote : list Event -> Note -> bool.

(** [ImportSettingsDialog.accept]: the mappings of the chosen note type, the
    folder and the recursion flag are stored in the settings and saved. *)
Definition accept (noteType : string) (rq : Request)
    (settings : gmap string Value) (d : Settings.Disk)
  : result (gmap string Value * Settings.Disk) :=
  let transientSettings : gmap string string :=
    list_to_map (rev (map (fun m => (m.1.1, m.1.2)) (fieldList rq))) in
  fieldSettings ← getitem settings "fieldSettings";
  match fieldSettings with
  | VFieldSettings m =>
      let settings' :=
        <["includeSubfolders" := VBool (recursive rq)]>
          (<["loadFolder" := VStr (path rq)]>
             (<["fieldSettings" := VFieldSettings (<[noteType := transientSettings]> m)]>
                settings)) in
      d' ← Settings.saveSettings settings' d;
      Ok (settings', d')
  | _ => Raise TypeError
  end.

(** [doMediaImport()]. [settings] is the global dictionary as the previous
    runs of the session left it (empty when the add-on was loaded). There is
    no run, [None], when the dialog was rejected; the dialog does not close
    as accepted either when [accept] raises before it reaches
    [QDialog.accept]. *)
Definition doMediaImport (d : Settings.Disk) (settings : gmap string Value)
    (dlg : Dialog) (t : Tree) : option (list Event * Outcome) :=
  let settings1 := Settings.initializeSettings home d settings in
  match dlg with
  | Rejected => None
  | Accepted noteType rq =>
      match accept noteType rq settings1 d with
      | Raise _ => None
      | Ok (settings2, _) =>
          Some (run_import AUDIO IMAGE add_file addNote settings2 rq t)
      end
  end.

End EntryPoint.

(** ** The vocabulary of the properties *)

(** A string with a newline character. *)
Fixpoint has_newline (s : string) : bool :=
  match s with
  | EmptyString => false
  | String c s' => Ascii.eqb c PyStr.newline || has_newline s'
  end.

(** A file of the folder that passed the extension test, with its name
    without extension and the outcome of the suffix search. *)
Definition classified (AUDIO IMAGE : list string) (file_pair_suffix : string)
    (files : list string) (mediaName : string) (secondary : bool) : Prop :=
  ∃ fileName, fileName ∈ files ∧ is_media AUDIO IMAGE (file_ext fileName) = true ∧
    (OsPath.splitext fileName).1 = mediaName ∧
    matches_pair_suffix file_pair_suffix mediaName = secondary.

Record index_inv (AUDIO IMAGE : list string) (file_pair_suffix : string)
    (files : list string) (ix : FolderIndex) : Prop := {
  inv_secondary : ∀ m, m ∈ secondary_media ix ↔ classified AUDIO IMAGE file_pair_suffix files m true;
  inv_primary : ∀ m, m ∈ primary_media ix ↔ classified AUDIO IMAGE file_pair_suffix files m false;
  inv_lookup : ∀ m g, file_ending_index ix !! m = Some g →
    g ∈ files ∧ is_media AUDIO IMAGE (file_ext g) = true ∧ (OsPath.splitext g).1 = m;
  inv_indexed : ∀ f, f ∈ files → is_media AUDIO IMAGE (file_ext f) = true →
    is_Some (file_ending_index ix !! (OsPath.splitext f).1)
}.

(** Every pair of the index was made from a name [pf] that was allowed to
    act as a primary, and no primary file name is listed twice. *)
Record pairs_inv (file_pair_suffix : string) (idx : gmap string string)
    (allowed : string → Prop) (pi : PairIndex) : Prop := {
  inv_keys : NoDup (odict_keys (file_pair_index pi));
  inv_pairs : ∀ p s, (p, s) ∈ file_pair_index pi →
    ∃ pf, allowed pf ∧ idx !! pf = Some p ∧ idx !! (pf +:+ file_pair_suffix) = Some s
}.

(** The events [ev] that a part of the run appended: every created note is
    followed by the progress value that counts it, and a rejected note is the
    last event of a part that ends in [break], and occurs nowhere else. *)
Definition segment (st st' : RunState) (flow : Flow) : Prop :=
  ∃ ev, log st' = log st ++ ev ∧
    newCount st' = newCount st + length (created_notes ev) ∧
    progress_values ev = seq (S (newCount st)) (length (created_notes ev)) ∧
    match flow with
    | Break => ∃ ev' note, ev = ev' ++ [AddNote note false] ∧ rejected_notes ev' = []
    | _ => rejected_notes ev = []
    end.

(** The positions, in the list the folder loop iterates over, of the files
    that pass the extension test. *)
Definition media_positions (AUDIO IMAGE : list string) (files : list string) : list nat :=
  map fst (List.filter (fun x => is_media AUDIO IMAGE (file_ext x.2)) (enumerate files)).

(** ** Sample hosts and inputs used by the examples *)

Module Sample.

Definition AUDIO : list string := ["mp3"; "wav"; "ogg"; "flac"].
Definition IMAGE : list string := ["jpg"; "jpeg"; "png"; "gif"].

(** A host that keeps the file name it is given and creates every note. *)
Definition add_file (_ : list Event) (filePath : string) : string := filePath.
Definition addNote (_ : list Event) (_ : Note) : bool := true.

Definition suffix_2 : gmap string Value := {["secondImageSuffix" := VStr "_2"]}.

End Sample.

(** The folders root/a and root/b, with a mapping for the secondary file. *)
Module Scenario.

(** root/a/img1.jpg, root/a/img1_2.png, root/b/clip.mp3 *)
Definition tree : Tree :=
  Folder [] [("a", Folder ["img1.jpg"; "img1_2.png"] []);
             ("b", Folder ["clip.mp3"] [])].

Definition request : Request :=
  {| path := "root"; recursive := true; model := ["Front"; "Back"];
     fieldList := [("Front", Actions.media, false);
                   ("Back", Actions.media_2, false);
                   ("Tags", Actions.nothing, true)] |}.

Definition run : list Event * Outcome :=
  run_import Sample.AUDIO Sample.IMAGE Sample.add_file Sample.addNote
    Sample.suffix_2 request tree.

End Scenario.

(** One file with an upper-case extension. *)
Module ExtensionRun.

Definition tree : Tree := Folder ["Image.JPG"] [].

Definition request : Request :=
  {| path := "root"; recursive := true; model := ["Front"; "Ext"; "ExtExact"];
     fieldList := [("Front", Actions.media, false);
                   ("Ext", Actions.extension, false);
                   ("ExtExact", Actions.extension_case_sensitive, false);
                   ("Tags", Actions.nothing, true)] |}.

Definition run : list Event * Outcome :=
  run_import Sample.AUDIO Sample.IMAGE Sample.add_file Sample.addNote
    Sample.suffix_2 request tree.

End ExtensionRun.

(** A file in the import folder and a file three folders down. *)
Module TagRun.

(** root/top.jpg and root/f1/f2/f3/deep.jpg *)
Definition tree : Tree :=
  Folder ["top.jpg"]
    [("f1", Folder [] [("f2", Folder [] [("f3", Folder ["deep.jpg"] [])])])].

Definition request (action : string) : Request :=
  {| path := "root"; recursive := true; model := ["Front"];
     fieldList := [("Front", Actions.media, false); ("Tags", action, true)] |}.

Definition tags (action : string) : list (list string) :=
  map note_tags
    (created_notes
       (run_import Sample.AUDIO Sample.IMAGE Sample.add_file Sample.addNote
          Sample.suffix_2 (request action) tree).1).

End TagRun.

(** A host that turns one note down. *)
Module AbortRun.

(** One folder with a file that the host turns down between two that it
    would accept, and a subfolder. *)
Definition tree : Tree := Folder ["a.jpg"; "b.jpg"; "c.jpg"] [("sub", Folder ["d.jpg"] [])].

Definition request : Request :=
  {| path := "root"; recursive := true; model := ["Front"];
     fieldList := [("Front", Actions.file_name, false); ("Tags", Actions.nothing, true)] |}.

Definition strict (_ : list Event) (note : Note) : bool :=
  negb (bool_decide (note_fields note !! "Front" = Some "b")).

Definition run : list Event * Outcome :=
  run_import Sample.AUDIO Sample.IMAGE Sample.add_file strict Sample.suffix_2 request tree.

Definition rejected : Note :=
  {| note_fields := {["Front" := "b"]}; note_tags := [] |}.

End AbortRun.

(** A listing with an excluded file. *)
Module MixedFolder.

(** A folder whose listing has a file that is no media file between two
    that are; no mapping asks for a secondary file. *)
Definition tree : Tree := Folder ["a.jpg"; "notes.txt"; "b.jpg"] [].

Definition request : Request :=
  {| path := "root"; recursive := true; model := ["Front"; "Back"];
     fieldList := [("Front", Actions.media, false);
                   ("Back", Actions.sequence, false);
                   ("Tags", Actions.nothing, true)] |}.

Definition run : list Event * Outcome :=
  run_import Sample.AUDIO Sample.IMAGE Sample.add_file Sample.addNote
    Sample.suffix_2 request tree.

End MixedFolder.

(** Settings to save and reload. *)
Module SavedSettings.

(** The settings after a dialog that chose mappings for the note type Basic,
    with the extension actions switched on by the user. *)
Definition settings : gmap string Value :=
  <["fieldSettings" :=
      VFieldSettings {["Basic" := {["Front" := Actions.media; "Back" := Actions.file_name]}]}]>
    (<["includeSubfolders" := VBool false]>
       (<["loadFolder" := VStr "/home/user/cards"]>
          (<["showExtensionActions" := VBool true]>
             (<["secondMediaSuffix" := VStr "_b"]> ∅)))).

Definition disk : Settings.Disk :=
  {| Settings.transient_file := None; Settings.addon_config := ∅ |}.

End SavedSettings.

(** The places that may define the suffix key. *)
Module SuffixRuns.

(** The host configuration defines the key: the run of the first session. *)
Definition disk1 : Settings.Disk :=
  {| Settings.transient_file := None;
     Settings.addon_config := {["secondImageSuffix" := VStr "_2"]} |}.

Definition tree : Tree := Folder ["img1.jpg"; "img1_2.png"] [].

(** What the dialog of the first session saved. *)
Definition disk2 : Settings.Disk :=
  match accept "Basic" Scenario.request
          (Settings.initializeSettings "/home/user" disk1 ∅) disk1 with
  | Ok (_, d') => d'
  | Raise _ => disk1
  end.

(** Nothing persisted defines the key. *)
Definition disk0 : Settings.Disk :=
  {| Settings.transient_file := None; Settings.addon_config := ∅ |}.

End SuffixRuns.

(** ** More vocabulary *)

(** The file indexed under the name [k] is the primary or the secondary of a
    pair. *)
Definition covered (idx : gmap string string) (pi : PairIndex) (k : string) : Prop :=
  ∃ g, idx !! k = Some g ∧
       (g ∈ map fst (file_pair_index pi) ∨ g ∈ map snd (file_pair_index pi)).

(** Every name marked as matched is indexed, and its file is the secondary of
    a pair. *)
Definition matched_covered (idx : gmap string string) (pi : PairIndex) : Prop :=
  ∀ k, is_Some (secondary_media_matched pi !! k) →
    ∃ s, idx !! k = Some s ∧ s ∈ map snd (file_pair_index pi).

(** The base names of the media files of a listing, in listing order. *)
Definition media_names (AUDIO IMAGE : list string) (files : list string) : list string :=
  map (fun f => (OsPath.splitext f).1)
      (List.filter (fun f => is_media AUDIO IMAGE (file_ext f)) files).

(** The trivial primary files of a listing, in listing order. *)
Definition trivial_primaries (AUDIO IMAGE : list string) (file_pair_suffix : string)
    (files : list string) : list string :=
  List.filter (fun f => is_media AUDIO IMAGE (file_ext f) &&
                        negb (matches_pair_suffix file_pair_suffix (OsPath.splitext f).1))
              files.

(** The character [a] occurs in [s]. *)
Fixpoint has_char (a : ascii) (s : string) : bool :=
  match s with
  | EmptyString => false
  | String c s' => Ascii.eqb c a || has_char a s'
  end.

(** The media files of a listing, in listing order. *)
Definition media_files (AUDIO IMAGE : list string) (files : list string) : list string :=
  List.filter (fun f => is_media AUDIO IMAGE (file_ext f)) files.

(** The files that the body of the file loop stores for [fileName]. *)
Definition stored_for (AUDIO IMAGE : list string) (rq : Request) (w : Walked) (pairs : list (string * string))
    (fileName : string) (ev : list Event) : Prop :=
  ∀ p, p ∈ stored_media ev →
    is_media AUDIO IMAGE (file_ext fileName) = true ∧
    (p = OsPath.join (w_root w) fileName ∨
     ∃ s, (fileName, s) ∈ pairs ∧ p = OsPath.join (w_root w) s).

(** Every note handed to the host was filled for a media file. *)
Definition notes_filled (AUDIO IMAGE : list string) (rq : Request) (w : Walked) (ev : list Event) : Prop :=
  ∀ note created, AddNote note created ∈ ev →
    ∃ c, note = fill_note AUDIO IMAGE rq c ∧ is_media AUDIO IMAGE (c_ext c) = true ∧
         c_rel c = w_rel w.

(** Every file stored by the events [ev] is a media file of one of the
    folders [ws], under the path of that folder. *)
Definition listed (AUDIO IMAGE : list string) (ws : list Walked) (ev : list Event) : Prop :=
  ∀ p, p ∈ stored_media ev →
    ∃ w, w ∈ ws ∧ ∃ f, f ∈ w_files w ∧ is_media AUDIO IMAGE (file_ext f) = true ∧
                       p = OsPath.join (w_root w) f.

(** The paths of the media files of the visited folders, in the order of the
    walk and of the listings. *)
Definition walk_media (AUDIO IMAGE : list string) (ws : list Walked) : list string :=
  flat_map (fun w => map (OsPath.join (w_root w)) (media_files AUDIO IMAGE (w_files w))) ws.

(** The paths of the files of the pairs under [root], primary before
    secondary. *)
Definition pair_paths (root : string) (pairs : list (string * string)) : list string :=
  flat_map (fun kv => [OsPath.join root kv.1; OsPath.join root kv.2]) pairs.

(** The calls the loops over the folders and files make to the host: a file
    is stored, a note is added, the progress bar is moved. *)
Definition loop_event (e : Event) : bool :=
  match e with
  | AddFile _ | AddNote _ _ | ProgressUpdate _ => true
  | _ => false
  end.

(** ** The settings module of the earlier versions (settings.py)

    [__init__.py] does not import this module; it is the one whose defaults
    define the key [secondImageSuffix]. Its settings are one JSON file. *)

Module LegacySettings.

Section WithHome.

Variable home : string.

Definition DefaultSettings : list (string * Value) :=
  [("loadFolder", VStr home);
   ("secondImageSuffix", VStr "_2");
   ("fieldSettings", VFieldSettings ∅)].

(** [initializeSettings()]; [file] is the document of [settings.json] when
    the file exists. *)
Definition initializeSettings (file : option (gmap string Value))
    (settings : gmap string Value) : gmap string Value :=
  let loadedSettings := default ∅ file in
  let defaultSettings := Settings.asdict DefaultSettings in
  let mergedSettings := loadedSettings ∪ defaultSettings in
  mergedSettings ∪ settings.

(** [saveSettings()]: the whole dictionary is written. *)
Definition saveSettings (settings : gmap string Value) : option (gmap string Value) :=
  Some settings.

End WithHome.

End LegacySettings.

(** ** The rows of the import dialog ([ImportSettingsDialog])

    A row is a label and a combo box. Of the toolkit the model keeps what the
    code relies on: the first item added to an empty combo box becomes the
    current one, [findText] returns the index of the first item equal to the
    text or -1, and [currentText] is the text of the current item. *)

Module ImportSettingsDialog.

(** [for action in Actions]: the members in the order of their definition. *)
Definition all_actions : list string :=
  [Actions.nothing; Actions.media; Actions.media_2; Actions.file_name;
   Actions.file_name_full; Actions.extension; Actions.extension_case_sensitive;
   Actions.sequence; Actions.folder_tags_individual; Actions.folder_tags_hierarchical].

Definition SPECIAL_FIELDS : list string := ["Tags"].

(** [self.defaultSettings] *)
Definition defaultSettings : gmap string string :=
  list_to_map [("Front", Actions.media); ("Image", Actions.media);
               ("Back", Actions.file_name); ("Back Extra", Actions.file_name);
               ("Text", Actions.file_name)].

Record Row : Type := {
  lbl : string;
  special : bool;
  items : list string;
  currentIndex : nat
}.

(** [createRow(name, idx, special)] *)
Definition createRow (name : string) (special : bool) : Row :=
  {| lbl := name;
     special := special;
     items := List.filter
                (fun action => negb (String.eqb name "Tags" && String.eqb action Actions.media))
                all_actions;
     currentIndex := 0 |}.

(** [cmb.findText(text)]; [None] stands for -1. *)
Fixpoint findText (items : list string) (text : string) : option nat :=
  match items with
  | [] => None
  | item :: items' =>
      if String.eqb item text then Some 0 else S <$> findText items' text
  end.

(** [cmb.currentText()] *)
Definition currentText (r : Row) : string := nth (currentIndex r) (items r) EmptyString.

Definition setCurrentIndex (i : nat) (r : Row) : Row :=
  {| lbl := lbl r; special := special r; items := items r; currentIndex := i |}.

(** [x in s] for two strings: [x] occurs in [s]. *)
Fixpoint is_substring (x s : string) : bool :=
  String.prefix x s ||
  match s with
  | EmptyString => false
  | String _ s' => is_substring x s'
  end.

(** Lines 323-325: the mappings stored for the note type. Of a value that is
    no dictionary, a string supports [in] and fails at the subscript, and a
    flag fails at [in]. *)
Definition stored_mapping (noteType : string) (settings : gmap string Value)
  : result (gmap string string) :=
  fieldSettings ← getitem settings "fieldSettings";
  match fieldSettings with
  | VFieldSettings m => Ok (default ∅ (m !! noteType))
  | VStr s => if is_substring noteType s then Raise TypeError else Ok ∅
  | VBool _ => Raise TypeError
  end.

(** The body of the loop at lines 336-350. *)
Definition apply_setting (fieldSettings : gmap string string) (r : Row) : Row :=
  match fieldSettings !! lbl r with
  | None => r
  | Some fieldSetting =>
      match findText (items r) fieldSetting with
      | Some settingsIndex => setCurrentIndex settingsIndex r
      | None => r
      end
  end.

(** The rows that lines 311-320 create for the fields [flds] of the model. *)
Definition fresh_rows (flds : list string) : list Row :=
  map (fun name => createRow name false) flds ++
  map (fun name => createRow name true) SPECIAL_FIELDS.

(** [noteTypeChangedCallback()]: the rows of the grid afterwards. The signal
    that [setCurrentIndex] emits also writes the choice into
    [sessionSettings]; that write comes after [fieldSettings] was built, does
    not change the rows, and is not modelled. *)
Definition noteTypeChangedCallback (flds : list string) (noteType : string)
    (settings : gmap string Value) (sessionSettings : gmap string (gmap string string))
  : result (list Row) :=
  let rows := fresh_rows flds in
  transientSettings ← stored_mapping noteType settings;
  let fieldSessionSettings := default ∅ (sessionSettings !! noteType) in
  let fieldSettings := fieldSessionSettings ∪ (transientSettings ∪ defaultSettings) in
  Ok (map (apply_setting fieldSettings) rows).

(** [fieldSettingChangedCallback(field, setting)] for the note type shown. *)
Definition fieldSettingChangedCallback (noteType field setting : string)
    (sessionSettings : gmap string (gmap string string))
  : gmap string (gmap string string) :=
  <[noteType := <[field := setting]> (default ∅ (sessionSettings !! noteType))]>
    sessionSettings.

(** The [fieldList] of [getDialogResult()] for an accepted dialog. *)
Definition getDialogResult (rows : list Row) : list (string * string * bool) :=
  map (fun r => (lbl r, currentText r, special r)) rows.

(** The user picks an item in each row; a choice outside the list of a row
    leaves the row as it is. *)
Fixpoint select (choices : list nat) (rows : list Row) : list Row :=
  match rows, choices with
  | r :: rows', i :: choices' =>
      (if (i <? length (items r))%nat then setCurrentIndex i r else r)
      :: select choices' rows'
  | _, _ => rows
  end.

End ImportSettingsDialog.

(** [r] is the row [r0] with some item of it current. *)
Definition row_of (r r0 : ImportSettingsDialog.Row) : Prop :=
  ImportSettingsDialog.lbl r = ImportSettingsDialog.lbl r0 ∧
  ImportSettingsDialog.special r = ImportSettingsDialog.special r0 ∧
  ImportSettingsDialog.items r = ImportSettingsDialog.items r0 ∧
  ImportSettingsDialog.currentIndex r < length (ImportSettingsDialog.items r0).

(** The dictionary that [accept] stores for the note type: field name to
    action, the last row of a name winning. *)
Definition field_mapping (fieldList : list (string * string * bool)) : gmap string string :=
  list_to_map (rev (map (fun m => (m.1.1, m.1.2)) fieldList)).

(** The settings as [accept] leaves them. *)
Definition accepted_settings (noteType : string) (rq : Request)
    (m : gmap string (gmap string string)) (settings : gmap string Value)
  : gmap string Value :=
  <["includeSubfolders" := VBool (recursive rq)]>
    (<["loadFolder" := VStr (path rq)]>
       (<["fieldSettings" := VFieldSettings (<[noteType := field_mapping (fieldList rq)]> m)]>
          settings)).

(** A folder whose name has a space. *)
Module SpacedFolder.

Definition tree : Tree := Folder [] [("my folder", Folder ["x.jpg"] [])].

Definition request : Request :=
  {| path := "root"; recursive := true; model := ["Front"];
     fieldList := [("Front", Actions.file_name, false);
                   ("Tags", Actions.folder_tags_individual, true)] |}.

Definition note : Note :=
  {| note_fields := {["Front" := "x"]}; note_tags := ["my_folder"] |}.

End SpacedFolder.

(** One audio file. *)
Module SoundRun.

Definition tree : Tree := Folder ["clip.mp3"] [].

Definition request : Request :=
  {| path := "root"; recursive := true; model := ["Front"];
     fieldList := [("Front", Actions.media, false)] |}.

Definition note : Note :=
  {| note_fields := {["Front" := "[sound:root/clip.mp3]"]}; note_tags := [] |}.

End SoundRun.

(** The events [l] of a part of the run that starts after [count] notes were
    created: every created note is directly followed by the progress value
    that counts it, and every progress value directly follows a created
    note. *)
Definition paced (count : nat) (l : list Event) : Prop :=
  (∀ before note after, l = before ++ AddNote note true :: after →
     ∃ after', after = ProgressUpdate (S (count + length (created_notes before))) :: after') ∧
  (∀ before value after, l = before ++ ProgressUpdate value :: after →
     ∃ before' note, before = before' ++ [AddNote note true]).

(** The part of the run from [st] to [st'] is paced. *)
Definition paced_part (st st' : RunState) : Prop :=
  ∃ ev, log st' = log st ++ ev ∧
    newCount st' = newCount st + length (created_notes ev) ∧
    paced (newCount st) ev.



(** The number of files in a folder and in all the folders below it. *)
Fixpoint tree_files (t : Tree) : nat :=
  match t with
  | Folder files dirs =>
      length files + sum_list (map (fun d => match d with (_, sub) => tree_files sub end) dirs)
  end.

(** The note of the scenario: the image and its secondary file. *)
Module PairedNote.

Definition note : Note :=
  {| note_fields := {["Front" := "<img src=" +:+ String PyStr.dquote "root/a/img1.jpg"
                                  +:+ String PyStr.dquote ">";
                      "Back" := "<img src=" +:+ String PyStr.dquote "root/a/img1_2.png"
                                 +:+ String PyStr.dquote ">"]};
     note_tags := [] |}.

End PairedNote.

(** * Properties *)

(** ** Strings *)

Example splitext_plain : OsPath.splitext "image.JPG" = ("image", ".JPG").
Proof. reflexivity. Qed.

Example splitext_no_extension : OsPath.splitext "README" = ("README", EmptyString).
Proof. reflexivity. Qed.

Example splitext_leading_dot : OsPath.splitext ".bashrc" = (".bashrc", EmptyString).
Proof. reflexivity. Qed.

Example splitext_last_dot : OsPath.splitext "a.tar.gz" = ("a.tar", ".gz").
Proof. reflexivity. Qed.

Example join_folder : OsPath.join "root/a" "img1.jpg" = "root/a/img1.jpg".
Proof. reflexivity. Qed.

Example split_relpath : PyStr.split "/"%char "f1/f2/f3" = ["f1"; "f2"; "f3"].
Proof. reflexivity. Qed.

Example suffix_at_line_end :
  matches_pair_suffix "_2" "image_2" = true ∧
  matches_pair_suffix "_2" "image_2_2" = true ∧
  matches_pair_suffix "_2" "image_20" = false ∧
  matches_pair_suffix "_2" "_2" = false.
Proof. by vm_compute. Qed.

Example sort_by_len_stable :
  sort_by_len ["ccc"; "a"; "bb"; "b"; "aaa"; "c"] = ["a"; "b"; "c"; "bb"; "ccc"; "aaa"].
Proof. reflexivity. Qed.

Example sort_by_len_code_points :
  PyStr.len "日本_2" = 4 ∧ String.length "日本_2" = 8 ∧
  sort_by_len ["abcd_2"; "日本_2"] = ["日本_2"; "abcd_2"].
Proof. by vm_compute. Qed.

Lemma str_app_nil (t : string) : EmptyString +:+ t = t.
Proof. reflexivity. Qed.

Lemma str_app_cons (c : ascii) (s t : string) :
  String c s +:+ t = String c (s +:+ t).
Proof. reflexivity. Qed.

Lemma str_app_length (s t : string) :
  String.length (s +:+ t) = (String.length s + String.length t)%nat.
Proof.
  induction s as [|c s IH]; [done |].
  rewrite str_app_cons. simpl. by rewrite IH.
Qed.

Lemma str_app_inv_suffix (s1 s2 t : string) : s1 +:+ t = s2 +:+ t → s1 = s2.
Proof.
  revert s2. induction s1 as [|c s1 IH]; intros [|c2 s2] H.
  - done.
  - apply (f_equal String.length) in H.
    rewrite str_app_nil, str_app_cons in H. simpl in H. rewrite str_app_length in H. lia.
  - apply (f_equal String.length) in H.
    rewrite str_app_nil, str_app_cons in H. simpl in H. rewrite str_app_length in H. lia.
  - rewrite !str_app_cons in H. injection H as -> H. f_equal. by apply IH.
Qed.

Lemma line_ends_with_length (suffix s : string) :
  line_ends_with suffix s = true → (String.length suffix ≤ String.length s)%nat.
Proof.
  revert s. induction suffix as [|a suffix IH]; intros [|c s] H; simpl in *.
  - lia.
  - lia.
  - discriminate H.
  - apply andb_true_iff in H as [_ H]. apply IH in H. lia.
Qed.

Lemma matches_pair_suffix_length (suffix name : string) :
  matches_pair_suffix suffix name = true →
  (String.length suffix < String.length name)%nat.
Proof.
  induction name as [|c name IH]; simpl; [done |].
  intros [H | H]%orb_true_iff.
  - apply andb_true_iff in H as [_ H]. apply line_ends_with_length in H. lia.
  - apply IH in H. lia.
Qed.

Lemma line_ends_with_no_newline (suffix s : string) :
  has_newline s = false → line_ends_with suffix s = true ↔ s = suffix.
Proof.
  revert s. induction suffix as [|a suffix IH]; intros [|c s] Hnl; simpl in *.
  - done.
  - apply orb_false_iff in Hnl as [-> _]. split; done.
  - split; done.
  - apply orb_false_iff in Hnl as [_ Hnl]. rewrite andb_true_iff, (IH _ Hnl).
    rewrite Ascii.eqb_eq. split; [intros [-> ->]; done | intros [= -> ->]; done].
Qed.

Lemma matches_pair_suffix_no_newline (suffix name : string) :
  has_newline name = false →
  matches_pair_suffix suffix name = true ↔
  ∃ stem, stem ≠ EmptyString ∧ name = stem +:+ suffix.
Proof.
  induction name as [|c name IH]; simpl; intros Hnl.
  - split; [done |]. intros ([|a stem] & Hne & H); [done | discriminate H].
  - apply orb_false_iff in Hnl as [Hc Hnl]. rewrite Hc. simpl.
    rewrite orb_true_iff, (line_ends_with_no_newline _ _ Hnl), (IH Hnl). split.
    + intros [-> | (stem & Hne & ->)].
      * by exists (String c EmptyString).
      * by exists (String c stem).
    + intros ([|a stem] & Hne & H); [done |].
      rewrite str_app_cons in H. injection H as -> ->.
      destruct stem as [|b stem]; [by left | right].
      by exists (String b stem).
Qed.

(** ** The folder index (lines 113-128) *)

Section Indexing.

Variables AUDIO IMAGE : list string.

Lemma index_inv_nil (file_pair_suffix : string) :
  index_inv AUDIO IMAGE file_pair_suffix []
    {| file_ending_index := ∅; primary_media := []; secondary_media := [] |}.
Proof.
  split; simpl.
  - intros m. split; [by intros ?%elem_of_nil | by intros (f & ?%elem_of_nil & _)].
  - intros m. split; [by intros ?%elem_of_nil | by intros (f & ?%elem_of_nil & _)].
  - intros m g H. by rewrite lookup_empty in H.
  - by intros f ?%elem_of_nil.
Qed.

Lemma classified_snoc (file_pair_suffix : string) (files : list string)
    (f m : string) (b : bool) :
  classified AUDIO IMAGE file_pair_suffix (files ++ [f]) m b ↔
  classified AUDIO IMAGE file_pair_suffix files m b ∨
  (is_media AUDIO IMAGE (file_ext f) = true ∧ (OsPath.splitext f).1 = m ∧
   matches_pair_suffix file_pair_suffix m = b).
Proof.
  unfold classified. split.
  - intros (g & [Hg | ->%list_elem_of_singleton]%elem_of_app & H); [left | right]; eauto.
  - intros [(g & Hg & H) | H].
    + exists g. rewrite elem_of_app. eauto.
    + exists f. rewrite elem_of_app, list_elem_of_singleton. eauto.
Qed.

Lemma index_inv_snoc (file_pair_suffix : string) (files : list string)
    (ix : FolderIndex) (f : string) :
  index_inv AUDIO IMAGE file_pair_suffix files ix →
  index_inv AUDIO IMAGE file_pair_suffix (files ++ [f]) (index_file AUDIO IMAGE file_pair_suffix ix f).
Proof.
  intros [Hs Hp Hl Hi]. unfold index_file.
  destruct (is_media AUDIO IMAGE (file_ext f)) eqn:Hm; simpl.
  - destruct (matches_pair_suffix file_pair_suffix (OsPath.splitext f).1) eqn:Hre;
      split; simpl; intros m.
    + rewrite classified_snoc, elem_of_app, list_elem_of_singleton, Hs.
      split; intros [? | H]; auto; [subst m; auto | right; by destruct H as (_ & -> & _)].
    + rewrite classified_snoc, Hp. split; [auto |]. intros [? | (_ & <- & H)]; [done | congruence].
    + intros g. destruct (decide ((OsPath.splitext f).1 = m)) as [<- | Hne].
      * rewrite lookup_insert_eq. intros [= <-]. rewrite elem_of_app, list_elem_of_singleton. auto.
      * rewrite lookup_insert_ne by done. intros (? & ? & ?)%Hl. rewrite elem_of_app. auto.
    + rename m into g. intros [Hg | ->%list_elem_of_singleton]%elem_of_app Hg'.
      * destruct (decide ((OsPath.splitext f).1 = (OsPath.splitext g).1)) as [<- | Hne].
        -- rewrite lookup_insert_eq. eauto.
        -- rewrite lookup_insert_ne by done. auto.
      * rewrite lookup_insert_eq. eauto.
    + rewrite classified_snoc, Hs. split; [auto |]. intros [? | (_ & <- & H)]; [done | congruence].
    + rewrite classified_snoc, elem_of_app, list_elem_of_singleton, Hp.
      split; intros [? | H]; auto; [subst m; auto | right; by destruct H as (_ & -> & _)].
    + intros g. destruct (decide ((OsPath.splitext f).1 = m)) as [<- | Hne].
      * rewrite lookup_insert_eq. intros [= <-]. rewrite elem_of_app, list_elem_of_singleton. auto.
      * rewrite lookup_insert_ne by done. intros (? & ? & ?)%Hl. rewrite elem_of_app. auto.
    + rename m into g. intros [Hg | ->%list_elem_of_singleton]%elem_of_app Hg'.
      * destruct (decide ((OsPath.splitext f).1 = (OsPath.splitext g).1)) as [<- | Hne].
        -- rewrite lookup_insert_eq. eauto.
        -- rewrite lookup_insert_ne by done. auto.
      * rewrite lookup_insert_eq. eauto.
  - split; intros m.
    + rewrite classified_snoc, Hs. split; [auto |]. intros [? | (? & _)]; [done | congruence].
    + rewrite classified_snoc, Hp. split; [auto |]. intros [? | (? & _)]; [done | congruence].
    + intros g (? & ? & ?)%Hl. rewrite elem_of_app. auto.
    + intros [Hg | ->%list_elem_of_singleton]%elem_of_app Hg'; [auto | congruence].
Qed.

Lemma index_files_inv (file_pair_suffix : string) (files : list string) :
  index_inv AUDIO IMAGE file_pair_suffix files (index_files AUDIO IMAGE file_pair_suffix files).
Proof.
  unfold index_files. induction files as [|f files IH] using rev_ind.
  - apply index_inv_nil.
  - rewrite fold_left_app. simpl. by apply index_inv_snoc.
Qed.

End Indexing.

Lemma classified_file (AUDIO IMAGE : list string) (file_pair_suffix : string)
    (files : list string) (fileName : string) (b : bool) :
  fileName ∈ files → is_media AUDIO IMAGE (file_ext fileName) = true →
  classified AUDIO IMAGE file_pair_suffix files (OsPath.splitext fileName).1 b ↔
  matches_pair_suffix file_pair_suffix (OsPath.splitext fileName).1 = b.
Proof.
  intros Hin Hm. split.
  - by intros (g & _ & _ & _ & H).
  - intros H. by exists fileName.
Qed.

(** C8 (amended): during pairing-enabled indexing, a classified base name
    without newline characters is a candidate secondary exactly when it ends
    with the pair suffix and at least one character stands before the suffix,
    and a trivial primary otherwise; a base name equal to the pair suffix is
    always a trivial primary. *)
Theorem pair_suffix_partition (AUDIO IMAGE : list string) (file_pair_suffix : string)
    (files : list string) (fileName : string) :
  fileName ∈ files →
  is_media AUDIO IMAGE (file_ext fileName) = true →
  let mediaName := (OsPath.splitext fileName).1 in
  let ix := index_files AUDIO IMAGE file_pair_suffix files in
  (has_newline mediaName = false →
   (mediaName ∈ secondary_media ix ↔
    ∃ stem, stem ≠ EmptyString ∧ mediaName = stem +:+ file_pair_suffix) ∧
   (mediaName ∈ primary_media ix ↔
    ¬ ∃ stem, stem ≠ EmptyString ∧ mediaName = stem +:+ file_pair_suffix)) ∧
  (mediaName = file_pair_suffix →
   mediaName ∈ primary_media ix ∧ mediaName ∉ secondary_media ix).
Proof.
  intros Hin Hm mediaName ix.
  destruct (index_files_inv AUDIO IMAGE file_pair_suffix files) as [Hs Hp _ _].
  fold ix in Hs, Hp.
  assert (Hsec : mediaName ∈ secondary_media ix ↔
                 matches_pair_suffix file_pair_suffix mediaName = true).
  { rewrite Hs. by apply classified_file. }
  assert (Hprim : mediaName ∈ primary_media ix ↔
                  matches_pair_suffix file_pair_suffix mediaName = false).
  { rewrite Hp. by apply classified_file. }
  split.
  - intros Hnl. rewrite Hsec, Hprim, <- (matches_pair_suffix_no_newline _ _ Hnl).
    split; [done |]. by rewrite not_true_iff_false.
  - intros Heq. rewrite Hsec, Hprim.
    destruct (matches_pair_suffix file_pair_suffix mediaName) eqn:Hre; [| done].
    apply matches_pair_suffix_length in Hre. rewrite Heq in Hre. lia.
Qed.

Lemma pair_suffix_partition_witness :
  "img1_2" ∈ secondary_media
    (index_files Sample.AUDIO Sample.IMAGE "_2" ["img1.jpg"; "img1_2.png"]).
Proof.
  destruct (pair_suffix_partition Sample.AUDIO Sample.IMAGE "_2"
              ["img1.jpg"; "img1_2.png"] "img1_2.png") as [H _].
  - apply list_elem_of_further, list_elem_of_here.
  - reflexivity.
  - destruct (H eq_refl) as [Hs _]. apply Hs.
    exists "img1". split; [discriminate | reflexivity].
Defined.

(** C8 as stated fails: the file [_2.jpg], whose base name is the pair suffix
    itself, is indexed as a trivial primary, not as a candidate secondary. *)
Lemma suffix_named_file_is_primary :
  (OsPath.splitext "_2.jpg").1 = "_2" ∧
  secondary_media (index_files Sample.AUDIO Sample.IMAGE "_2" ["_2.jpg"]) = [] ∧
  primary_media (index_files Sample.AUDIO Sample.IMAGE "_2" ["_2.jpg"]) = ["_2"].
Proof. by vm_compute. Qed.

(** ** The pair index (lines 130-157) *)

Lemma odict_set_elem (k v : string) (d : list (string * string)) (kv : string * string) :
  kv ∈ odict_set k v d → kv = (k, v) ∨ kv ∈ d.
Proof.
  induction d as [|[k' v'] d IH]; simpl.
  - intros ->%list_elem_of_singleton. by left.
  - destruct (String.eqb_spec k' k) as [-> | Hne]; rewrite !elem_of_cons; intuition.
Qed.

Lemma odict_set_keys (k v : string) (d : list (string * string)) (k0 : string) :
  k0 ∈ odict_keys (odict_set k v d) ↔ k0 = k ∨ k0 ∈ odict_keys d.
Proof.
  unfold odict_keys. induction d as [|[k' v'] d IH]; simpl.
  - rewrite list_elem_of_singleton, elem_of_nil. tauto.
  - destruct (String.eqb_spec k' k) as [-> | Hne]; simpl; rewrite !elem_of_cons.
    + tauto.
    + rewrite IH. tauto.
Qed.

Lemma odict_set_NoDup (k v : string) (d : list (string * string)) :
  NoDup (odict_keys d) → NoDup (odict_keys (odict_set k v d)).
Proof.
  unfold odict_keys. induction d as [|[k' v'] d IH]; simpl; intros Hnd.
  - apply NoDup_singleton.
  - apply NoDup_cons in Hnd as [Hk' Hnd].
    destruct (String.eqb_spec k' k) as [-> | Hne]; simpl; apply NoDup_cons.
    + done.
    + split; [| by apply IH]. intros [? | ?]%odict_set_keys; [congruence | done].
Qed.

Lemma odict_NoDup_functional (d : list (string * string)) (k v1 v2 : string) :
  NoDup (odict_keys d) → (k, v1) ∈ d → (k, v2) ∈ d → v1 = v2.
Proof.
  unfold odict_keys. induction d as [|[k' v'] d IH]; simpl.
  - by intros _ ?%elem_of_nil.
  - intros [Hk' Hnd]%NoDup_cons [H1 | H1]%elem_of_cons [H2 | H2]%elem_of_cons.
    + congruence.
    + injection H1 as -> ->. destruct Hk'. apply list_elem_of_fmap. by exists (k', v2).
    + injection H2 as -> ->. destruct Hk'. apply list_elem_of_fmap. by exists (k', v1).
    + by apply IH.
Qed.

Lemma odict_get_elem (d : list (string * string)) (k v : string) :
  odict_get d k = Some v → (k, v) ∈ d.
Proof.
  induction d as [|[k' v'] d IH]; simpl; [done |].
  destruct (String.eqb_spec k' k) as [-> | Hne].
  - intros [= ->]. apply list_elem_of_here.
  - intros H. by apply list_elem_of_further, IH.
Qed.

Lemma odict_get_key (d : list (string * string)) (k : string) :
  k ∈ odict_keys d → is_Some (odict_get d k).
Proof.
  unfold odict_keys. induction d as [|[k' v'] d IH]; simpl.
  - by intros ?%elem_of_nil.
  - destruct (String.eqb_spec k' k) as [-> | Hne]; [eauto |].
    intros [? | ?]%elem_of_cons; [congruence | by apply IH].
Qed.

Section Pairing.

Variable file_pair_suffix : string.
Variable idx : gmap string string.

Lemma match_pair_inv (allowed : string → Prop) (pf : string) (pi pi' : PairIndex) :
  match_pair file_pair_suffix idx pf pi = Ok pi' →
  allowed pf → pairs_inv file_pair_suffix idx allowed pi →
  pairs_inv file_pair_suffix idx allowed pi' ∧
  (∀ k, secondary_media_matched pi' !! k = None → secondary_media_matched pi !! k = None).
Proof.
  unfold match_pair, getitem, mbind, result_bind.
  destruct (idx !! pf) as [p|] eqn:Hp; [| done].
  destruct (idx !! (pf +:+ file_pair_suffix)) as [s|] eqn:Hs; [| done].
  intros [= <-] Hpf [Hnd Hall]. simpl. split; [split; simpl |].
  - by apply odict_set_NoDup.
  - intros p0 s0 [[= -> ->] | H]%odict_set_elem; eauto.
  - intros k. rewrite lookup_insert_None. tauto.
Qed.

Lemma match_primaries_inv (allowed : string → Prop) (names : list string)
    (pi pi' : PairIndex) :
  match_primaries file_pair_suffix idx names pi = Ok pi' →
  (∀ pf, pf ∈ names → allowed pf) → pairs_inv file_pair_suffix idx allowed pi → pairs_inv file_pair_suffix idx allowed pi'.
Proof.
  revert pi. induction names as [|pf names IH]; simpl; intros pi.
  - by intros [= <-].
  - unfold mbind, result_bind.
    destruct (match_pair file_pair_suffix idx pf pi) as [pi1|] eqn:H1; [| done].
    intros H Hal Hinv. apply (IH pi1 H).
    + intros pf' ?. apply Hal. by apply list_elem_of_further.
    + eapply match_pair_inv; eauto. apply Hal, list_elem_of_here.
Qed.

Lemma match_secondaries_inv (allowed : string → Prop) (names : list string)
    (pi pi' : PairIndex) :
  match_secondaries file_pair_suffix idx names pi = Ok pi' →
  (∀ pf, pf ∈ names → secondary_media_matched pi !! pf = None → allowed pf) →
  pairs_inv file_pair_suffix idx allowed pi → pairs_inv file_pair_suffix idx allowed pi'.
Proof.
  revert pi. induction names as [|pf names IH]; simpl; intros pi.
  - by intros [= <-].
  - destruct (secondary_media_matched pi !! pf) eqn:Hm.
    + intros H Hal Hinv. apply (IH pi H); [| done].
      intros pf' ?. apply Hal. by apply list_elem_of_further.
    + unfold mbind, result_bind.
      destruct (match_pair file_pair_suffix idx pf pi) as [pi1|] eqn:H1; [| done].
      intros H Hal Hinv.
      destruct (match_pair_inv allowed pf pi pi1 H1) as [Hinv1 Hmono]; [| done |].
      { apply Hal; [apply list_elem_of_here | done]. }
      apply (IH pi1 H); [| done].
      intros pf' ? ?. apply Hal; [by apply list_elem_of_further | by apply Hmono].
Qed.

End Pairing.

Lemma insert_by_len_elem (x y : string) (l : list string) :
  y ∈ insert_by_len x l ↔ y = x ∨ y ∈ l.
Proof.
  induction l as [|z l IH]; simpl.
  - rewrite list_elem_of_singleton, elem_of_nil. tauto.
  - destruct (PyStr.len x <? PyStr.len z)%nat; rewrite !elem_of_cons.
    + tauto.
    + rewrite IH. tauto.
Qed.

Lemma sort_by_len_elem (y : string) (l : list string) :
  y ∈ sort_by_len l ↔ y ∈ l.
Proof.
  unfold sort_by_len. induction l as [|x l IH] using rev_ind; [done |].
  rewrite fold_left_app. simpl.
  rewrite insert_by_len_elem, IH, elem_of_app, list_elem_of_singleton. tauto.
Qed.

(** C2: when the indexing of a folder succeeds, the base name of every
    primary in the pair index is a trivial primary or a candidate secondary
    that the first pass did not consume, every primary has one secondary, and
    no file is the secondary of two pairs. *)
Theorem pairing_invariant (AUDIO IMAGE : list string) (file_pair_suffix : string)
    (files : list string) (pairs : list (string * string)) :
  pair_files AUDIO IMAGE file_pair_suffix files = Ok pairs →
  let ix := index_files AUDIO IMAGE file_pair_suffix files in
  ∃ pi1,
    match_primaries file_pair_suffix (file_ending_index ix) (primary_media ix) empty_pairs
      = Ok pi1 ∧
    (∀ p s, (p, s) ∈ pairs →
       (OsPath.splitext p).1 ∈ primary_media ix ∨
       ((OsPath.splitext p).1 ∈ secondary_media ix ∧
        secondary_media_matched pi1 !! (OsPath.splitext p).1 = None)) ∧
    (∀ p s1 s2, (p, s1) ∈ pairs → (p, s2) ∈ pairs → s1 = s2) ∧
    (∀ p1 p2 s, (p1, s) ∈ pairs → (p2, s) ∈ pairs → p1 = p2).
Proof.
  intros Hrun ix. unfold pair_files in Hrun. fold ix in Hrun.
  unfold mbind, result_bind in Hrun.
  destruct (match_primaries _ _ (primary_media ix) _) as [pi1|] eqn:H1; [| done].
  destruct (match_secondaries _ _ _ pi1) as [pi2|] eqn:H2; [| done].
  injection Hrun as <-. exists pi1. split; [done |].
  destruct (index_files_inv AUDIO IMAGE file_pair_suffix files) as [_ _ Hl _].
  fold ix in Hl.
  set (allowed := fun pf : string =>
         pf ∈ primary_media ix ∨
         (pf ∈ secondary_media ix ∧ secondary_media_matched pi1 !! pf = None)).
  assert (Hinv : pairs_inv file_pair_suffix (file_ending_index ix) allowed pi2).
  { eapply match_secondaries_inv; [exact H2 | |].
    - intros pf Hpf Hm. apply (proj1 (sort_by_len_elem _ _)) in Hpf. by right.
    - eapply match_primaries_inv; [exact H1 | |].
      + intros pf Hpf. by left.
      + split; simpl; [apply NoDup_nil_2 | intros p s Hps; by apply elem_of_nil in Hps]. }
  destruct Hinv as [Hnd Hall]. split; [| split].
  - intros p s (pf & Hal & Hp & _)%Hall.
    apply Hl in Hp as (_ & _ & ->). exact Hal.
  - intros p s1 s2. by apply odict_NoDup_functional.
  - intros p1 p2 s (pf1 & _ & Hp1 & Hs1)%Hall (pf2 & _ & Hp2 & Hs2)%Hall.
    apply Hl in Hs1 as (_ & _ & Hs1). apply Hl in Hs2 as (_ & _ & Hs2).
    rewrite Hs1 in Hs2. apply str_app_inv_suffix in Hs2 as ->. congruence.
Qed.

Lemma pairing_invariant_witness :
  let files := ["image.jpg"; "image_2.jpg"; "image_2_2.jpg"; "image_2_2_2.jpg"] in
  let ix := index_files Sample.AUDIO Sample.IMAGE "_2" files in
  pair_files Sample.AUDIO Sample.IMAGE "_2" files
    = Ok [("image.jpg", "image_2.jpg"); ("image_2_2.jpg", "image_2_2_2.jpg")] ∧
  ("image_2_2" ∈ primary_media ix ∨ "image_2_2" ∈ secondary_media ix).
Proof.
  intros files ix.
  assert (Hrun : pair_files Sample.AUDIO Sample.IMAGE "_2" files
                 = Ok [("image.jpg", "image_2.jpg"); ("image_2_2.jpg", "image_2_2_2.jpg")])
    by (vm_compute; reflexivity).
  split; [exact Hrun |].
  destruct (pairing_invariant _ _ _ _ _ Hrun) as (pi1 & _ & H & _).
  destruct (H "image_2_2.jpg" "image_2_2_2.jpg") as [Hp | [Hs _]].
  - apply list_elem_of_further, list_elem_of_here.
  - left. exact Hp.
  - right. exact Hs.
Defined.





(** ** The extension actions (lines 198-201) *)

(** C3, the code at the failing input: for the file Image.JPG the Extension
    action yields [jpg], but the case-sensitive extension action yields the
    empty string and not [JPG]: line 201 splits [mediaName], the name from
    which the extension was already removed, instead of [fileName]. *)
Theorem extension_exact_is_taken_from_mediaName :
  ExtensionRun.run.2 = Returned 1 false ∧
  map (fun n => (note_fields n !! "Ext", note_fields n !! "ExtExact"))
      (created_notes ExtensionRun.run.1)
    = [(Some "jpg", Some EmptyString)] ∧
  ∀ (AUDIO IMAGE : list string) (c : Context),
    evaluate AUDIO IMAGE Actions.extension_case_sensitive c
      = Some (DStr (PyStr.drop 1 (OsPath.splitext (c_mediaName c)).2)).
Proof. split; [by vm_compute |]. split; [by vm_compute | done]. Qed.

(** ** The tag actions (lines 204-222) *)

(** C7, the code at the failing input: in folder f1/f2/f3 the hierarchical
    action gives the one tag [f1::f2::f3] and the individual action the tags
    [f1], [f2], [f3]; for a file in the import folder itself the individual
    action adds no tag, but the hierarchical action adds one tag, the empty
    string: the empty join is wrapped into a one-element list at line 220. *)
Theorem hierarchical_tag_of_root_is_empty_string :
  TagRun.tags Actions.folder_tags_hierarchical = [[EmptyString]; ["f1::f2::f3"]] ∧
  TagRun.tags Actions.folder_tags_individual = [[]; ["f1"; "f2"; "f3"]] ∧
  folder_tags [] = [] ∧
  PyStr.join "::" (folder_tags []) = EmptyString ∧
  ∀ note : Note,
    note_tags (store "Tags" true (DStr EmptyString) note)
      = note_tags note ++ [EmptyString] ∧
    note_tags (store "Tags" true (DList []) note) = note_tags note.
Proof.
  split; [by vm_compute |]. split; [by vm_compute |].
  split; [done |]. split; [done |].
  intros note. unfold store. simpl. split; [done | by rewrite app_nil_r].
Qed.

(** ** What a run adds to the host log *)

Lemma segment_stay (st : RunState) (flow : Flow) :
  flow ≠ Break → segment st st flow.
Proof.
  intros Hflow. exists []. rewrite app_nil_r. simpl.
  split_and!; [done | lia | done | by destruct flow].
Qed.

Lemma segment_trans (st st1 st2 : RunState) (flow : Flow) :
  segment st st1 Next → segment st1 st2 flow → segment st st2 flow.
Proof.
  intros (ev1 & Hl1 & Hc1 & Hp1 & Hr1) (ev2 & Hl2 & Hc2 & Hp2 & Hr2).
  exists (ev1 ++ ev2). unfold created_notes, progress_values, rejected_notes in *.
  rewrite !omap_app, length_app.
  split; [by rewrite Hl2, Hl1, app_assoc |]. split; [lia |]. split.
  - rewrite Hp1, Hp2, Hc1, seq_app. f_equal; f_equal; lia.
  - destruct flow.
    + by rewrite Hr1, Hr2.
    + destruct Hr2 as (ev' & note & -> & Hr2). exists (ev1 ++ ev'), note.
      by rewrite app_assoc, omap_app, Hr1, Hr2.
    + by rewrite Hr1, Hr2.
Qed.

Section Runs.

Variables AUDIO IMAGE : list string.
Variable add_file : list Event -> string -> string.
Variable addNote : list Event -> Note -> bool.

Lemma import_file_segment (rq : Request) (w : Walked) (pairs : list (string * string))
    (st : RunState) (item : nat * string) :
  segment st (import_file AUDIO IMAGE add_file addNote rq w pairs st item).1
             (import_file AUDIO IMAGE add_file addNote rq w pairs st item).2.
Proof.
  destruct item as [i fileName]. unfold import_file.
  destruct (is_media AUDIO IMAGE (file_ext fileName)); simpl;
    [| by apply segment_stay].
  destruct (file_pairs_used rq).
  - destruct (odict_get pairs fileName) as [secondary|]; simpl.
    + destruct (addNote _ _); simpl; rewrite <- !app_assoc; simpl.
      * eexists. split; [done |]. simpl. split; [lia | done].
      * eexists. split; [done |]. simpl. split; [lia |]. split; [done |].
        exists [AddFile (OsPath.join (w_root w) fileName);
                AddFile (OsPath.join (w_root w) secondary)].
        eexists. split; reflexivity.
    + eexists. split; [done |]. simpl. split; [lia | done].
  - simpl. destruct (addNote _ _); simpl; rewrite <- !app_assoc; simpl.
    + eexists. split; [done |]. simpl. split; [lia | done].
    + eexists. split; [done |]. simpl. split; [lia |]. split; [done |].
      exists [AddFile (OsPath.join (w_root w) fileName)].
      eexists. split; reflexivity.
Qed.

Lemma for_each_segment {A : Type} (body : RunState → A → RunState * Flow)
    (items : list A) (st : RunState) :
  (∀ st x, segment st (body st x).1 (body st x).2) →
  segment st (for_each body items st).1 (for_each body items st).2.
Proof.
  intros Hbody. revert st. induction items as [|x items IH]; intros st; simpl.
  - by apply segment_stay.
  - specialize (Hbody st x). destruct (body st x) as [st1 []]; simpl in *.
    + eapply segment_trans; [exact Hbody | apply IH].
    + done.
    + done.
Qed.

Lemma import_folder_segment (settings : gmap string Value) (rq : Request)
    (st : RunState) (w : Walked) :
  segment st (import_folder AUDIO IMAGE add_file addNote settings rq st w).1
             (import_folder AUDIO IMAGE add_file addNote settings rq st w).2.
Proof.
  unfold import_folder.
  destruct (getitem settings "secondImageSuffix"); [| by apply segment_stay].
  destruct (file_pairs_used rq).
  - destruct (pair_files_value _ _ _ _); [| by apply segment_stay].
    apply for_each_segment. apply import_file_segment.
  - apply for_each_segment. apply import_file_segment.
Qed.

Lemma walk_segment (settings : gmap string Value) (rq : Request)
    (ws : list Walked) (st : RunState) :
  segment st
    (for_each (import_folder AUDIO IMAGE add_file addNote settings rq) ws st).1
    (for_each (import_folder AUDIO IMAGE add_file addNote settings rq) ws st).2.
Proof. apply for_each_segment. apply import_folder_segment. Qed.

End Runs.

Lemma created_notes_app (l1 l2 : list Event) :
  created_notes (l1 ++ l2) = created_notes l1 ++ created_notes l2.
Proof. apply omap_app. Qed.

Lemma rejected_notes_app (l1 l2 : list Event) :
  rejected_notes (l1 ++ l2) = rejected_notes l1 ++ rejected_notes l2.
Proof. apply omap_app. Qed.

Lemma stored_media_app (l1 l2 : list Event) :
  stored_media (l1 ++ l2) = stored_media l1 ++ stored_media l2.
Proof. apply omap_app. Qed.

Lemma progress_values_app (l1 l2 : list Event) :
  progress_values (l1 ++ l2) = progress_values l1 ++ progress_values l2.
Proof. apply omap_app. Qed.

Lemma rejected_notes_elem (note : Note) (l : list Event) :
  AddNote note false ∈ l ↔ note ∈ rejected_notes l.
Proof.
  unfold rejected_notes. rewrite list_elem_of_omap. split.
  - intros H. by exists (AddNote note false).
  - intros ([| | n [] | | | | | |] & H & Hn); try discriminate Hn.
    by injection Hn as ->.
Qed.

(** C5: when the host turns a note down, the rejected call is the last one
    the import makes before it closes the progress bar and shows the count and
    the failure dialog: no further file is stored and no further note is
    attempted; the notes created and the files stored before stay as they
    are, and the run returns with the failure flag and the number of notes
    created before the failure. *)
Theorem record_creation_failure_aborts (AUDIO IMAGE : list string)
    (add_file : list Event → string → string) (addNote : list Event → Note → bool)
    (settings : gmap string Value) (rq : Request) (t : Tree) (note : Note) :
  let run := run_import AUDIO IMAGE add_file addNote settings rq t in
  AddNote note false ∈ run.1 →
  ∃ before n,
    run.1 = before ++ [AddNote note false; ProgressFinish; Tooltip n;
                       DeckBrowserRefresh; ShowFailureDialog] ∧
    rejected_notes before = [] ∧
    n = length (created_notes before) ∧
    run.2 = Returned n true ∧
    created_notes run.1 = created_notes before ∧
    stored_media run.1 = stored_media before.
Proof.
  intros run. subst run. unfold run_import.
  pose proof (walk_segment AUDIO IMAGE add_file addNote settings rq
                (walk (recursive rq) (path rq) [] t)
                {| log := [ProgressStart (fileCount rq t)]; newCount := 0 |}) as Hseg.
  destruct (for_each _ _ _) as [st flow].
  destruct Hseg as (ev & Hl & Hc & Hp & Hr). cbn [fst snd log newCount] in *.
  destruct flow; simpl; rewrite Hl; intros Hin%rejected_notes_elem.
  - exfalso. revert Hin. rewrite !rejected_notes_app, Hr. simpl. by intros ?%elem_of_nil.
  - destruct Hr as (ev' & note' & -> & Hr). revert Hin.
    rewrite !rejected_notes_app, Hr. simpl. intros ->%list_elem_of_singleton.
    exists ([ProgressStart (fileCount rq t)] ++ ev'), (newCount st).
    rewrite created_notes_app, length_app in Hc. simpl in Hc.
    rewrite !created_notes_app, !stored_media_app, !rejected_notes_app, Hr.
    simpl. rewrite !app_nil_r.
    split_and!; [by rewrite <- !app_assoc | done | lia | done | done | done].
  - exfalso. revert Hin. rewrite !rejected_notes_app, Hr. simpl. by intros ?%elem_of_nil.
Qed.

Lemma record_creation_failure_aborts_witness :
  AbortRun.run.2 = Returned 1 true ∧
  stored_media AbortRun.run.1 = ["root/a.jpg"; "root/b.jpg"] ∧
  length (created_notes AbortRun.run.1) = 1.
Proof.
  destruct (record_creation_failure_aborts Sample.AUDIO Sample.IMAGE
              Sample.add_file AbortRun.strict Sample.suffix_2
              AbortRun.request AbortRun.tree AbortRun.rejected)
    as (before & n & Hlog & _ & Hn & Hout & Hnotes & Hmedia).
  - vm_compute. do 5 apply list_elem_of_further. apply list_elem_of_here.
  - split; [by vm_compute |]. split; by vm_compute.
Defined.

(** ** The place of the progress values in the calls *)

Lemma app_eq_cons_inv {A : Type} (a b before after : list A) (x : A) :
  a ++ b = before ++ x :: after →
  (∃ rest, a = before ++ x :: rest ∧ after = rest ++ b) ∨
  (∃ rest, before = a ++ rest ∧ b = rest ++ x :: after).
Proof.
  revert before. induction a as [|y a IH]; intros before Heq; simpl in Heq.
  - right. by exists before.
  - destruct before as [|z before]; simpl in Heq.
    + injection Heq as -> <-. left. by exists a.
    + injection Heq as -> Heq. destruct (IH _ Heq) as [(rest & -> & ->) | (rest & -> & ->)].
      * left. by exists rest.
      * right. by exists rest.
Qed.

Lemma paced_app (count : nat) (a b : list Event) :
  paced count a → paced (count + length (created_notes a)) b → paced count (a ++ b).
Proof.
  intros [Ha1 Ha2] [Hb1 Hb2]. split.
  - intros before note after [(rest & -> & ->) | (rest & -> & ->)]%app_eq_cons_inv.
    + destruct (Ha1 _ _ _ eq_refl) as (after' & ->). by eexists.
    + destruct (Hb1 _ _ _ eq_refl) as (after' & ->). exists after'.
      rewrite created_notes_app, length_app. do 2 f_equal. lia.
  - intros before value after [(rest & -> & ->) | (rest & -> & ->)]%app_eq_cons_inv.
    + by apply (Ha2 _ _ _ eq_refl).
    + destruct (Hb2 _ _ _ eq_refl) as (before' & note & ->).
      exists (a ++ before'), note. by rewrite app_assoc.
Qed.

Lemma paced_quiet (count : nat) (l : list Event) :
  (∀ e, e ∈ l → (∀ note, e ≠ AddNote note true) ∧ (∀ value, e ≠ ProgressUpdate value)) →
  paced count l.
Proof.
  intros Hq. split.
  - intros before note after ->. destruct (Hq (AddNote note true)) as [H _].
    + apply elem_of_app. right. apply list_elem_of_here.
    + by destruct (H note).
  - intros before value after ->. destruct (Hq (ProgressUpdate value)) as [_ H].
    + apply elem_of_app. right. apply list_elem_of_here.
    + by destruct (H value).
Qed.

Lemma paced_created (count : nat) (note : Note) :
  paced count [AddNote note true; ProgressUpdate (S count)].
Proof.
  split.
  - intros [|e1 [|e2 [|e3 before]]] n after Heq; simplify_eq/=.
    exists []. by rewrite Nat.add_0_r.
  - intros [|e1 [|e2 [|e3 before]]] v after Heq; simplify_eq/=.
    by exists [], note.
Qed.

Lemma paced_part_stay (st : RunState) : paced_part st st.
Proof.
  exists []. rewrite app_nil_r. split_and!; [done | simpl; lia |].
  apply paced_quiet. by intros e ?%elem_of_nil.
Qed.

Lemma paced_part_trans (st st1 st2 : RunState) :
  paced_part st st1 → paced_part st1 st2 → paced_part st st2.
Proof.
  intros (ev1 & Hl1 & Hc1 & Hp1) (ev2 & Hl2 & Hc2 & Hp2).
  exists (ev1 ++ ev2). split_and!.
  - by rewrite Hl2, Hl1, app_assoc.
  - rewrite created_notes_app, length_app. lia.
  - apply paced_app; [done |]. by rewrite <- Hc1.
Qed.

Lemma for_each_paced {A : Type} (body : RunState → A → RunState * Flow)
    (items : list A) (st : RunState) :
  (∀ st x, paced_part st (body st x).1) →
  paced_part st (for_each body items st).1.
Proof.
  intros Hbody. revert st. induction items as [|x items IH]; intros st; simpl.
  - apply paced_part_stay.
  - pose proof (Hbody st x) as Hx. destruct (body st x) as [st1 []]; simpl in *.
    + eapply paced_part_trans; [exact Hx | apply IH].
    + done.
    + done.
Qed.

Section Paced.

Variables AUDIO IMAGE : list string.
Variable add_file : list Event -> string -> string.
Variable addNote : list Event -> Note -> bool.

Lemma import_file_paced (rq : Request) (w : Walked) (pairs : list (string * string))
    (st : RunState) (item : nat * string) :
  paced_part st (import_file AUDIO IMAGE add_file addNote rq w pairs st item).1.
Proof.
  assert (Hquiet : ∀ l, (∀ e, e ∈ l → ∃ p, e = AddFile p) →
            paced (newCount st) l ∧ created_notes l = []).
  { intros l Hl. split.
    - apply paced_quiet. intros e (p & ->)%Hl. done.
    - induction l as [|e l IH]; [done |].
      destruct (Hl e) as (p & ->); [apply list_elem_of_here |]. simpl.
      apply IH. intros e He. apply Hl. by apply list_elem_of_further. }
  assert (Hend : ∀ l note (created : bool), (∀ e, e ∈ l → ∃ p, e = AddFile p) →
            let ev := l ++ (if created
                            then [AddNote note true; ProgressUpdate (S (newCount st))]
                            else [AddNote note false]) in
            paced (newCount st) ev ∧
            length (created_notes ev) = (if created then 1 else 0)).
  { intros l note created Hl. destruct (Hquiet l Hl) as [Hp Hc]. cbv zeta. split.
    - apply paced_app; [done |]. rewrite Hc, Nat.add_0_r.
      destruct created; [apply paced_created |].
      apply paced_quiet. intros e ->%list_elem_of_singleton. done.
    - rewrite created_notes_app, Hc. by destruct created. }
  destruct item as [i fileName]. unfold import_file.
  destruct (is_media AUDIO IMAGE (file_ext fileName)); simpl; [| apply paced_part_stay].
  set (p := OsPath.join (w_root w) fileName).
  destruct (file_pairs_used rq).
  - destruct (odict_get pairs fileName) as [secondary|]; simpl.
    + set (p2 := OsPath.join (w_root w) secondary).
      set (note := fill_note _ _ _ _).
      destruct (Hend [AddFile p; AddFile p2] note
                  (addNote ((log st ++ [AddFile p]) ++ [AddFile p2]) note)) as [Hp Hc].
      { intros e [-> | [-> | []%elem_of_nil]%elem_of_cons]%elem_of_cons; by eexists. }
      destruct (addNote _ _); simpl in *;
        (eexists; split_and!; [by rewrite <- !app_assoc | | exact Hp]); simpl; lia.
    + exists [AddFile p]. simpl. split_and!; [done | lia |].
      apply Hquiet. intros e ->%list_elem_of_singleton. by eexists.
  - simpl. set (note := fill_note _ _ _ _).
    destruct (Hend [AddFile p] note (addNote (log st ++ [AddFile p]) note)) as [Hp Hc].
    { intros e ->%list_elem_of_singleton. by eexists. }
    destruct (addNote _ _); simpl in *;
      (eexists; split_and!; [by rewrite <- !app_assoc | | exact Hp]); simpl; lia.
Qed.

Lemma import_folder_paced (settings : gmap string Value) (rq : Request)
    (st : RunState) (w : Walked) :
  paced_part st (import_folder AUDIO IMAGE add_file addNote settings rq st w).1.
Proof.
  unfold import_folder.
  destruct (getitem settings "secondImageSuffix"); [| apply paced_part_stay].
  destruct (file_pairs_used rq).
  - destruct (pair_files_value _ _ _ _); [| apply paced_part_stay].
    apply for_each_paced. apply import_file_paced.
  - apply for_each_paced. apply import_file_paced.
Qed.

Lemma run_import_paced (settings : gmap string Value) (rq : Request) (t : Tree) :
  paced 0 (run_import AUDIO IMAGE add_file addNote settings rq t).1.
Proof.
  unfold run_import.
  destruct (for_each_paced (import_folder AUDIO IMAGE add_file addNote settings rq)
              (walk (recursive rq) (path rq) [] t)
              {| log := [ProgressStart (fileCount rq t)]; newCount := 0 |})
    as (ev & Hl & Hc & Hp); [apply import_folder_paced |].
  assert (Hbody : paced 0 ([ProgressStart (fileCount rq t)] ++ ev)).
  { apply paced_app; [| exact Hp].
    apply paced_quiet. intros e ->%list_elem_of_singleton. done. }
  destruct (for_each _ _ _) as [st flow]. cbn [fst log newCount] in *.
  rewrite Hl. destruct flow; cbn [fst]; try exact Hbody.
  - apply paced_app; [exact Hbody |]. apply paced_quiet. intros e He.
    repeat (apply elem_of_cons in He as [-> | He]; [done |]). by apply elem_of_nil in He.
  - apply paced_app; [exact Hbody |]. apply paced_quiet. intros e He.
    repeat (apply elem_of_cons in He as [-> | He]; [done |]). by apply elem_of_nil in He.
Qed.

End Paced.

(** C6 (amended): one progress value is reported for every note the host
    created, directly after the call that created the note, and it is the
    number of notes created so far; no other progress value is reported, so
    the values are 1, 2, ... up to the number of notes created, hence
    increasing. A file that is excluded changes nothing and reports nothing,
    and a note that the host turns down is followed by no progress value. *)
Theorem progress_counts_created_notes (AUDIO IMAGE : list string)
    (add_file : list Event → string → string) (addNote : list Event → Note → bool)
    (settings : gmap string Value) (rq : Request) (t : Tree) :
  let run := run_import AUDIO IMAGE add_file addNote settings rq t in
  progress_values run.1 = seq 1 (length (created_notes run.1)) ∧
  (∀ before note after, run.1 = before ++ AddNote note true :: after →
     ∃ after', after = ProgressUpdate (S (length (created_notes before))) :: after') ∧
  (∀ before value after, run.1 = before ++ ProgressUpdate value :: after →
     ∃ before' note, before = before' ++ [AddNote note true]) ∧
  (∀ n failure, run.2 = Returned n failure → n = length (created_notes run.1)) ∧
  ∀ (w : Walked) (pairs : list (string * string)) (st : RunState) (i : nat)
    (fileName : string),
    is_media AUDIO IMAGE (file_ext fileName) = false →
    import_file AUDIO IMAGE add_file addNote rq w pairs st (i, fileName) = (st, Next).
Proof.
  intros run.
  destruct (run_import_paced AUDIO IMAGE add_file addNote settings rq t)
    as [Hafter Hbefore].
  fold run in Hafter, Hbefore. revert Hafter Hbefore.
  subst run. unfold run_import.
  pose proof (walk_segment AUDIO IMAGE add_file addNote settings rq
                (walk (recursive rq) (path rq) [] t)
                {| log := [ProgressStart (fileCount rq t)]; newCount := 0 |}) as Hseg.
  destruct (for_each _ _ _) as [st flow].
  destruct Hseg as (ev & Hl & Hc & Hp & _). cbn [fst snd log newCount] in *.
  intros Hafter Hbefore. split_and!.
  - destruct flow; simpl; rewrite Hl, ?progress_values_app, ?created_notes_app; simpl;
      rewrite ?app_nil_r; exact Hp.
  - exact Hafter.
  - exact Hbefore.
  - intros n failure.
    destruct flow; simpl; [| | done]; intros [= <- _];
      rewrite Hl, ?created_notes_app; simpl; rewrite ?app_nil_r; lia.
  - intros w pairs st' i fileName Hm. unfold import_file. by rewrite Hm.
Qed.

Lemma progress_counts_created_notes_witness :
  (∃ after', drop 3 MixedFolder.run.1 = ProgressUpdate 1 :: after') ∧
  import_file Sample.AUDIO Sample.IMAGE Sample.add_file Sample.addNote
    MixedFolder.request {| w_root := "root"; w_rel := []; w_files := ["notes.txt"] |} []
    {| log := []; newCount := 0 |} (0, "notes.txt")
  = ({| log := []; newCount := 0 |}, Next).
Proof.
  destruct (progress_counts_created_notes Sample.AUDIO Sample.IMAGE Sample.add_file
              Sample.addNote Sample.suffix_2 MixedFolder.request MixedFolder.tree)
    as (_ & Hafter & _ & _ & H).
  split.
  - eapply (Hafter (take 2 MixedFolder.run.1) _ (drop 3 MixedFolder.run.1)).
    vm_compute. reflexivity.
  - apply H. reflexivity.
Defined.

(** C6 as stated fails: the run visits three files, one of them excluded, and
    reports two progress values; none is reported for notes.txt. *)
Lemma excluded_file_reports_no_progress :
  fileCount MixedFolder.request MixedFolder.tree = 3 ∧
  MixedFolder.run.2 = Returned 2 false ∧
  progress_values MixedFolder.run.1 = [1; 2].
Proof. by vm_compute. Qed.

(** ** Steps of the loops *)

Section LoopSteps.

Variables AUDIO IMAGE : list string.
Variable add_file : list Event -> string -> string.
Variable addNote : list Event -> Note -> bool.

Lemma for_each_cons {A : Type} (body : RunState → A → RunState * Flow)
    (x : A) (items : list A) (st : RunState) :
  for_each body (x :: items) st
    = match body st x with
      | (st', Next) => for_each body items st'
      | stop => stop
      end.
Proof. reflexivity. Qed.

Lemma zip_seq_cons (k : nat) (f : string) (files : list string) :
  zip (seq k (length (f :: files))) (f :: files)
    = (k, f) :: zip (seq (S k) (length files)) files.
Proof. reflexivity. Qed.

Lemma import_file_excluded (rq : Request) (w : Walked) (pairs : list (string * string))
    (st : RunState) (i : nat) (f : string) :
  is_media AUDIO IMAGE (file_ext f) = false →
  import_file AUDIO IMAGE add_file addNote rq w pairs st (i, f) = (st, Next).
Proof. intros Hm. unfold import_file. by rewrite Hm. Qed.

End LoopSteps.

(** ** The Sequence action (lines 159-167, 202-203) *)

Section Sequence.

Variables AUDIO IMAGE : list string.
Variable add_file : list Event -> string -> string.
Variable addNote : list Event -> Note -> bool.

Lemma fold_apply_mapping_other (c : Context) (l : list (string * string * bool))
    (note : Note) (field : string) :
  field ∉ map (fun m => m.1.1) l →
  note_fields (fold_left (apply_mapping AUDIO IMAGE c) l note) !! field
    = note_fields note !! field.
Proof.
  revert note. induction l as [|[[f a] s] l IH]; intros note Hnot; simpl; [done |].
  simpl in Hnot. apply not_elem_of_cons in Hnot as [Hne Hnot].
  rewrite IH by done. unfold apply_mapping.
  destruct (evaluate AUDIO IMAGE a c) as [data|]; [| done].
  unfold store. destruct (s && String.eqb f "Tags"); simpl; [done |].
  by rewrite lookup_insert_ne.
Qed.

Lemma fold_apply_mapping_sequence (c : Context) (l : list (string * string * bool))
    (note : Note) (field : string) :
  (field, Actions.sequence, false) ∈ l →
  NoDup (map (fun m => m.1.1) l) →
  note_fields (fold_left (apply_mapping AUDIO IMAGE c) l note) !! field
    = Some (PyStr.str (c_i c)).
Proof.
  revert note. induction l as [|m l IH]; intros note Hin Hnd; simpl.
  - by apply elem_of_nil in Hin.
  - simpl in Hnd. apply NoDup_cons in Hnd as [Hm Hnd].
    apply elem_of_cons in Hin as [<- | Hin].
    + rewrite fold_apply_mapping_other by done. simpl. apply lookup_insert_eq.
    + by apply IH.
Qed.

Lemma for_each_sequence (rq : Request) (w : Walked) (pairs : list (string * string))
    (field : string) (files : list string) (k : nat) (st : RunState) :
  (file_pairs_used rq = true → ∀ f, f ∈ files →
     is_media AUDIO IMAGE (file_ext f) = true → is_Some (odict_get pairs f)) →
  (field, Actions.sequence, false) ∈ fieldList rq →
  NoDup (map (fun m => m.1.1) (fieldList rq)) →
  ∃ st' flow ev,
    for_each (import_file AUDIO IMAGE add_file addNote rq w pairs)
      (zip (seq k (length files)) files) st = (st', flow) ∧
    log st' = log st ++ ev ∧
    map (fun n => note_fields n !! field) (created_notes ev)
      = map (fun i => Some (PyStr.str i))
          (take (length (created_notes ev))
             (map fst (List.filter (fun x => is_media AUDIO IMAGE (file_ext x.2))
                         (zip (seq k (length files)) files)))) ∧
    (flow = Next →
     length (created_notes ev)
       = length (List.filter (fun x => is_media AUDIO IMAGE (file_ext x.2))
                   (zip (seq k (length files)) files))).
Proof.
  intros Hpairs Hin Hnd. revert k st.
  induction files as [|f files IH]; intros k st.
  - exists st, Next, []. by rewrite app_nil_r.
  - assert (Hrest : file_pairs_used rq = true → ∀ g, g ∈ files →
              is_media AUDIO IMAGE (file_ext g) = true → is_Some (odict_get pairs g)).
    { intros Hu g Hg. apply Hpairs; [done | by apply list_elem_of_further]. }
    rewrite zip_seq_cons, for_each_cons. cbn [List.filter snd].
    destruct (is_media AUDIO IMAGE (file_ext f)) eqn:Hm.
    2: { rewrite import_file_excluded by done. apply (IH Hrest). }
    assert (Hstep : ∃ ev2 note,
              created_notes ev2 = [] ∧
              note_fields note !! field = Some (PyStr.str k) ∧
              import_file AUDIO IMAGE add_file addNote rq w pairs st (k, f)
                = if addNote (log st ++ ev2) note
                  then ({| log := log st ++ ev2 ++ [AddNote note true;
                                                     ProgressUpdate (S (newCount st))];
                           newCount := S (newCount st) |}, Next)
                  else ({| log := log st ++ ev2 ++ [AddNote note false];
                           newCount := newCount st |}, Break)).
    { unfold import_file. rewrite Hm. cbn [negb].
      destruct (file_pairs_used rq) eqn:Hu.
      - destruct (Hpairs eq_refl f) as [secondary ->]; [apply list_elem_of_here | done |].
        eexists [AddFile _; AddFile _]. eexists. split; [done |]. split; last first.
        { cbv zeta. rewrite <- !app_assoc. simpl. reflexivity. }
        by apply fold_apply_mapping_sequence.
      - eexists [AddFile _]. eexists. split; [done |]. split; last first.
        { cbv zeta. rewrite <- !app_assoc. simpl. reflexivity. }
        by apply fold_apply_mapping_sequence. }
    destruct Hstep as (ev2 & note & Hev2 & Hfield & ->).
    destruct (addNote (log st ++ ev2) note).
    + destruct (IH Hrest (S k)
                  {| log := log st ++ ev2 ++ [AddNote note true;
                                               ProgressUpdate (S (newCount st))];
                     newCount := S (newCount st) |})
        as (st' & flow & ev & Hrun & Hlog & Hseq & Hlen).
      exists st', flow, (ev2 ++ [AddNote note true; ProgressUpdate (S (newCount st))] ++ ev).
      split; [exact Hrun |]. split.
      * rewrite Hlog. cbn [log]. by rewrite <- !app_assoc.
      * rewrite !created_notes_app, Hev2. simpl. rewrite Hseq, Hfield. split; [done |].
        intros Hflow. by rewrite Hlen.
    + eexists _, Break, (ev2 ++ [AddNote note false]). split; [done |].
      split; [done |]. rewrite created_notes_app, Hev2. simpl. done.
Qed.

End Sequence.

Lemma pair_files_keys (AUDIO IMAGE : list string) (file_pair_suffix : string)
    (files : list string) (pairs : list (string * string)) :
  pair_files AUDIO IMAGE file_pair_suffix files = Ok pairs →
  ∀ p, p ∈ odict_keys pairs → is_media AUDIO IMAGE (file_ext p) = true.
Proof.
  unfold pair_files, mbind, result_bind.
  set (ix := index_files AUDIO IMAGE file_pair_suffix files).
  destruct (match_primaries _ _ (primary_media ix) _) as [pi1|] eqn:H1; [| done].
  destruct (match_secondaries _ _ _ pi1) as [pi2|] eqn:H2; [| done].
  intros [= <-] p Hp.
  assert (Hinv : pairs_inv file_pair_suffix (file_ending_index ix) (fun _ => True) pi2).
  { eapply match_secondaries_inv; [exact H2 | done |].
    eapply match_primaries_inv; [exact H1 | done |].
    split; simpl; [apply NoDup_nil_2 | intros q s Hqs; by apply elem_of_nil in Hqs]. }
  unfold odict_keys in Hp. apply list_elem_of_fmap in Hp as ([q s] & -> & Hqs).
  apply Hinv in Hqs as (pf & _ & Hq & _).
  destruct (index_files_inv AUDIO IMAGE file_pair_suffix files) as [_ _ Hl _].
  by apply Hl in Hq as (_ & Hm & _).
Qed.

(** C4 (code bug): with pairing disabled the Sequence action counts the
    excluded files of the directory listing. Whatever the host does, the
    notes created in a folder carry, in the order of their creation, the
    decimal strings of the positions that the media files have in the whole
    listing, all of them when the loop over the folder is not left early. With
    pairing enabled the positions are those in the list of primaries, so that
    the values are 0, 1, 2, ... without gaps. For the listing a.jpg,
    notes.txt, b.jpg and no pairing the two notes get the values 0 and 2,
    where the claim, like the tooltip of the action, has 0 and 1. *)
Theorem sequence_counts_excluded_files :
  (∀ (AUDIO IMAGE : list string) (add_file : list Event → string → string)
     (addNote : list Event → Note → bool) (settings : gmap string Value)
     (rq : Request) (st : RunState) (w : Walked) (field : string)
     (file_pair_suffix : Value),
     settings !! "secondImageSuffix" = Some file_pair_suffix →
     (field, Actions.sequence, false) ∈ fieldList rq →
     NoDup (map (fun m => m.1.1) (fieldList rq)) →
     (file_pairs_used rq = false →
      ∃ st' flow ev,
        import_folder AUDIO IMAGE add_file addNote settings rq st w = (st', flow) ∧
        log st' = log st ++ ev ∧
        map (fun n => note_fields n !! field) (created_notes ev)
          = map (fun i => Some (PyStr.str i))
              (take (length (created_notes ev))
                 (media_positions AUDIO IMAGE (w_files w))) ∧
        (flow = Next →
         length (created_notes ev)
           = length (media_positions AUDIO IMAGE (w_files w)))) ∧
     (file_pairs_used rq = true →
      ∀ pairs, pair_files_value AUDIO IMAGE file_pair_suffix (w_files w) = Ok pairs →
      ∃ st' flow ev,
        import_folder AUDIO IMAGE add_file addNote settings rq st w = (st', flow) ∧
        log st' = log st ++ ev ∧
        map (fun n => note_fields n !! field) (created_notes ev)
          = map (fun i => Some (PyStr.str i)) (seq 0 (length (created_notes ev))) ∧
        (flow = Next → length (created_notes ev) = length pairs))) ∧
  (file_pairs_used MixedFolder.request = false ∧
   MixedFolder.run.2 = Returned 2 false ∧
   map (fun n => note_fields n !! "Back") (created_notes MixedFolder.run.1)
     = [Some "0"; Some "2"]).
Proof.
  split; [| by vm_compute].
  intros AUDIO IMAGE add_file addNote settings rq st w field file_pair_suffix
    Hsuffix Hin Hnd.
  unfold import_folder, getitem. rewrite Hsuffix. split.
  - intros Hu. rewrite Hu.
    destruct (for_each_sequence AUDIO IMAGE add_file addNote rq w [] field (w_files w)
                0 st) as (st' & flow & ev & Hrun & Hlog & Hseq & Hlen); try done.
    { intros Hu'. congruence. }
    exists st', flow, ev. split; [exact Hrun |]. split; [exact Hlog |].
    unfold media_positions, enumerate. split; [exact Hseq |].
    intros Hflow. rewrite length_map. by apply Hlen.
  - intros Hu pairs Hpairs. rewrite Hu, Hpairs.
    assert (Hmedia : ∀ p, p ∈ odict_keys pairs →
              is_media AUDIO IMAGE (file_ext p) = true).
    { destruct file_pair_suffix as [s| |]; simpl in Hpairs.
      - by apply (pair_files_keys AUDIO IMAGE s (w_files w)).
      - destruct (existsb _ _); [done |]. injection Hpairs as <-.
        intros p Hp. by apply elem_of_nil in Hp.
      - destruct (existsb _ _); [done |]. injection Hpairs as <-.
        intros p Hp. by apply elem_of_nil in Hp. }
    destruct (for_each_sequence AUDIO IMAGE add_file addNote rq w pairs field
                (odict_keys pairs) 0 st) as (st' & flow & ev & Hrun & Hlog & Hseq & Hlen);
      try done.
    { intros _ f Hf _. by apply odict_get_key. }
    exists st', flow, ev. split; [exact Hrun |]. split; [exact Hlog |].
    assert (Hall : List.filter (fun x => is_media AUDIO IMAGE (file_ext x.2))
                     (zip (seq 0 (length (odict_keys pairs))) (odict_keys pairs))
                   = zip (seq 0 (length (odict_keys pairs))) (odict_keys pairs)).
    { generalize 0. revert Hmedia. generalize (odict_keys pairs). clear.
      intros files Hmedia. induction files as [|f files IH]; intros k; [done |].
      cbn [length seq zip zip_with List.filter snd].
      rewrite (Hmedia f) by apply list_elem_of_here. f_equal.
      apply IH. intros p Hp. by apply Hmedia, list_elem_of_further. }
    rewrite Hall in Hseq, Hlen.
    assert (Hkeys : length (zip (seq 0 (length (odict_keys pairs))) (odict_keys pairs))
                    = length pairs).
    { rewrite length_zip_with_l_eq by (by rewrite length_seq).
      rewrite length_seq. unfold odict_keys. by rewrite length_map. }
    assert (Hfst : map fst (zip (seq 0 (length (odict_keys pairs))) (odict_keys pairs))
                   = seq 0 (length (odict_keys pairs))).
    { apply fst_zip. by rewrite length_seq. }
    rewrite Hfst in Hseq. split.
    + rewrite Hseq. f_equal. rewrite take_seq. f_equal.
      apply (f_equal length) in Hseq.
      rewrite !length_map, length_take, length_seq in Hseq. lia.
    + intros Hflow. rewrite Hlen by done. exact Hkeys.
Qed.

Lemma sequence_counts_excluded_files_witness :
  ∃ st' flow ev,
    import_folder Sample.AUDIO Sample.IMAGE Sample.add_file Sample.addNote
      Sample.suffix_2 MixedFolder.request {| log := []; newCount := 0 |}
      {| w_root := "root"; w_rel := []; w_files := ["a.jpg"; "notes.txt"; "b.jpg"] |}
      = (st', flow) ∧
    log st' = [] ++ ev ∧
    map (fun n => note_fields n !! "Back") (created_notes ev)
      = map (fun i => Some (PyStr.str i))
          (take (length (created_notes ev))
             (media_positions Sample.AUDIO Sample.IMAGE ["a.jpg"; "notes.txt"; "b.jpg"])) ∧
    (flow = Next →
     length (created_notes ev)
       = length (media_positions Sample.AUDIO Sample.IMAGE
                   ["a.jpg"; "notes.txt"; "b.jpg"])).
Proof.
  destruct sequence_counts_excluded_files as [H _].
  destruct (H Sample.AUDIO Sample.IMAGE Sample.add_file Sample.addNote
              Sample.suffix_2 MixedFolder.request {| log := []; newCount := 0 |}
              {| w_root := "root"; w_rel := []; w_files := ["a.jpg"; "notes.txt"; "b.jpg"] |}
              "Back" (VStr "_2")) as [Hplain _].
  - reflexivity.
  - apply list_elem_of_further, list_elem_of_here.
  - apply (bool_decide_unpack _). vm_compute. exact I.
  - apply Hplain. reflexivity.
Defined.

(** ** The settings (src/settings.py) *)

Section SettingsFacts.

Variable home : string.

Lemma select_keys_lookup (settings : gmap string Value) (keys : list string)
    (m : gmap string Value) :
  Settings.select_keys settings keys = Ok m →
  ∀ k, m !! k = if decide (k ∈ keys) then settings !! k else None.
Proof.
  revert m. induction keys as [|key keys IH]; intros m Hm k; simpl in Hm.
  - injection Hm as <-. rewrite lookup_empty.
    destruct (decide (k ∈ [])) as [Hk | Hk]; [| done].
    by apply elem_of_nil in Hk.
  - unfold getitem, mbind, result_bind in Hm.
    destruct (settings !! key) as [v|] eqn:Hv; [| done].
    destruct (Settings.select_keys settings keys) as [rest|]; [| done].
    injection Hm as <-. specialize (IH rest eq_refl).
    destruct (decide (key = k)) as [<- | Hne].
    + rewrite lookup_insert_eq.
      destruct (decide (key ∈ key :: keys)) as [Hk | Hk]; [done |].
      destruct Hk. apply list_elem_of_here.
    + rewrite lookup_insert_ne, IH by done.
      destruct (decide (k ∈ keys)) as [Hk | Hk];
        destruct (decide (k ∈ key :: keys)) as [Hk' | Hk']; try done.
      * destruct Hk'. by apply list_elem_of_further.
      * apply elem_of_cons in Hk' as [? | ?]; [congruence | done].
Qed.

Lemma select_keys_present (settings : gmap string Value) (keys : list string) :
  (∀ k, k ∈ keys → is_Some (settings !! k)) →
  ∃ m, Settings.select_keys settings keys = Ok m.
Proof.
  induction keys as [|key keys IH]; simpl; intros Hall; [by eexists |].
  unfold getitem, mbind, result_bind.
  destruct (Hall key) as [v ->]; [apply list_elem_of_here |].
  destruct IH as [rest ->]; [| by eexists].
  intros k ?. apply Hall. by apply list_elem_of_further.
Qed.

Lemma asdict_lookup_None (fields : list (string * Value)) (k : string) :
  Settings.asdict fields !! k = None ↔ k ∉ map fst fields.
Proof.
  unfold Settings.asdict. rewrite <- not_elem_of_list_to_map. done.
Qed.

(** What a reload sees after a save: the saved value of every key of the
    settings, and the transient default of a key the settings lack. *)
Lemma merged_after_save (settings : gmap string Value) (d d' : Settings.Disk) :
  Settings.saveSettings settings d = Ok d' →
  ∀ k, Settings.mergedSettings home d' !! k =
       match settings !! k with
       | Some v => Some v
       | None => Settings.asdict (Settings.TransientSettings home) !! k
       end.
Proof.
  unfold Settings.saveSettings, mbind, result_bind.
  destruct (Settings.select_keys settings (map fst Settings.DefaultSettings))
    as [userSettings|] eqn:Huser; [| done].
  intros [= <-] k. unfold Settings.mergedSettings, Settings.merge4.
  cbn [Settings.transient_file Settings.addon_config from_option id].
  pose proof (select_keys_lookup _ _ _ Huser k) as Hk.
  destruct (decide (k ∈ map fst Settings.DefaultSettings)) as [Hin | Hnot].
  - assert (is_Some (settings !! k)) as [v Hv].
    { clear Hk. revert userSettings Huser.
      induction (map fst Settings.DefaultSettings) as [|key keys IH]; simpl.
      - by apply elem_of_nil in Hin.
      - unfold getitem, mbind, result_bind. intros userSettings.
        destruct (settings !! key) as [v|] eqn:Hv; [| done].
        destruct (Settings.select_keys settings keys) as [rest|]; [| done].
        intros _. apply elem_of_cons in Hin as [-> | Hin]; [by eexists |].
        by apply (IH Hin rest). }
    rewrite Hv in *. by apply lookup_union_Some_l.
  - rewrite lookup_union_r by done.
    destruct (settings !! k) as [v|] eqn:Hv.
    + apply lookup_union_Some_l. apply map_lookup_filter_Some. split; [exact Hv |].
      apply (proj2 (asdict_lookup_None Settings.DefaultSettings k)). exact Hnot.
    + rewrite lookup_union_r.
      * rewrite lookup_union_r; [done |].
        apply (proj2 (asdict_lookup_None Settings.DefaultSettings k)). exact Hnot.
      * apply map_lookup_filter_None. left. exact Hv.
Qed.

Lemma merged_lookup_None (d : Settings.Disk) (k : string) :
  Settings.mergedSettings home d !! k = None →
  Settings.asdict (Settings.TransientSettings home) !! k = None ∧
  Settings.asdict Settings.DefaultSettings !! k = None.
Proof.
  unfold Settings.mergedSettings, Settings.merge4.
  rewrite !lookup_union_None. tauto.
Qed.

Lemma merged_keeps_defaults (d : Settings.Disk) (k : string) :
  k ∈ map fst Settings.DefaultSettings →
  is_Some (Settings.mergedSettings home d !! k).
Proof.
  intros Hk. apply not_eq_None_Some. intros [_ H]%merged_lookup_None.
  by apply asdict_lookup_None in H.
Qed.

End SettingsFacts.

(** C9: a save followed by a reload gives back every value of the settings,
    the field mappings and the flags among them, and the whole dictionary when
    it has the five default keys; merging the merged document with the
    defaults again changes nothing. The save needs the keys of
    [DefaultSettings], which [initializeSettings] provides. *)
Theorem settings_round_trip (home : string) (settings : gmap string Value)
    (d : Settings.Disk) :
  (∀ k, k ∈ map fst Settings.DefaultSettings → is_Some (settings !! k)) →
  (∃ d', Settings.saveSettings settings d = Ok d' ∧
     (∀ k v, settings !! k = Some v →
        Settings.initializeSettings home d' ∅ !! k = Some v) ∧
     ((∀ k, k ∈ map fst (Settings.TransientSettings home) → is_Some (settings !! k)) →
      ∀ settings0, settings0 ⊆ settings →
        Settings.initializeSettings home d' settings0 = settings)) ∧
  (let merged := Settings.mergedSettings home d in
   Settings.mergedSettings home
     {| Settings.transient_file := Some merged; Settings.addon_config := ∅ |} = merged ∧
   ∃ d', Settings.saveSettings merged d = Ok d' ∧
         Settings.mergedSettings home d' = merged) ∧
  (∀ settings0 k, k ∈ map fst Settings.DefaultSettings →
     is_Some (Settings.initializeSettings home d settings0 !! k)).
Proof.
  intros Hkeys. split; [| split].
  - destruct (select_keys_present settings (map fst Settings.DefaultSettings) Hkeys)
      as [userSettings Huser].
    assert (Hsave : ∃ d', Settings.saveSettings settings d = Ok d').
    { unfold Settings.saveSettings, mbind, result_bind. rewrite Huser. by eexists. }
    destruct Hsave as [d' Hsave]. exists d'. split; [done |].
    pose proof (merged_after_save home settings d d' Hsave) as Hlookup. split.
    + intros k v Hv. unfold Settings.initializeSettings.
      apply lookup_union_Some_l. by rewrite Hlookup, Hv.
    + intros Htrans settings0 Hsub. unfold Settings.initializeSettings.
      apply map_eq. intros k. destruct (settings !! k) as [v|] eqn:Hv.
      * apply lookup_union_Some_l. by rewrite Hlookup, Hv.
      * rewrite lookup_union_r.
        -- by apply (lookup_weaken_None settings0 settings).
        -- rewrite Hlookup, Hv.
           apply (proj2 (asdict_lookup_None (Settings.TransientSettings home) k)).
           intros Hk. apply Htrans in Hk as [v' Hv']. congruence.
  - intros merged. split.
    + unfold Settings.mergedSettings at 1. unfold Settings.merge4.
      cbn [Settings.transient_file Settings.addon_config from_option id].
      rewrite (left_id_L ∅ (∪)). apply map_eq. intros k.
      destruct (merged !! k) as [v|] eqn:Hv.
      * by apply lookup_union_Some_l.
      * rewrite lookup_union_r by done.
        apply merged_lookup_None in Hv as [Ht Hd]. by rewrite lookup_union_None.
    + destruct (select_keys_present merged (map fst Settings.DefaultSettings))
        as [userSettings Huser]; [apply merged_keeps_defaults |].
      assert (Hsave : ∃ d', Settings.saveSettings merged d = Ok d').
      { unfold Settings.saveSettings, mbind, result_bind. rewrite Huser. by eexists. }
      destruct Hsave as [d' Hsave]. exists d'. split; [done |].
      apply map_eq. intros k. rewrite (merged_after_save home merged d d' Hsave).
      destruct (merged !! k) as [v|] eqn:Hv; [done |].
      by apply merged_lookup_None in Hv as [Ht _].
  - intros settings0 k Hk. unfold Settings.initializeSettings.
    destruct (merged_keeps_defaults home d k Hk) as [v Hv].
    exists v. by apply lookup_union_Some_l.
Qed.

Lemma settings_round_trip_witness :
  ∃ d', Settings.saveSettings SavedSettings.settings SavedSettings.disk = Ok d' ∧
        Settings.initializeSettings "/home/user" d' ∅ !! "showExtensionActions"
          = Some (VBool true).
Proof.
  destruct (settings_round_trip "/home/user" SavedSettings.settings SavedSettings.disk)
    as [(d' & Hsave & Hvalues & _) _].
  - intros k Hk. simpl in Hk.
    apply elem_of_cons in Hk as [-> | Hk]; [by eexists |].
    apply elem_of_cons in Hk as [-> | Hk]; [by eexists |].
    by apply elem_of_nil in Hk.
  - exists d'. split; [exact Hsave |]. by apply Hvalues.
Defined.

(** ** The suffix key (lines 28, 97) *)

Section SuffixKey.

Variable home : string.
Variables AUDIO IMAGE : list string.
Variable add_file : list Event -> string -> string.
Variable addNote : list Event -> Note -> bool.

Lemma run_import_without_suffix_key (settings : gmap string Value) (rq : Request)
    (t : Tree) :
  settings !! "secondImageSuffix" = None →
  run_import AUDIO IMAGE add_file addNote settings rq t
    = ([ProgressStart (fileCount rq t)], Uncaught (KeyError "secondImageSuffix")).
Proof.
  intros Hnone. unfold run_import. destruct t as [files dirs]. simpl.
  unfold import_folder, getitem. by rewrite Hnone.
Qed.

Lemma accept_keeps_suffix_key_absent (noteType : string) (rq : Request)
    (settings settings' : gmap string Value) (d d' : Settings.Disk) :
  settings !! "secondImageSuffix" = None →
  accept noteType rq settings d = Ok (settings', d') →
  settings' !! "secondImageSuffix" = None.
Proof.
  intros Hnone. unfold accept, getitem, mbind, result_bind.
  destruct (settings !! "fieldSettings") as [[| |m]|]; try done.
  destruct (Settings.saveSettings _ d) as [d1|]; [| done].
  intros [= <- _]. by rewrite !lookup_insert_ne.
Qed.

Lemma initializeSettings_without_suffix_key (d : Settings.Disk)
    (settings : gmap string Value) :
  Settings.addon_config d !! "secondImageSuffix" = None →
  default ∅ (Settings.transient_file d) !! "secondImageSuffix" = None →
  settings !! "secondImageSuffix" = None →
  Settings.initializeSettings home d settings !! "secondImageSuffix" = None.
Proof.
  intros Hu Ht Hs.
  unfold Settings.initializeSettings, Settings.mergedSettings, Settings.merge4.
  rewrite !lookup_union_None. split_and!; try done.
Qed.

End SuffixKey.

(** C10 (amended): when neither the host configuration, nor the transient
    settings file, nor the settings dictionary left by earlier runs defines
    the key [secondImageSuffix], every run whose dialog was accepted ends at
    the first folder with the key-lookup error for that key, after the
    progress bar was started and before any file is stored or any note
    created; the defaults installed by [initializeSettings] alone are the five
    keys loadFolder, includeSubfolders, fieldSettings, secondMediaSuffix and
    showExtensionActions. *)
Theorem missing_suffix_key_raises (home : string) (AUDIO IMAGE : list string)
    (add_file : list Event → string → string) (addNote : list Event → Note → bool)
    (d : Settings.Disk) (settings : gmap string Value) (noteType : string)
    (rq : Request) (t : Tree) (settings' : gmap string Value) (d' : Settings.Disk) :
  Settings.addon_config d !! "secondImageSuffix" = None →
  default ∅ (Settings.transient_file d) !! "secondImageSuffix" = None →
  settings !! "secondImageSuffix" = None →
  accept noteType rq (Settings.initializeSettings home d settings) d = Ok (settings', d') →
  doMediaImport home AUDIO IMAGE add_file addNote d settings (Accepted noteType rq) t
    = Some ([ProgressStart (fileCount rq t)], Uncaught (KeyError "secondImageSuffix")) ∧
  dom (Settings.initializeSettings home SuffixRuns.disk0 ∅)
    = list_to_set ["loadFolder"; "includeSubfolders"; "fieldSettings";
                   "secondMediaSuffix"; "showExtensionActions"].
Proof.
  intros Hu Ht Hs Haccept. split.
  - unfold doMediaImport. rewrite Haccept. f_equal.
    apply run_import_without_suffix_key.
    eapply accept_keeps_suffix_key_absent; [| exact Haccept].
    by apply initializeSettings_without_suffix_key.
  - unfold Settings.initializeSettings, Settings.mergedSettings, Settings.merge4,
      Settings.asdict. simpl.
    rewrite !dom_union_L, !dom_insert_L, !dom_empty_L. set_solver.
Qed.

Lemma missing_suffix_key_raises_witness :
  doMediaImport "/home/user" Sample.AUDIO Sample.IMAGE Sample.add_file Sample.addNote
    SuffixRuns.disk0 ∅ (Accepted "Basic" Scenario.request) SuffixRuns.tree
  = Some ([ProgressStart 2], Uncaught (KeyError "secondImageSuffix")).
Proof.
  assert (Hr : ∃ settings' d',
            accept "Basic" Scenario.request
              (Settings.initializeSettings "/home/user" SuffixRuns.disk0 ∅)
              SuffixRuns.disk0 = Ok (settings', d')).
  { destruct (accept "Basic" Scenario.request
                (Settings.initializeSettings "/home/user" SuffixRuns.disk0 ∅)
                SuffixRuns.disk0) as [[settings' d']|e] eqn:Hr.
    - by do 2 eexists.
    - vm_compute in Hr. discriminate Hr. }
  destruct Hr as (settings' & d' & Hr).
  apply (missing_suffix_key_raises "/home/user" Sample.AUDIO Sample.IMAGE
           Sample.add_file Sample.addNote SuffixRuns.disk0 ∅ "Basic" Scenario.request
           SuffixRuns.tree settings' d'); [reflexivity | reflexivity | reflexivity | exact Hr].
Defined.

(** C10 as stated fails: after a first session whose host configuration
    defined the key, the saved host configuration no longer defines it (only
    the keys of [DefaultSettings] are written back) while the transient
    settings file does; the next run reads the suffix from there and returns
    with one note created. *)
Lemma suffix_key_from_transient_file :
  Settings.addon_config SuffixRuns.disk2 !! "secondImageSuffix" = None ∧
  default ∅ (Settings.transient_file SuffixRuns.disk2) !! "secondImageSuffix"
    = Some (VStr "_2") ∧
  snd <$> doMediaImport "/home/user" Sample.AUDIO Sample.IMAGE Sample.add_file
            Sample.addNote SuffixRuns.disk2 ∅ (Accepted "Basic" Scenario.request)
            SuffixRuns.tree
    = Some (Returned 1 false).
Proof. by vm_compute. Qed.

(** * Further properties of the engine *)

(** ** The pair index: files, names and order *)

(** What [pair_files] computes, step by step. *)
Lemma pair_files_steps (AUDIO IMAGE : list string) (file_pair_suffix : string)
    (files : list string) (pairs : list (string * string)) :
  pair_files AUDIO IMAGE file_pair_suffix files = Ok pairs →
  let ix := index_files AUDIO IMAGE file_pair_suffix files in
  ∃ pi1 pi2,
    match_primaries file_pair_suffix (file_ending_index ix) (primary_media ix) empty_pairs
      = Ok pi1 ∧
    match_secondaries file_pair_suffix (file_ending_index ix)
      (sort_by_len (secondary_media ix)) pi1 = Ok pi2 ∧
    pairs = file_pair_index pi2.
Proof.
  intros Hrun ix. unfold pair_files in Hrun. fold ix in Hrun.
  unfold mbind, result_bind in Hrun.
  destruct (match_primaries _ _ (primary_media ix) _) as [pi1|] eqn:H1; [| done].
  destruct (match_secondaries _ _ _ pi1) as [pi2|] eqn:H2; [| done].
  injection Hrun as <-. by exists pi1, pi2.
Qed.

Lemma pairs_inv_empty (file_pair_suffix : string) (idx : gmap string string)
    (allowed : string → Prop) :
  pairs_inv file_pair_suffix idx allowed empty_pairs.
Proof.
  split; simpl; [apply NoDup_nil_2 | intros p s Hps; by apply elem_of_nil in Hps].
Qed.

Lemma pair_files_members (AUDIO IMAGE : list string) (file_pair_suffix : string)
    (files : list string) (pairs : list (string * string)) (p s : string) :
  pair_files AUDIO IMAGE file_pair_suffix files = Ok pairs →
  (p, s) ∈ pairs →
  p ∈ files ∧ s ∈ files ∧
  is_media AUDIO IMAGE (file_ext p) = true ∧
  is_media AUDIO IMAGE (file_ext s) = true ∧
  (OsPath.splitext s).1 = (OsPath.splitext p).1 +:+ file_pair_suffix.
Proof.
  intros Hrun Hps.
  destruct (pair_files_steps _ _ _ _ _ Hrun) as (pi1 & pi2 & H1 & H2 & ->).
  set (ix := index_files AUDIO IMAGE file_pair_suffix files) in *.
  assert (Hinv : pairs_inv file_pair_suffix (file_ending_index ix) (fun _ => True) pi2).
  { eapply match_secondaries_inv; [exact H2 | done |].
    eapply match_primaries_inv; [exact H1 | done | apply pairs_inv_empty]. }
  destruct (index_files_inv AUDIO IMAGE file_pair_suffix files) as [_ _ Hl _].
  fold ix in Hl.
  apply Hinv in Hps as (pf & _ & Hp & Hs).
  apply Hl in Hp as (? & ? & Hpf). apply Hl in Hs as (? & ? & Hsf).
  rewrite Hpf. by split_and!.
Qed.

Lemma pair_files_NoDup (AUDIO IMAGE : list string) (file_pair_suffix : string)
    (files : list string) (pairs : list (string * string)) :
  pair_files AUDIO IMAGE file_pair_suffix files = Ok pairs →
  NoDup (odict_keys pairs).
Proof.
  intros Hrun.
  destruct (pair_files_steps _ _ _ _ _ Hrun) as (pi1 & pi2 & H1 & H2 & ->).
  set (ix := index_files AUDIO IMAGE file_pair_suffix files) in *.
  assert (Hinv : pairs_inv file_pair_suffix (file_ending_index ix) (fun _ => True) pi2).
  { eapply match_secondaries_inv; [exact H2 | done |].
    eapply match_primaries_inv; [exact H1 | done | apply pairs_inv_empty]. }
  apply Hinv.
Qed.

(** X1. Both files of a pair are media files of the folder, and the base name
    of the secondary is the base name of the primary followed by the
    suffix. *)
Theorem pair_index_sound (AUDIO IMAGE : list string) (file_pair_suffix : string)
    (files : list string) (pairs : list (string * string)) (p s : string) :
  pair_files AUDIO IMAGE file_pair_suffix files = Ok pairs →
  (p, s) ∈ pairs →
  p ∈ files ∧ s ∈ files ∧
  is_media AUDIO IMAGE (file_ext p) = true ∧
  is_media AUDIO IMAGE (file_ext s) = true ∧
  (OsPath.splitext s).1 = (OsPath.splitext p).1 +:+ file_pair_suffix.
Proof. apply pair_files_members. Qed.

Lemma pair_index_sound_witness :
  (OsPath.splitext "image_2_2_2.jpg").1 = (OsPath.splitext "image_2_2.jpg").1 +:+ "_2".
Proof.
  apply (pair_index_sound Sample.AUDIO Sample.IMAGE "_2"
           ["image.jpg"; "image_2.jpg"; "image_2_2.jpg"; "image_2_2_2.jpg"]
           [("image.jpg", "image_2.jpg"); ("image_2_2.jpg", "image_2_2_2.jpg")]
           "image_2_2.jpg" "image_2_2_2.jpg").
  - vm_compute. reflexivity.
  - apply list_elem_of_further, list_elem_of_here.
Defined.

Lemma odict_set_has (k v : string) (d : list (string * string)) :
  (k, v) ∈ odict_set k v d.
Proof.
  induction d as [|[k' v'] d IH]; simpl.
  - apply list_elem_of_here.
  - destruct (String.eqb_spec k' k) as [-> | Hne].
    + apply list_elem_of_here.
    + by apply list_elem_of_further.
Qed.

Lemma odict_set_keeps (k v : string) (d : list (string * string)) (kv : string * string) :
  (∀ v0, (k, v0) ∈ d → v0 = v) → kv ∈ d → kv ∈ odict_set k v d.
Proof.
  induction d as [|[k' v'] d IH]; simpl; intros Hsame Hin.
  - by apply elem_of_nil in Hin.
  - destruct (String.eqb_spec k' k) as [-> | Hne].
    + apply elem_of_cons in Hin as [-> | Hin].
      * rewrite (Hsame v') by apply list_elem_of_here. apply list_elem_of_here.
      * by apply list_elem_of_further.
    + apply elem_of_cons in Hin as [-> | Hin].
      * apply list_elem_of_here.
      * apply list_elem_of_further, IH; [| done].
        intros v0 H0. apply Hsame. by apply list_elem_of_further.
Qed.

Lemma odict_set_keys_old (k v : string) (d : list (string * string)) :
  k ∈ odict_keys d → odict_keys (odict_set k v d) = odict_keys d.
Proof.
  unfold odict_keys. induction d as [|[k' v'] d IH]; simpl; intros Hk.
  - by apply elem_of_nil in Hk.
  - destruct (String.eqb_spec k' k) as [-> | Hne]; simpl; [done |].
    f_equal. apply IH. apply elem_of_cons in Hk as [? | ?]; [congruence | done].
Qed.

Lemma odict_set_keys_new (k v : string) (d : list (string * string)) :
  k ∉ odict_keys d → odict_keys (odict_set k v d) = odict_keys d ++ [k].
Proof.
  unfold odict_keys. induction d as [|[k' v'] d IH]; simpl; intros Hk; [done |].
  apply not_elem_of_cons in Hk as [Hne Hk].
  destruct (String.eqb_spec k' k) as [-> | _]; [done |]. simpl. f_equal. by apply IH.
Qed.

Section Coverage.

Variable file_pair_suffix : string.
Variable idx : gmap string string.

(** The index lists every file under its own base name. *)
Hypothesis idx_base : ∀ m g, idx !! m = Some g → (OsPath.splitext g).1 = m.

Lemma match_pair_keeps (pf : string) (pi pi' : PairIndex) (kv : string * string) :
  match_pair file_pair_suffix idx pf pi = Ok pi' →
  pairs_inv file_pair_suffix idx (fun _ => True) pi →
  kv ∈ file_pair_index pi → kv ∈ file_pair_index pi'.
Proof.
  unfold match_pair, getitem, mbind, result_bind.
  destruct (idx !! pf) as [p|] eqn:Hp; [| done].
  destruct (idx !! (pf +:+ file_pair_suffix)) as [s|] eqn:Hs; [| done].
  intros [= <-] Hinv Hin. simpl. apply odict_set_keeps; [| done].
  intros v0 (pf0 & _ & Hp0 & Hs0)%Hinv.
  apply idx_base in Hp0. apply idx_base in Hp. congruence.
Qed.

Lemma covered_mono (pi pi' : PairIndex) (k : string) :
  (∀ kv, kv ∈ file_pair_index pi → kv ∈ file_pair_index pi') →
  covered idx pi k → covered idx pi' k.
Proof.
  intros Hkeep (g & Hg & [Hk | Hv]); exists g; (split; [done |]).
  - left. apply list_elem_of_fmap in Hk as (kv & -> & Hkv).
    apply list_elem_of_fmap. exists kv. auto.
  - right. apply list_elem_of_fmap in Hv as (kv & -> & Hkv).
    apply list_elem_of_fmap. exists kv. auto.
Qed.

Lemma match_pair_covers (pf : string) (pi pi' : PairIndex) :
  match_pair file_pair_suffix idx pf pi = Ok pi' →
  covered idx pi' pf ∧
  (matched_covered idx pi → pairs_inv file_pair_suffix idx (fun _ => True) pi →
   matched_covered idx pi').
Proof.
  intros Hstep. pose proof Hstep as Hstep'. revert Hstep.
  unfold match_pair, getitem, mbind, result_bind.
  destruct (idx !! pf) as [p|] eqn:Hp; [| done].
  destruct (idx !! (pf +:+ file_pair_suffix)) as [s|] eqn:Hs; [| done].
  intros [= <-]. split.
  - exists p. split; [done |]. left. simpl.
    apply list_elem_of_fmap. exists (p, s). split; [done | apply odict_set_has].
  - intros Hm Hinv k. simpl.
    destruct (decide (pf +:+ file_pair_suffix = k)) as [<- | Hne].
    + intros _. exists s. split; [done |].
      apply list_elem_of_fmap. exists (p, s). split; [done | apply odict_set_has].
    + rewrite lookup_insert_ne by done. intros (s0 & Hs0 & Hv)%Hm.
      exists s0. split; [done |].
      apply list_elem_of_fmap in Hv as (kv & -> & Hkv).
      apply list_elem_of_fmap. exists kv. split; [done |].
      by apply (match_pair_keeps pf pi _ kv Hstep').
Qed.

Lemma match_primaries_covers (names : list string) (pi pi' : PairIndex) :
  match_primaries file_pair_suffix idx names pi = Ok pi' →
  pairs_inv file_pair_suffix idx (fun _ => True) pi →
  matched_covered idx pi →
  (∀ kv, kv ∈ file_pair_index pi → kv ∈ file_pair_index pi') ∧
  matched_covered idx pi' ∧
  ∀ pf, pf ∈ names → covered idx pi' pf.
Proof.
  revert pi. induction names as [|pf names IH]; simpl; intros pi.
  - intros [= <-] _ Hm. split_and!; [done | done |]. by intros pf ?%elem_of_nil.
  - unfold mbind, result_bind.
    destruct (match_pair file_pair_suffix idx pf pi) as [pi1|] eqn:H1; [| done].
    intros Hrest Hinv Hm.
    destruct (match_pair_covers pf pi pi1 H1) as [Hcov Hm1].
    destruct (match_pair_inv file_pair_suffix idx (fun _ => True) pf pi pi1 H1 I Hinv)
      as [Hinv1 _].
    destruct (IH pi1 Hrest Hinv1 (Hm1 Hm Hinv)) as (Hkeep & Hm' & Hall).
    split_and!; [| done |].
    + intros kv Hkv. by apply Hkeep, (match_pair_keeps pf pi pi1 kv H1).
    + intros pf' [-> | Hin]%elem_of_cons; [| by apply Hall].
      by apply (covered_mono pi1).
Qed.

Lemma match_secondaries_covers (names : list string) (pi pi' : PairIndex) :
  match_secondaries file_pair_suffix idx names pi = Ok pi' →
  pairs_inv file_pair_suffix idx (fun _ => True) pi →
  matched_covered idx pi →
  (∀ kv, kv ∈ file_pair_index pi → kv ∈ file_pair_index pi') ∧
  ∀ pf, pf ∈ names → covered idx pi' pf.
Proof.
  revert pi. induction names as [|pf names IH]; simpl; intros pi.
  - intros [= <-] _ Hm. split; [done |]. by intros pf ?%elem_of_nil.
  - destruct (secondary_media_matched pi !! pf) as [b|] eqn:Hb.
    + intros Hrest Hinv Hm. destruct (IH pi Hrest Hinv Hm) as (Hkeep & Hall).
      split; [done |]. intros pf' [-> | Hin]%elem_of_cons; [| by apply Hall].
      destruct (Hm pf) as (s & Hs & Hv); [by rewrite Hb |].
      apply (covered_mono pi); [done |]. exists s. auto.
    + unfold mbind, result_bind.
      destruct (match_pair file_pair_suffix idx pf pi) as [pi1|] eqn:H1; [| done].
      intros Hrest Hinv Hm.
      destruct (match_pair_covers pf pi pi1 H1) as [Hcov Hm1].
      destruct (match_pair_inv file_pair_suffix idx (fun _ => True) pf pi pi1 H1 I Hinv)
        as [Hinv1 _].
      destruct (IH pi1 Hrest Hinv1 (Hm1 Hm Hinv)) as (Hkeep & Hall).
      split.
      * intros kv Hkv. by apply Hkeep, (match_pair_keeps pf pi pi1 kv H1).
      * intros pf' [-> | Hin]%elem_of_cons; [| by apply Hall].
        by apply (covered_mono pi1).
Qed.

End Coverage.

(** ** The order of the second pass *)

Lemma insert_by_len_perm (x : string) (l : list string) :
  insert_by_len x l ≡ₚ x :: l.
Proof.
  induction l as [|y l IH]; simpl; [done |].
  destruct (PyStr.len x <? PyStr.len y)%nat; [done |].
  rewrite IH. apply Permutation_swap.
Qed.

Lemma insert_by_len_sorted (x : string) (l : list string) :
  StronglySorted (fun a b => (PyStr.len a ≤ PyStr.len b)%nat) l →
  StronglySorted (fun a b => (PyStr.len a ≤ PyStr.len b)%nat) (insert_by_len x l).
Proof.
  induction 1 as [|y l Hl IH Hy]; simpl.
  - repeat constructor.
  - destruct (Nat.ltb_spec (PyStr.len x) (PyStr.len y)) as [Hlt | Hge].
    + constructor; [by constructor |]. constructor; [lia |].
      eapply Forall_impl; [exact Hy |]. simpl. intros z Hz. lia.
    + constructor; [done |]. rewrite insert_by_len_perm. by constructor.
Qed.

Lemma sort_by_len_snoc (l : list string) (x : string) :
  sort_by_len (l ++ [x]) = insert_by_len x (sort_by_len l).
Proof. unfold sort_by_len. by rewrite fold_left_app. Qed.

Lemma sort_by_len_sorted (l : list string) :
  StronglySorted (fun a b => (PyStr.len a ≤ PyStr.len b)%nat) (sort_by_len l).
Proof.
  induction l as [|x l IH] using rev_ind; [constructor |].
  rewrite sort_by_len_snoc. by apply insert_by_len_sorted.
Qed.

Lemma filter_len_none (n : nat) (l : list string) :
  Forall (fun z => PyStr.len z ≠ n) l →
  filter (fun s => PyStr.len s = n) l = [].
Proof.
  induction 1 as [|z l Hz _ IH]; [done |]. by rewrite filter_cons, decide_False.
Qed.

Lemma insert_by_len_stable (n : nat) (x : string) (l : list string) :
  StronglySorted (fun a b => (PyStr.len a ≤ PyStr.len b)%nat) l →
  filter (fun s => PyStr.len s = n) (insert_by_len x l)
    = filter (fun s => PyStr.len s = n) (l ++ [x]).
Proof.
  induction 1 as [|y l Hl IH Hy]; [done |]. cbn [insert_by_len].
  destruct (Nat.ltb_spec (PyStr.len x) (PyStr.len y)) as [Hlt | Hge].
  - assert (Hnone : filter (fun s => PyStr.len s = n) (y :: l) = []
                     ∨ PyStr.len x ≠ n).
    { destruct (decide (PyStr.len x = n)) as [Hx | Hx]; [left | by right].
      apply filter_len_none, Forall_forall. intros z Hz.
      apply elem_of_cons in Hz as [-> | Hz]; [lia |].
      rewrite Forall_forall in Hy. specialize (Hy z Hz). lia. }
    rewrite filter_app, (filter_cons _ x (y :: l)), (filter_cons _ x []), filter_nil.
    destruct Hnone as [Hnone | Hx].
    + rewrite Hnone. by destruct (decide (PyStr.len x = n)).
    + rewrite !decide_False by done. by rewrite app_nil_r.
  - rewrite <- app_comm_cons, !(filter_cons _ y), IH.
    by destruct (decide (PyStr.len y = n)).
Qed.

(** [sort_by_len] is the stable sort by length that [list.sort(key=len)] is:
    a rearrangement of the names, ascending in length, that keeps the order
    of the names of each length. *)
Lemma sort_by_len_stable_sort (l : list string) :
  sort_by_len l ≡ₚ l ∧
  StronglySorted (fun a b => (PyStr.len a ≤ PyStr.len b)%nat) (sort_by_len l) ∧
  ∀ n, filter (fun s => PyStr.len s = n) (sort_by_len l)
         = filter (fun s => PyStr.len s = n) l.
Proof.
  split_and!.
  - induction l as [|x l IH] using rev_ind; [done |].
    rewrite sort_by_len_snoc, insert_by_len_perm, IH.
    by rewrite Permutation_cons_append.
  - apply sort_by_len_sorted.
  - intros n. induction l as [|x l IH] using rev_ind; [done |].
    rewrite sort_by_len_snoc, insert_by_len_stable by apply sort_by_len_sorted.
    by rewrite !filter_app, IH.
Qed.

Section Order.

Variable file_pair_suffix : string.
Variable idx : gmap string string.
Hypothesis idx_base : ∀ m g, idx !! m = Some g → (OsPath.splitext g).1 = m.

Lemma match_primaries_keys (names : list string) (pi pi' : PairIndex) :
  match_primaries file_pair_suffix idx names pi = Ok pi' →
  NoDup names →
  (∀ pf p, pf ∈ names → idx !! pf = Some p → p ∉ odict_keys (file_pair_index pi)) →
  odict_keys (file_pair_index pi')
    = odict_keys (file_pair_index pi) ++ omap (fun pf => idx !! pf) names.
Proof.
  revert pi. induction names as [|pf names IH]; simpl; intros pi.
  - intros [= <-] _ _. by rewrite app_nil_r.
  - unfold match_pair, getitem, mbind, result_bind.
    destruct (idx !! pf) as [p|] eqn:Hp; [| done].
    destruct (idx !! (pf +:+ file_pair_suffix)) as [s|] eqn:Hs; [| done].
    intros Hrest [Hpf Hnd]%NoDup_cons Hfresh.
    rewrite (IH _ Hrest Hnd); simpl.
    + rewrite odict_set_keys_new, <- app_assoc; [done |].
      apply (Hfresh pf); [apply list_elem_of_here | done].
    + intros pf' p' Hin Hp'. rewrite odict_set_keys_new.
      * apply not_elem_of_app. split.
        -- apply (Hfresh pf'); [by apply list_elem_of_further | done].
        -- intros ->%list_elem_of_singleton.
           apply idx_base in Hp. apply idx_base in Hp'. congruence.
      * apply (Hfresh pf); [apply list_elem_of_here | done].
Qed.

Lemma match_secondaries_keys (names : list string) (pi pi' : PairIndex) :
  match_secondaries file_pair_suffix idx names pi = Ok pi' →
  ∃ later, odict_keys (file_pair_index pi') = odict_keys (file_pair_index pi) ++ later ∧
           (∀ p, p ∈ later → ∃ pf, pf ∈ names ∧ idx !! pf = Some p) ∧
           (StronglySorted (fun a b => (PyStr.len a ≤ PyStr.len b)%nat) names →
            StronglySorted (fun p q => (PyStr.len (OsPath.splitext p).1
                                        ≤ PyStr.len (OsPath.splitext q).1)%nat) later).
Proof.
  revert pi. induction names as [|pf names IH]; simpl; intros pi.
  - intros [= <-]. exists []. rewrite app_nil_r. split; [done |].
    split; [by intros p ?%elem_of_nil | constructor].
  - destruct (secondary_media_matched pi !! pf) as [b|].
    + intros (later & Hkeys & Hlater & Hsorted)%IH. exists later. split; [done |]. split.
      * intros p (pf' & ? & ?)%Hlater. exists pf'.
        split; [by apply list_elem_of_further | done].
      * intros Hs. apply Hsorted. by inversion Hs.
    + unfold match_pair, getitem, mbind, result_bind.
      destruct (idx !! pf) as [p|] eqn:Hp; [| done].
      destruct (idx !! (pf +:+ file_pair_suffix)) as [s|] eqn:Hs; [| done].
      intros (later & Hkeys & Hlater & Hsorted)%IH. simpl in Hkeys.
      destruct (decide (p ∈ odict_keys (file_pair_index pi))) as [Hold | Hnew].
      * rewrite odict_set_keys_old in Hkeys by done. exists later. split; [done |]. split.
        -- intros q (pf' & ? & ?)%Hlater. exists pf'.
           split; [by apply list_elem_of_further | done].
        -- intros Hst. apply Hsorted. by inversion Hst.
      * rewrite odict_set_keys_new, <- app_assoc in Hkeys by done.
        exists ([p] ++ later). split; [done |]. split.
        -- intros q [->%list_elem_of_singleton | Hq]%elem_of_app.
           ++ exists pf. split; [apply list_elem_of_here | done].
           ++ apply Hlater in Hq as (pf' & ? & ?). exists pf'.
              split; [by apply list_elem_of_further | done].
        -- intros Hst. inversion Hst as [|? ? Hrest Hall]; subst. simpl.
           constructor; [by apply Hsorted |].
           apply Forall_forall. intros q (pf' & Hpf' & Hq)%Hlater.
           rewrite Forall_forall in Hall. specialize (Hall pf' Hpf').
           apply idx_base in Hp. apply idx_base in Hq. by rewrite Hp, Hq.
Qed.

End Order.

Section ListingOrder.

Variables AUDIO IMAGE : list string.
Variable file_pair_suffix : string.

Lemma index_files_snoc (files : list string) (f : string) :
  index_files AUDIO IMAGE file_pair_suffix (files ++ [f])
    = index_file AUDIO IMAGE file_pair_suffix
        (index_files AUDIO IMAGE file_pair_suffix files) f.
Proof. unfold index_files. by rewrite fold_left_app. Qed.

Lemma filter_snoc {A : Type} (P : A → bool) (l : list A) (x : A) :
  List.filter P (l ++ [x]) = List.filter P l ++ (if P x then [x] else []).
Proof.
  induction l as [|y l IH]; simpl; [by destruct (P x) |].
  rewrite IH. by destruct (P y).
Qed.

Lemma primary_media_listing (files : list string) :
  primary_media (index_files AUDIO IMAGE file_pair_suffix files)
    = map (fun f => (OsPath.splitext f).1)
          (trivial_primaries AUDIO IMAGE file_pair_suffix files).
Proof.
  unfold trivial_primaries. induction files as [|f files IH] using rev_ind; [done |].
  rewrite index_files_snoc, filter_snoc. unfold index_file at 1.
  destruct (is_media AUDIO IMAGE (file_ext f)); simpl.
  - destruct (matches_pair_suffix file_pair_suffix (OsPath.splitext f).1); simpl.
    + by rewrite app_nil_r.
    + by rewrite IH, map_app.
  - by rewrite app_nil_r.
Qed.

Lemma media_names_snoc (files : list string) (f : string) :
  media_names AUDIO IMAGE (files ++ [f])
    = media_names AUDIO IMAGE files ++
      (if is_media AUDIO IMAGE (file_ext f) then [(OsPath.splitext f).1] else []).
Proof.
  unfold media_names. rewrite filter_snoc, map_app.
  by destruct (is_media AUDIO IMAGE (file_ext f)).
Qed.

Lemma media_names_elem (files : list string) (f : string) :
  f ∈ files → is_media AUDIO IMAGE (file_ext f) = true →
  (OsPath.splitext f).1 ∈ media_names AUDIO IMAGE files.
Proof.
  intros Hf Hm. unfold media_names. apply list_elem_of_fmap. exists f. split; [done |].
  apply list_elem_of_In, filter_In. split; [by apply list_elem_of_In | done].
Qed.

(** Without two media files of the same base name, every media file is
    indexed under its base name. *)
Lemma index_files_own (files : list string) (f : string) :
  NoDup (media_names AUDIO IMAGE files) →
  f ∈ files → is_media AUDIO IMAGE (file_ext f) = true →
  file_ending_index (index_files AUDIO IMAGE file_pair_suffix files)
    !! (OsPath.splitext f).1 = Some f.
Proof.
  induction files as [|g files IH] using rev_ind; intros Hnd Hf Hm.
  - by apply elem_of_nil in Hf.
  - rewrite media_names_snoc in Hnd. rewrite index_files_snoc. unfold index_file.
    apply elem_of_app in Hf as [Hf | ->%list_elem_of_singleton].
    + destruct (is_media AUDIO IMAGE (file_ext g)) eqn:Hg; simpl.
      * apply NoDup_app in Hnd as (Hnd & Hdisj & _).
        assert (Hne : (OsPath.splitext g).1 ≠ (OsPath.splitext f).1).
        { intros Heq. apply (Hdisj (OsPath.splitext f).1).
          - by apply media_names_elem.
          - rewrite Heq. apply list_elem_of_here. }
        destruct (matches_pair_suffix _ _); simpl;
          rewrite lookup_insert_ne by done; by apply IH.
      * rewrite app_nil_r in Hnd. by apply IH.
    + rewrite Hm. simpl. destruct (matches_pair_suffix _ _); simpl;
        apply lookup_insert_eq.
Qed.

End ListingOrder.

Lemma omap_own (idx : gmap string string) (P : string → bool) (files : list string) :
  (∀ f, f ∈ files → P f = true → idx !! (OsPath.splitext f).1 = Some f) →
  omap (fun pf => idx !! pf) (map (fun f => (OsPath.splitext f).1) (List.filter P files))
    = List.filter P files.
Proof.
  induction files as [|f files IH]; simpl; intros Hown; [done |].
  assert (Hrest : ∀ g, g ∈ files → P g = true → idx !! (OsPath.splitext g).1 = Some g).
  { intros g Hg. apply Hown. by apply list_elem_of_further. }
  destruct (P f) eqn:Hf; simpl; [| by apply IH].
  rewrite (Hown f) by (done || apply list_elem_of_here). f_equal. by apply IH.
Qed.

(** X2. When the indexing of a folder succeeds, the file indexed under the
    base name of a media file is the primary or the secondary file of a pair;
    so, when no two media files of the folder share a base name, every media
    file of the folder is in a pair. With a shared base name the first part
    speaks of the file that the index holds for the name, not of each file. *)
Theorem pair_index_complete (AUDIO IMAGE : list string) (file_pair_suffix : string)
    (files : list string) (pairs : list (string * string)) (f : string) :
  pair_files AUDIO IMAGE file_pair_suffix files = Ok pairs →
  f ∈ files → is_media AUDIO IMAGE (file_ext f) = true →
  (∃ g, file_ending_index (index_files AUDIO IMAGE file_pair_suffix files)
          !! (OsPath.splitext f).1 = Some g ∧
        g ∈ files ∧ (g ∈ map fst pairs ∨ g ∈ map snd pairs)) ∧
  (NoDup (media_names AUDIO IMAGE files) → f ∈ map fst pairs ∨ f ∈ map snd pairs).
Proof.
  intros Hrun Hf Hm.
  destruct (pair_files_steps _ _ _ _ _ Hrun) as (pi1 & pi2 & H1 & H2 & ->).
  set (ix := index_files AUDIO IMAGE file_pair_suffix files) in *.
  destruct (index_files_inv AUDIO IMAGE file_pair_suffix files) as [Hs Hp Hl _].
  fold ix in Hs, Hp, Hl.
  assert (Hbase : ∀ m g, file_ending_index ix !! m = Some g → (OsPath.splitext g).1 = m).
  { intros m g Hg. by apply Hl in Hg as (_ & _ & ?). }
  assert (Hm0 : matched_covered (file_ending_index ix) empty_pairs).
  { intros k [b Hb]. simpl in Hb. by rewrite lookup_empty in Hb. }
  destruct (match_primaries_covers file_pair_suffix _ Hbase _ _ _ H1
              (pairs_inv_empty _ _ _) Hm0) as (_ & Hm1 & Hprim).
  assert (Hinv1 : pairs_inv file_pair_suffix (file_ending_index ix) (fun _ => True) pi1).
  { eapply match_primaries_inv; [exact H1 | done | apply pairs_inv_empty]. }
  destruct (match_secondaries_covers file_pair_suffix _ Hbase _ _ _ H2 Hinv1 Hm1)
    as (Hkeep & Hsec).
  assert (Hcov : covered (file_ending_index ix) pi2 (OsPath.splitext f).1).
  { destruct (matches_pair_suffix file_pair_suffix (OsPath.splitext f).1) eqn:Hre.
    - apply Hsec, sort_by_len_elem, Hs. by exists f.
    - apply (covered_mono _ pi1); [done |]. apply Hprim, Hp. by exists f. }
  destruct Hcov as (g & Hg & Hor). split.
  - exists g. split; [done |]. apply Hl in Hg as (? & _ & ?). by split.
  - intros Hnd. unfold ix in Hg.
    rewrite (index_files_own AUDIO IMAGE file_pair_suffix files f Hnd Hf Hm) in Hg.
    by injection Hg as <-.
Qed.

Lemma pair_index_complete_witness :
  "image_2_2_2.jpg" ∈ map fst [("image.jpg", "image_2.jpg");
                                ("image_2_2.jpg", "image_2_2_2.jpg")] ∨
  "image_2_2_2.jpg" ∈ map snd [("image.jpg", "image_2.jpg");
                                ("image_2_2.jpg", "image_2_2_2.jpg")].
Proof.
  apply (pair_index_complete Sample.AUDIO Sample.IMAGE "_2"
           ["image.jpg"; "image_2.jpg"; "image_2_2.jpg"; "image_2_2_2.jpg"]).
  - vm_compute. reflexivity.
  - do 3 apply list_elem_of_further. apply list_elem_of_here.
  - reflexivity.
  - apply (bool_decide_unpack _). vm_compute. exact I.
Defined.

(** X3. The order of the pair index, when no two media files of the folder
    share a base name. First come, in the order of the directory listing, the
    media files whose base name the suffix search of line 125 does not match;
    then the primaries that the second pass adds, whose base names the search
    matches, in ascending length of their base names. *)
Theorem pair_index_order (AUDIO IMAGE : list string) (file_pair_suffix : string)
    (files : list string) (pairs : list (string * string)) :
  pair_files AUDIO IMAGE file_pair_suffix files = Ok pairs →
  NoDup (media_names AUDIO IMAGE files) →
  ∃ later,
    odict_keys pairs = trivial_primaries AUDIO IMAGE file_pair_suffix files ++ later ∧
    (∀ p, p ∈ later →
       matches_pair_suffix file_pair_suffix (OsPath.splitext p).1 = true) ∧
    StronglySorted (fun p q => (PyStr.len (OsPath.splitext p).1
                                ≤ PyStr.len (OsPath.splitext q).1)%nat) later.
Proof.
  intros Hrun Hnd.
  destruct (pair_files_steps _ _ _ _ _ Hrun) as (pi1 & pi2 & H1 & H2 & ->).
  set (ix := index_files AUDIO IMAGE file_pair_suffix files) in *.
  destruct (index_files_inv AUDIO IMAGE file_pair_suffix files) as [Hs Hp Hl _].
  fold ix in Hs, Hp, Hl.
  assert (Hbase : ∀ m g, file_ending_index ix !! m = Some g → (OsPath.splitext g).1 = m).
  { intros m g Hg. by apply Hl in Hg as (_ & _ & ?). }
  assert (Hprim : NoDup (primary_media ix)).
  { unfold ix. rewrite primary_media_listing. unfold trivial_primaries.
    unfold media_names in Hnd. revert Hnd. clear.
    induction files as [|f files IH]; simpl; [done |].
    destruct (is_media AUDIO IMAGE (file_ext f)); simpl; [| done].
    intros [Hf Hnd]%NoDup_cons.
    destruct (matches_pair_suffix _ _); simpl; [by apply IH |].
    apply NoDup_cons. split; [| by apply IH].
    intros (g & Hg & Hin)%list_elem_of_fmap. apply Hf.
    apply list_elem_of_fmap. exists g. split; [done |].
    apply list_elem_of_In, filter_In. apply list_elem_of_In, filter_In in Hin as [? Hb].
    apply andb_true_iff in Hb as [? _]. done. }
  assert (Hk1 : odict_keys (file_pair_index pi1)
                = omap (fun pf => file_ending_index ix !! pf) (primary_media ix)).
  { rewrite (match_primaries_keys file_pair_suffix _ Hbase _ _ _ H1 Hprim); [done |].
    intros pf p _ _ Hin. by apply elem_of_nil in Hin. }
  destruct (match_secondaries_keys file_pair_suffix _ Hbase _ _ _ H2)
    as (later & Hk2 & Hlater & Hsorted).
  exists later. split_and!.
  - rewrite Hk2, Hk1. f_equal.
    replace (primary_media ix)
      with (map (fun f => (OsPath.splitext f).1)
              (trivial_primaries AUDIO IMAGE file_pair_suffix files))
      by (symmetry; apply primary_media_listing).
    apply omap_own. intros f Hf [Hm _]%andb_true_iff. by apply index_files_own.
  - intros p (pf & Hpf & Hidx)%Hlater.
    apply sort_by_len_elem, Hs in Hpf as (g & _ & _ & Hg & Hre).
    apply Hbase in Hidx. by rewrite Hidx.
  - apply Hsorted, sort_by_len_sorted.
Qed.

Lemma pair_index_order_witness :
  ∃ later,
    odict_keys [("a.jpg", "a_2.jpg"); ("b_2.jpg", "b_2_2.jpg");
                ("image_2_2.jpg", "image_2_2_2.jpg")]
      = trivial_primaries Sample.AUDIO Sample.IMAGE "_2"
          ["image_2_2_2.jpg"; "image_2_2.jpg"; "b_2_2.jpg"; "a.jpg"; "a_2.jpg";
           "b_2.jpg"] ++ later ∧
    (∀ p, p ∈ later → matches_pair_suffix "_2" (OsPath.splitext p).1 = true) ∧
    StronglySorted (fun p q => (PyStr.len (OsPath.splitext p).1
                                ≤ PyStr.len (OsPath.splitext q).1)%nat) later.
Proof.
  apply (pair_index_order Sample.AUDIO Sample.IMAGE "_2").
  - vm_compute. reflexivity.
  - apply (bool_decide_unpack _). vm_compute. exact I.
Defined.

(** ** What the loops store and create *)

Lemma for_each_log {A : Type} (Q : list Event → Prop)
    (body : RunState → A → RunState * Flow) (items : list A) (st : RunState) :
  Q [] → (∀ a b, Q a → Q b → Q (a ++ b)) →
  (∀ st x, x ∈ items → ∃ ev, log (body st x).1 = log st ++ ev ∧ Q ev) →
  ∃ ev, log (for_each body items st).1 = log st ++ ev ∧ Q ev.
Proof.
  intros Hnil Happ. revert st. induction items as [|x items IH]; intros st Hbody; simpl.
  - exists []. by rewrite app_nil_r.
  - destruct (Hbody st x) as (ev1 & Hl1 & Hq1); [apply list_elem_of_here |].
    destruct (body st x) as [st1 []]; simpl in *.
    + destruct (IH st1) as (ev2 & Hl2 & Hq2).
      { intros st' y Hy. apply Hbody. by apply list_elem_of_further. }
      exists (ev1 ++ ev2). rewrite Hl2, Hl1, app_assoc. auto.
    + by exists ev1.
    + by exists ev1.
Qed.

Lemma enumerate_elem (files : list string) (item : nat * string) :
  item ∈ enumerate files → item.2 ∈ files.
Proof. destruct item as [i f]. unfold enumerate. apply elem_of_zip_r. Qed.

Section RunEvents.

Variables AUDIO IMAGE : list string.
Variable add_file : list Event -> string -> string.
Variable addNote : list Event -> Note -> bool.

Lemma import_file_stored (rq : Request) (w : Walked) (pairs : list (string * string))
    (st : RunState) (i : nat) (fileName : string) :
  ∃ ev, log (import_file AUDIO IMAGE add_file addNote rq w pairs st (i, fileName)).1
          = log st ++ ev ∧
        stored_for AUDIO IMAGE rq w pairs fileName ev.
Proof.
  unfold import_file, stored_for.
  destruct (is_media AUDIO IMAGE (file_ext fileName)) eqn:Hm; simpl.
  2: { exists []. rewrite app_nil_r. split; [done |]. by intros p ?%elem_of_nil. }
  destruct (file_pairs_used rq).
  - destruct (odict_get pairs fileName) as [secondary|] eqn:Hget; simpl.
    + apply odict_get_elem in Hget.
      destruct (addNote _ _); simpl; rewrite <- !app_assoc; simpl;
        (eexists; split; [done |]); simpl;
        intros p [-> | [-> | []%elem_of_nil]%elem_of_cons]%elem_of_cons; eauto.
    + eexists. split; [done |]. simpl.
      intros p [-> | []%elem_of_nil]%elem_of_cons. eauto.
  - simpl. destruct (addNote _ _); simpl; rewrite <- !app_assoc; simpl;
      (eexists; split; [done |]); simpl;
      intros p [-> | []%elem_of_nil]%elem_of_cons; eauto.
Qed.

Lemma import_file_notes (rq : Request) (w : Walked) (pairs : list (string * string))
    (st : RunState) (item : nat * string) :
  ∃ ev, log (import_file AUDIO IMAGE add_file addNote rq w pairs st item).1
          = log st ++ ev ∧
        notes_filled AUDIO IMAGE rq w ev.
Proof.
  destruct item as [i fileName]. unfold import_file, notes_filled.
  destruct (is_media AUDIO IMAGE (file_ext fileName)) eqn:Hm; simpl.
  2: { exists []. rewrite app_nil_r. split; [done |]. by intros n b ?%elem_of_nil. }
  destruct (file_pairs_used rq).
  - destruct (odict_get pairs fileName) as [secondary|]; simpl.
    + destruct (addNote _ _); simpl; rewrite <- !app_assoc; simpl;
        (eexists; split; [done |]); intros n b Hin;
        repeat (apply elem_of_cons in Hin as [Hin | Hin]; [try discriminate Hin |]);
        try (by apply elem_of_nil in Hin);
        injection Hin as -> ->; eexists; split_and!; try reflexivity; done.
    + eexists. split; [done |]. intros n b Hin.
      repeat (apply elem_of_cons in Hin as [Hin | Hin]; [try discriminate Hin |]).
      by apply elem_of_nil in Hin.
  - simpl. destruct (addNote _ _); simpl; rewrite <- !app_assoc; simpl;
      (eexists; split; [done |]); intros n b Hin;
      repeat (apply elem_of_cons in Hin as [Hin | Hin]; [try discriminate Hin |]);
      try (by apply elem_of_nil in Hin);
      injection Hin as -> ->; eexists; split_and!; try reflexivity; done.
Qed.

End RunEvents.

Lemma pair_files_value_members (AUDIO IMAGE : list string) (file_pair_suffix : Value)
    (files : list string) (pairs : list (string * string)) (p s : string) :
  pair_files_value AUDIO IMAGE file_pair_suffix files = Ok pairs →
  (p, s) ∈ pairs →
  p ∈ files ∧ s ∈ files ∧
  is_media AUDIO IMAGE (file_ext p) = true ∧ is_media AUDIO IMAGE (file_ext s) = true.
Proof.
  destruct file_pair_suffix as [suffix| |]; simpl.
  - intros Hrun Hps.
    destruct (pair_files_members _ _ _ _ _ _ _ Hrun Hps) as (? & ? & ? & ? & _). done.
  - destruct (existsb _ _); [done |]. intros [= <-] Hps. by apply elem_of_nil in Hps.
  - destruct (existsb _ _); [done |]. intros [= <-] Hps. by apply elem_of_nil in Hps.
Qed.

Section RunLevel.

Variables AUDIO IMAGE : list string.
Variable add_file : list Event -> string -> string.
Variable addNote : list Event -> Note -> bool.

Lemma listed_app (w : Walked) (a b : list Event) :
  listed AUDIO IMAGE [w] a → listed AUDIO IMAGE [w] b → listed AUDIO IMAGE [w] (a ++ b).
Proof.
  intros Ha Hb p. rewrite stored_media_app, elem_of_app. intros [? | ?]; auto.
Qed.

Lemma import_folder_stored (settings : gmap string Value) (rq : Request)
    (st : RunState) (w : Walked) :
  ∃ ev, log (import_folder AUDIO IMAGE add_file addNote settings rq st w).1
          = log st ++ ev ∧
        listed AUDIO IMAGE [w] ev.
Proof.
  assert (Hnone : ∃ ev, log st = log st ++ ev ∧ listed AUDIO IMAGE [w] ev).
  { exists []. rewrite app_nil_r. split; [done |]. by intros p ?%elem_of_nil. }
  unfold import_folder. destruct (getitem settings "secondImageSuffix"); [| done].
  destruct (file_pairs_used rq).
  - destruct (pair_files_value _ _ _ _) as [pairs|] eqn:Hpairs; [| done].
    apply for_each_log.
    + by intros p ?%elem_of_nil.
    + apply listed_app.
    + intros st' [i f] Hin%enumerate_elem. simpl in Hin.
      destruct (import_file_stored AUDIO IMAGE add_file addNote rq w pairs st' i f)
        as (ev & Hlog & Hst).
      exists ev. split; [done |]. intros p (Hm & Hp)%Hst.
      exists w. split; [apply list_elem_of_here |].
      unfold odict_keys in Hin. apply list_elem_of_fmap in Hin as ([f' s'] & -> & Hfs).
      destruct Hp as [-> | (s & Hs & ->)].
      * destruct (pair_files_value_members _ _ _ _ _ _ _ Hpairs Hfs) as (? & _ & ? & _).
        by exists f'.
      * destruct (pair_files_value_members _ _ _ _ _ _ _ Hpairs Hs) as (_ & ? & _ & ?).
        by exists s.
  - apply for_each_log.
    + by intros p ?%elem_of_nil.
    + apply listed_app.
    + intros st' [i f] Hin%enumerate_elem. simpl in Hin.
      destruct (import_file_stored AUDIO IMAGE add_file addNote rq w [] st' i f)
        as (ev & Hlog & Hst).
      exists ev. split; [done |]. intros p (Hm & Hp)%Hst.
      exists w. split; [apply list_elem_of_here |].
      destruct Hp as [-> | (s & Hs & _)]; [by exists f | by apply elem_of_nil in Hs].
Qed.

Lemma listed_weaken (ws ws' : list Walked) (ev : list Event) :
  (∀ w, w ∈ ws → w ∈ ws') → listed AUDIO IMAGE ws ev → listed AUDIO IMAGE ws' ev.
Proof.
  intros Hsub Hl p (w & Hw & H)%Hl. exists w. auto.
Qed.

Lemma run_import_stored (settings : gmap string Value) (rq : Request) (t : Tree) :
  listed AUDIO IMAGE (walk (recursive rq) (path rq) [] t)
    (run_import AUDIO IMAGE add_file addNote settings rq t).1.
Proof.
  unfold run_import.
  destruct (for_each_log (listed AUDIO IMAGE (walk (recursive rq) (path rq) [] t))
              (import_folder AUDIO IMAGE add_file addNote settings rq)
              (walk (recursive rq) (path rq) [] t)
              {| log := [ProgressStart (fileCount rq t)]; newCount := 0 |})
    as (ev & Hlog & Hev).
  - by intros p ?%elem_of_nil.
  - intros a b Ha Hb p. rewrite stored_media_app, elem_of_app. intros [? | ?]; auto.
  - intros st w Hw. destruct (import_folder_stored settings rq st w) as (ev & Hlog & Hev).
    exists ev. split; [done |]. apply (listed_weaken [w]); [| done].
    by intros w' ->%list_elem_of_singleton.
  - destruct (for_each _ _ _) as [st flow]. simpl in Hlog.
    intros p. destruct flow; simpl; rewrite Hlog, ?stored_media_app; simpl;
      rewrite ?app_nil_r; apply Hev.
Qed.

Lemma import_folder_notes (settings : gmap string Value) (rq : Request)
    (st : RunState) (w : Walked) :
  ∃ ev, log (import_folder AUDIO IMAGE add_file addNote settings rq st w).1
          = log st ++ ev ∧
        notes_filled AUDIO IMAGE rq w ev.
Proof.
  assert (Happ : ∀ a b, notes_filled AUDIO IMAGE rq w a → notes_filled AUDIO IMAGE rq w b →
                        notes_filled AUDIO IMAGE rq w (a ++ b)).
  { intros a b Ha Hb n c. rewrite elem_of_app. intros [? | ?]; eauto. }
  assert (Hnil : notes_filled AUDIO IMAGE rq w []).
  { by intros n c ?%elem_of_nil. }
  assert (Hnone : ∃ ev, log st = log st ++ ev ∧ notes_filled AUDIO IMAGE rq w ev).
  { exists []. by rewrite app_nil_r. }
  unfold import_folder. destruct (getitem settings "secondImageSuffix"); [| done].
  destruct (file_pairs_used rq).
  - destruct (pair_files_value _ _ _ _) as [pairs|]; [| done].
    apply for_each_log; [done | done |]. intros st' x _. apply import_file_notes.
  - apply for_each_log; [done | done |]. intros st' x _. apply import_file_notes.
Qed.

Lemma run_import_notes (settings : gmap string Value) (rq : Request) (t : Tree)
    (note : Note) (created : bool) :
  AddNote note created ∈ (run_import AUDIO IMAGE add_file addNote settings rq t).1 →
  ∃ c, note = fill_note AUDIO IMAGE rq c ∧ is_media AUDIO IMAGE (c_ext c) = true.
Proof.
  unfold run_import.
  destruct (for_each_log
              (fun ev => ∀ note created, AddNote note created ∈ ev →
                 ∃ c, note = fill_note AUDIO IMAGE rq c ∧
                      is_media AUDIO IMAGE (c_ext c) = true)
              (import_folder AUDIO IMAGE add_file addNote settings rq)
              (walk (recursive rq) (path rq) [] t)
              {| log := [ProgressStart (fileCount rq t)]; newCount := 0 |})
    as (ev & Hlog & Hev).
  - by intros n c ?%elem_of_nil.
  - intros a b Ha Hb n c. rewrite elem_of_app. intros [? | ?]; eauto.
  - intros st w _. destruct (import_folder_notes settings rq st w) as (ev & Hlog & Hev).
    exists ev. split; [done |]. intros n b (c & ? & ? & _)%Hev. eauto.
  - destruct (for_each _ _ _) as [st flow]. simpl in Hlog.
    destruct flow; simpl; rewrite Hlog; intros Hin;
      repeat (apply elem_of_app in Hin as [Hin | Hin]);
      repeat (apply elem_of_cons in Hin as [Hin | Hin]; [try discriminate Hin |]);
      try (by apply elem_of_nil in Hin); eauto.
Qed.

End RunLevel.

(** X5. The files handed to the host for storing are media files of the
    folders the walk visits, under the path of their folder: an excluded file
    is never stored. *)
Theorem stored_files_are_listed_media (AUDIO IMAGE : list string)
    (add_file : list Event → string → string) (addNote : list Event → Note → bool)
    (settings : gmap string Value) (rq : Request) (t : Tree) (p : string) :
  p ∈ stored_media (run_import AUDIO IMAGE add_file addNote settings rq t).1 →
  ∃ w f, w ∈ walk (recursive rq) (path rq) [] t ∧ f ∈ w_files w ∧
         is_media AUDIO IMAGE (file_ext f) = true ∧ p = OsPath.join (w_root w) f.
Proof.
  intros (w & Hw & f & Hf & Hm & ->)%run_import_stored. by exists w, f.
Qed.

Lemma stored_files_are_listed_media_witness :
  ∃ w f, w ∈ walk true "root" [] Scenario.tree ∧ f ∈ w_files w ∧
         is_media Sample.AUDIO Sample.IMAGE (file_ext f) = true ∧
         "root/a/img1_2.png" = OsPath.join (w_root w) f.
Proof.
  apply (stored_files_are_listed_media Sample.AUDIO Sample.IMAGE Sample.add_file
           Sample.addNote Sample.suffix_2 Scenario.request Scenario.tree).
  vm_compute. apply list_elem_of_further, list_elem_of_here.
Defined.

(** X6. A run without recursion stores files of the import folder itself
    only, whatever its subfolders hold. *)
Theorem non_recursive_run_stays_in_root (AUDIO IMAGE : list string)
    (add_file : list Event → string → string) (addNote : list Event → Note → bool)
    (settings : gmap string Value) (rq : Request)
    (files : list string) (dirs : list (string * Tree)) (p : string) :
  recursive rq = false →
  p ∈ stored_media (run_import AUDIO IMAGE add_file addNote settings rq
                      (Folder files dirs)).1 →
  ∃ f, f ∈ files ∧ is_media AUDIO IMAGE (file_ext f) = true ∧
       p = OsPath.join (path rq) f.
Proof.
  intros Hrec (w & Hw & f & Hf & Hm & ->)%run_import_stored.
  rewrite Hrec in Hw. simpl in Hw. apply list_elem_of_singleton in Hw as ->.
  by exists f.
Qed.

Lemma non_recursive_run_stays_in_root_witness :
  ∃ f, f ∈ ["top.jpg"] ∧ is_media Sample.AUDIO Sample.IMAGE (file_ext f) = true ∧
       "root/top.jpg" = OsPath.join "root" f.
Proof.
  apply (non_recursive_run_stays_in_root Sample.AUDIO Sample.IMAGE Sample.add_file
           Sample.addNote Sample.suffix_2
           {| path := "root"; recursive := false; model := ["Front"];
              fieldList := [("Front", Actions.media, false)] |}
           ["top.jpg"]
           [("f1", Folder [] [("f2", Folder [] [("f3", Folder ["deep.jpg"] [])])])]).
  - reflexivity.
  - vm_compute. apply list_elem_of_here.
Defined.

(** ** The values of a note *)

Lemma replace_char_removes (a b : ascii) (s : string) :
  a ≠ b → has_char a (PyStr.replace_char a b s) = false.
Proof.
  intros Hne. induction s as [|c s IH]; simpl; [done |].
  rewrite IH, orb_false_r. destruct (Ascii.eqb_spec c a) as [-> | Hc].
  - by apply Ascii.eqb_neq.
  - by apply Ascii.eqb_neq.
Qed.

Lemma fill_note_tags (AUDIO IMAGE : list string) (rq : Request) (c : Context)
    (tag : string) :
  tag ∈ note_tags (fill_note AUDIO IMAGE rq c) → has_char " " tag = false.
Proof.
  unfold fill_note.
  assert (Hinit : ∀ t, t ∈ note_tags (new_note (model rq)) → has_char " " t = false).
  { by intros t ?%elem_of_nil. }
  revert Hinit. generalize (new_note (model rq)). generalize (fieldList rq).
  intros l. induction l as [|[[field action] special] l IH]; intros note Hnote; simpl.
  - apply Hnote.
  - apply IH. intros t. unfold apply_mapping.
    destruct (evaluate AUDIO IMAGE action c) as [data|]; [| apply Hnote].
    unfold store. destruct (special && String.eqb field "Tags"); simpl; [| apply Hnote].
    intros [Hold | (t0 & -> & _)%list_elem_of_fmap]%elem_of_app; [by apply Hnote |].
    by apply replace_char_removes.
Qed.

(** X7. No tag of a note handed to the host contains a space: the spaces of
    folder names and of every other value mapped to Tags are replaced by
    underscores. *)
Theorem tags_have_no_spaces (AUDIO IMAGE : list string)
    (add_file : list Event → string → string) (addNote : list Event → Note → bool)
    (settings : gmap string Value) (rq : Request) (t : Tree)
    (note : Note) (created : bool) (tag : string) :
  AddNote note created ∈ (run_import AUDIO IMAGE add_file addNote settings rq t).1 →
  tag ∈ note_tags note →
  has_char " " tag = false.
Proof.
  intros (c & -> & _)%run_import_notes. apply fill_note_tags.
Qed.




Section References.

Variables AUDIO IMAGE : list string.
Variable add_file : list Event -> string -> string.
Variable addNote : list Event -> Note -> bool.
Variable rq : Request.
Hypothesis fields_distinct : NoDup (map (fun m => m.1.1) (fieldList rq)).







End References.


Lemma tags_have_no_spaces_witness : has_char " " "my_folder" = false.
Proof.
  apply (tags_have_no_spaces Sample.AUDIO Sample.IMAGE Sample.add_file Sample.addNote
           Sample.suffix_2 SpacedFolder.request SpacedFolder.tree SpacedFolder.note true).
  - vm_compute. do 2 apply list_elem_of_further. apply list_elem_of_here.
  - apply list_elem_of_here.
Defined.


(** ** Runs that the host accepts *)

Section Accepted.

Variables AUDIO IMAGE : list string.
Variable add_file : list Event -> string -> string.
Variable addNote : list Event -> Note -> bool.
Hypothesis accepts : ∀ l n, addNote l n = true.

Lemma import_file_plain_step (rq : Request) (w : Walked) (pairs : list (string * string))
    (st : RunState) (i : nat) (f : string) :
  file_pairs_used rq = false →
  is_media AUDIO IMAGE (file_ext f) = true →
  ∃ note,
    import_file AUDIO IMAGE add_file addNote rq w pairs st (i, f)
      = ({| log := log st ++ [AddFile (OsPath.join (w_root w) f); AddNote note true;
                              ProgressUpdate (S (newCount st))];
            newCount := S (newCount st) |}, Next).
Proof.
  intros Hu Hm. unfold import_file. rewrite Hu, Hm. simpl. rewrite accepts.
  eexists. by rewrite <- app_assoc.
Qed.

Lemma import_file_paired_step (rq : Request) (w : Walked) (pairs : list (string * string))
    (st : RunState) (i : nat) (p s : string) :
  file_pairs_used rq = true →
  is_media AUDIO IMAGE (file_ext p) = true →
  odict_get pairs p = Some s →
  ∃ note,
    import_file AUDIO IMAGE add_file addNote rq w pairs st (i, p)
      = ({| log := log st ++ [AddFile (OsPath.join (w_root w) p);
                              AddFile (OsPath.join (w_root w) s); AddNote note true;
                              ProgressUpdate (S (newCount st))];
            newCount := S (newCount st) |}, Next).
Proof.
  intros Hu Hm Hget. unfold import_file. rewrite Hu, Hm, Hget. simpl. rewrite accepts.
  eexists. by rewrite <- !app_assoc.
Qed.

Lemma for_each_plain (rq : Request) (w : Walked) (pairs : list (string * string))
    (files : list string) (k : nat) (st : RunState) :
  file_pairs_used rq = false →
  ∃ st' ev,
    for_each (import_file AUDIO IMAGE add_file addNote rq w pairs)
      (zip (seq k (length files)) files) st = (st', Next) ∧
    log st' = log st ++ ev ∧
    newCount st' = newCount st + length (media_files AUDIO IMAGE files) ∧
    stored_media ev = map (OsPath.join (w_root w)) (media_files AUDIO IMAGE files) ∧
    length (created_notes ev) = length (media_files AUDIO IMAGE files).
Proof.
  intros Hu. revert k st. induction files as [|f files IH]; intros k st.
  - exists st, []. rewrite app_nil_r. simpl. split_and!; try done; lia.
  - rewrite zip_seq_cons, for_each_cons. unfold media_files. simpl List.filter.
    fold (media_files AUDIO IMAGE files).
    destruct (is_media AUDIO IMAGE (file_ext f)) eqn:Hm.
    + destruct (import_file_plain_step rq w pairs st k f Hu Hm) as [note ->].
      match goal with |- context [for_each _ _ ?s] =>
        destruct (IH (S k) s) as (st' & ev & Hrun & Hlog & Hcount & Hstored & Hnotes) end.
      exists st'. eexists. split; [exact Hrun |]. simpl in *. split_and!.
      * rewrite Hlog, <- !app_assoc. reflexivity.
      * lia.
      * rewrite stored_media_app, Hstored. reflexivity.
      * rewrite created_notes_app, length_app, Hnotes. reflexivity.
    + rewrite import_file_excluded by done. apply IH.
Qed.

Lemma import_folder_plain (settings : gmap string Value) (rq : Request)
    (st : RunState) (w : Walked) (v : Value) :
  settings !! "secondImageSuffix" = Some v →
  file_pairs_used rq = false →
  ∃ st' ev,
    import_folder AUDIO IMAGE add_file addNote settings rq st w = (st', Next) ∧
    log st' = log st ++ ev ∧
    newCount st' = newCount st + length (walk_media AUDIO IMAGE [w]) ∧
    stored_media ev = walk_media AUDIO IMAGE [w] ∧
    length (created_notes ev) = length (walk_media AUDIO IMAGE [w]).
Proof.
  intros Hv Hu. unfold import_folder, getitem. rewrite Hv, Hu.
  unfold walk_media. simpl. rewrite app_nil_r, length_map.
  by apply for_each_plain.
Qed.

Lemma walk_plain (settings : gmap string Value) (rq : Request)
    (ws : list Walked) (st : RunState) (v : Value) :
  settings !! "secondImageSuffix" = Some v →
  file_pairs_used rq = false →
  ∃ st' ev,
    for_each (import_folder AUDIO IMAGE add_file addNote settings rq) ws st = (st', Next) ∧
    log st' = log st ++ ev ∧
    newCount st' = newCount st + length (walk_media AUDIO IMAGE ws) ∧
    stored_media ev = walk_media AUDIO IMAGE ws ∧
    length (created_notes ev) = length (walk_media AUDIO IMAGE ws).
Proof.
  intros Hv Hu. revert st. induction ws as [|w ws IH]; intros st; simpl.
  - exists st, []. rewrite app_nil_r. split_and!; try done; lia.
  - destruct (import_folder_plain settings rq st w v Hv Hu)
      as (st1 & ev1 & -> & Hl1 & Hc1 & Hs1 & Hn1).
    destruct (IH st1) as (st2 & ev2 & -> & Hl2 & Hc2 & Hs2 & Hn2).
    exists st2, (ev1 ++ ev2). unfold walk_media in *. simpl in *.
    rewrite app_nil_r in Hc1, Hs1, Hn1.
    rewrite stored_media_app, created_notes_app, !length_app, Hs1, Hs2, Hn1, Hn2.
    split_and!; try done.
    + by rewrite Hl2, Hl1, app_assoc.
    + lia.
Qed.

Lemma odict_get_NoDup (d : list (string * string)) (k v : string) :
  NoDup (odict_keys d) → (k, v) ∈ d → odict_get d k = Some v.
Proof.
  intros Hnd Hin. destruct (odict_get_key d k) as [v' Hv'].
  - unfold odict_keys. apply list_elem_of_fmap. by exists (k, v).
  - rewrite Hv'. f_equal. apply odict_get_elem in Hv'.
    by apply (odict_NoDup_functional d k).
Qed.

Lemma for_each_paired (rq : Request) (w : Walked) (pairs d : list (string * string))
    (k : nat) (st : RunState) :
  file_pairs_used rq = true →
  (∀ kv, kv ∈ d → odict_get pairs kv.1 = Some kv.2 ∧
                  is_media AUDIO IMAGE (file_ext kv.1) = true) →
  ∃ st' ev,
    for_each (import_file AUDIO IMAGE add_file addNote rq w pairs)
      (zip (seq k (length (odict_keys d))) (odict_keys d)) st = (st', Next) ∧
    log st' = log st ++ ev ∧
    newCount st' = newCount st + length d ∧
    stored_media ev = pair_paths (w_root w) d ∧
    length (created_notes ev) = length d.
Proof.
  intros Hu. revert k st. induction d as [|[p s] d IH]; intros k st Hd.
  - exists st, []. rewrite app_nil_r. simpl. split_and!; try done; lia.
  - destruct (Hd (p, s)) as [Hget Hm]; [apply list_elem_of_here |]. simpl in Hget, Hm.
    change (odict_keys ((p, s) :: d)) with (p :: odict_keys d).
    rewrite zip_seq_cons, for_each_cons.
    destruct (import_file_paired_step rq w pairs st k p s Hu Hm Hget) as [note ->].
    match goal with |- context [for_each _ _ ?s0] =>
      destruct (IH (S k) s0) as (st' & ev & Hrun & Hlog & Hcount & Hstored & Hnotes) end.
    { intros kv Hkv. apply Hd. by apply list_elem_of_further. }
    exists st'. eexists. split; [exact Hrun |]. simpl in *. split_and!.
    + rewrite Hlog, <- !app_assoc. reflexivity.
    + lia.
    + rewrite stored_media_app, Hstored. reflexivity.
    + rewrite created_notes_app, length_app, Hnotes. reflexivity.
Qed.

End Accepted.

(** X9. When no mapping asks for a secondary file and the host creates every
    note, the run stores every media file of every visited folder, in the
    order of the walk and of the listings, creates one note for each, and
    ends with the completion dialog for that number. *)
Theorem plain_run_imports_every_media_file (AUDIO IMAGE : list string)
    (add_file : list Event → string → string) (addNote : list Event → Note → bool)
    (settings : gmap string Value) (rq : Request) (t : Tree) (v : Value) :
  (∀ l n, addNote l n = true) →
  settings !! "secondImageSuffix" = Some v →
  file_pairs_used rq = false →
  let run := run_import AUDIO IMAGE add_file addNote settings rq t in
  let all := walk_media AUDIO IMAGE (walk (recursive rq) (path rq) [] t) in
  run.2 = Returned (length all) false ∧
  stored_media run.1 = all ∧
  length (created_notes run.1) = length all ∧
  ∃ before, run.1 = before ++ [ProgressFinish; Tooltip (length all); DeckBrowserRefresh;
                                ShowCompletionDialog (length all)].
Proof.
  intros Hacc Hv Hu run all. subst run. unfold run_import.
  destruct (walk_plain AUDIO IMAGE add_file addNote Hacc settings rq
              (walk (recursive rq) (path rq) [] t)
              {| log := [ProgressStart (fileCount rq t)]; newCount := 0 |} v Hv Hu)
    as (st' & ev & -> & Hlog & Hcount & Hstored & Hnotes).
  fold all in Hcount, Hstored, Hnotes. cbn [fst snd log newCount] in *.
  rewrite Nat.add_0_l in Hcount. rewrite Hcount. split_and!.
  - done.
  - rewrite Hlog, !stored_media_app, Hstored. simpl. by rewrite app_nil_r.
  - rewrite Hlog, !created_notes_app, !length_app, Hnotes. simpl. lia.
  - by exists (log st').
Qed.

Lemma plain_run_imports_every_media_file_witness :
  MixedFolder.run.2 = Returned 2 false ∧
  stored_media MixedFolder.run.1 = ["root/a.jpg"; "root/b.jpg"].
Proof.
  destruct (plain_run_imports_every_media_file Sample.AUDIO Sample.IMAGE Sample.add_file
              Sample.addNote Sample.suffix_2 MixedFolder.request MixedFolder.tree
              (VStr "_2")) as (Hout & Hstored & _).
  - intros l n. reflexivity.
  - reflexivity.
  - reflexivity.
  - split; [exact Hout | exact Hstored].
Defined.

Lemma pair_files_value_NoDup (AUDIO IMAGE : list string) (file_pair_suffix : Value)
    (files : list string) (pairs : list (string * string)) :
  pair_files_value AUDIO IMAGE file_pair_suffix files = Ok pairs →
  NoDup (odict_keys pairs).
Proof.
  destruct file_pair_suffix as [suffix| |]; simpl.
  - apply pair_files_NoDup.
  - destruct (existsb _ _); [done |]. intros [= <-]. apply NoDup_nil_2.
  - destruct (existsb _ _); [done |]. intros [= <-]. apply NoDup_nil_2.
Qed.

(** X10. With a mapping for the secondary file and a host that creates every
    note, a folder whose indexing succeeds gives one note for each pair of the
    index, in its order, and for each pair the primary file is stored before
    the secondary file; the lookup of the secondary at line 173 never
    fails. *)
Theorem paired_folder_stores_pairs (AUDIO IMAGE : list string)
    (add_file : list Event → string → string) (addNote : list Event → Note → bool)
    (settings : gmap string Value) (rq : Request) (st : RunState) (w : Walked)
    (v : Value) (pairs : list (string * string)) :
  (∀ l n, addNote l n = true) →
  settings !! "secondImageSuffix" = Some v →
  file_pairs_used rq = true →
  pair_files_value AUDIO IMAGE v (w_files w) = Ok pairs →
  ∃ st' ev,
    import_folder AUDIO IMAGE add_file addNote settings rq st w = (st', Next) ∧
    log st' = log st ++ ev ∧
    newCount st' = newCount st + length pairs ∧
    stored_media ev = pair_paths (w_root w) pairs ∧
    length (created_notes ev) = length pairs.
Proof.
  intros Hacc Hv Hu Hpairs. unfold import_folder, getitem. rewrite Hv, Hu, Hpairs.
  apply for_each_paired; [done | done |].
  intros [p s] Hps. simpl. split.
  - apply odict_get_NoDup; [| done]. by apply (pair_files_value_NoDup AUDIO IMAGE v (w_files w)).
  - by destruct (pair_files_value_members _ _ _ _ _ _ _ Hpairs Hps) as (_ & _ & ? & _).
Qed.

Lemma paired_folder_stores_pairs_witness :
  ∃ st' ev,
    import_folder Sample.AUDIO Sample.IMAGE Sample.add_file Sample.addNote
      Sample.suffix_2 Scenario.request {| log := []; newCount := 0 |}
      {| w_root := "root/a"; w_rel := ["a"];
         w_files := ["image_2_2.jpg"; "image.jpg"; "image_2_2_2.jpg"; "image_2.jpg"] |}
      = (st', Next) ∧
    log st' = [] ++ ev ∧
    newCount st' = 0 + 2 ∧
    stored_media ev = ["root/a/image.jpg"; "root/a/image_2.jpg";
                       "root/a/image_2_2.jpg"; "root/a/image_2_2_2.jpg"] ∧
    length (created_notes ev) = 2.
Proof.
  apply (paired_folder_stores_pairs Sample.AUDIO Sample.IMAGE Sample.add_file
           Sample.addNote Sample.suffix_2 Scenario.request {| log := []; newCount := 0 |}
           {| w_root := "root/a"; w_rel := ["a"];
              w_files := ["image_2_2.jpg"; "image.jpg"; "image_2_2_2.jpg"; "image_2.jpg"] |}
           (VStr "_2")
           [("image.jpg", "image_2.jpg"); ("image_2_2.jpg", "image_2_2_2.jpg")]).
  - intros l n. reflexivity.
  - reflexivity.
  - reflexivity.
  - vm_compute. reflexivity.
Defined.

(** ** Exceptions and folders without media files *)

Section Raising.

Variable file_pair_suffix : string.
Variable idx : gmap string string.

Lemma match_pair_raise (pf : string) (pi : PairIndex) (e : exn) :
  match_pair file_pair_suffix idx pf pi = Raise e →
  is_Some (idx !! pf) →
  e = KeyError (pf +:+ file_pair_suffix) ∧ idx !! (pf +:+ file_pair_suffix) = None.
Proof.
  unfold match_pair, getitem, mbind, result_bind. intros Hr [p Hp]. rewrite Hp in Hr.
  destruct (idx !! (pf +:+ file_pair_suffix)); [done |]. by injection Hr as <-.
Qed.

Lemma match_primaries_raise (names : list string) (pi : PairIndex) (e : exn) :
  match_primaries file_pair_suffix idx names pi = Raise e →
  (∀ pf, pf ∈ names → is_Some (idx !! pf)) →
  ∃ pf, pf ∈ names ∧ e = KeyError (pf +:+ file_pair_suffix) ∧
        idx !! (pf +:+ file_pair_suffix) = None.
Proof.
  revert pi. induction names as [|pf names IH]; simpl; intros pi; [done |].
  unfold mbind, result_bind.
  destruct (match_pair file_pair_suffix idx pf pi) as [pi1|e1] eqn:H1; intros Hr Hidx.
  - destruct (IH pi1 Hr) as (pf' & ? & ?).
    + intros pf' ?. apply Hidx. by apply list_elem_of_further.
    + exists pf'. split; [by apply list_elem_of_further | done].
  - injection Hr as <-. exists pf. split; [apply list_elem_of_here |].
    apply (match_pair_raise pf pi); [done |]. apply Hidx, list_elem_of_here.
Qed.

Lemma match_secondaries_raise (names : list string) (pi : PairIndex) (e : exn) :
  match_secondaries file_pair_suffix idx names pi = Raise e →
  (∀ pf, pf ∈ names → is_Some (idx !! pf)) →
  ∃ pf, pf ∈ names ∧ e = KeyError (pf +:+ file_pair_suffix) ∧
        idx !! (pf +:+ file_pair_suffix) = None.
Proof.
  revert pi. induction names as [|pf names IH]; simpl; intros pi; [done |].
  assert (Hrest : ∀ pi1, match_secondaries file_pair_suffix idx names pi1 = Raise e →
            (∀ pf0, pf0 ∈ pf :: names → is_Some (idx !! pf0)) →
            ∃ pf0, pf0 ∈ pf :: names ∧ e = KeyError (pf0 +:+ file_pair_suffix) ∧
                   idx !! (pf0 +:+ file_pair_suffix) = None).
  { intros pi1 Hr Hidx. destruct (IH pi1 Hr) as (pf' & ? & ?).
    - intros pf' ?. apply Hidx. by apply list_elem_of_further.
    - exists pf'. split; [by apply list_elem_of_further | done]. }
  destruct (secondary_media_matched pi !! pf); [apply Hrest |].
  unfold mbind, result_bind.
  destruct (match_pair file_pair_suffix idx pf pi) as [pi1|e1] eqn:H1; [apply Hrest |].
  intros [= <-] Hidx. exists pf. split; [apply list_elem_of_here |].
  apply (match_pair_raise pf pi); [done |]. apply Hidx, list_elem_of_here.
Qed.

End Raising.

Lemma pair_files_raise (AUDIO IMAGE : list string)
    (file_pair_suffix : string) (files : list string) (e : exn) :
  pair_files AUDIO IMAGE file_pair_suffix files = Raise e →
  ∃ f, f ∈ files ∧ is_media AUDIO IMAGE (file_ext f) = true ∧
       e = KeyError ((OsPath.splitext f).1 +:+ file_pair_suffix) ∧
       ∀ g, g ∈ files → is_media AUDIO IMAGE (file_ext g) = true →
            (OsPath.splitext g).1 ≠ (OsPath.splitext f).1 +:+ file_pair_suffix.
Proof.
  intros Hrun. unfold pair_files, mbind, result_bind in Hrun.
  set (ix := index_files AUDIO IMAGE file_pair_suffix files) in *.
  destruct (index_files_inv AUDIO IMAGE file_pair_suffix files) as [Hs Hp Hl Hi].
  fold ix in Hs, Hp, Hl, Hi.
  assert (Hfound : ∃ pf b, classified AUDIO IMAGE file_pair_suffix files pf b ∧
            e = KeyError (pf +:+ file_pair_suffix) ∧
            file_ending_index ix !! (pf +:+ file_pair_suffix) = None).
  { destruct (match_primaries _ _ (primary_media ix) _) as [pi1|e1] eqn:H1.
    - destruct (match_secondaries _ _ _ pi1) as [pi2|e2] eqn:H2; [done |].
      injection Hrun as ->.
      destruct (match_secondaries_raise _ _ _ _ _ H2) as (pf & Hpf & He & Hnone).
      + intros pf Hpf. apply sort_by_len_elem, Hs in Hpf as (f & Hf & Hm & <- & _).
        by apply Hi.
      + apply sort_by_len_elem, Hs in Hpf. by exists pf, true.
    - injection Hrun as ->.
      destruct (match_primaries_raise _ _ _ _ _ H1) as (pf & Hpf & He & Hnone).
      + intros pf Hpf. apply Hp in Hpf as (f & Hf & Hm & <- & _). by apply Hi.
      + apply Hp in Hpf. by exists pf, false. }
  destruct Hfound as (pf & b & (f & Hf & Hm & <- & _) & -> & Hnone).
  exists f. split_and!; try done. intros g Hg Hmg Heq.
  destruct (Hi g Hg Hmg) as [g' Hg']. rewrite Heq in Hg'. congruence.
Qed.
(** X11. The indexing of a folder fails in two ways only. With a suffix that
    is a string: with the key-lookup error for the base name of a media file
    of the folder followed by the suffix, when no media file of the folder has
    that base name. With a suffix that is no string: with a type error, when
    the folder holds a media file. *)
Theorem indexing_errors (AUDIO IMAGE : list string)
    (file_pair_suffix : Value) (files : list string) (e : exn) :
  pair_files_value AUDIO IMAGE file_pair_suffix files = Raise e →
  (∃ suffix f,
     file_pair_suffix = VStr suffix ∧
     f ∈ files ∧ is_media AUDIO IMAGE (file_ext f) = true ∧
     e = KeyError ((OsPath.splitext f).1 +:+ suffix) ∧
     ∀ g, g ∈ files → is_media AUDIO IMAGE (file_ext g) = true →
          (OsPath.splitext g).1 ≠ (OsPath.splitext f).1 +:+ suffix) ∨
  ((∀ suffix, file_pair_suffix ≠ VStr suffix) ∧
   e = TypeError ∧
   ∃ f, f ∈ files ∧ is_media AUDIO IMAGE (file_ext f) = true).
Proof.
  assert (Hother : (∀ suffix, file_pair_suffix ≠ VStr suffix) →
            (if existsb (fun f => is_media AUDIO IMAGE (file_ext f)) files
             then Raise TypeError else Ok ([] : list (string * string))) = Raise e →
            (∀ suffix, file_pair_suffix ≠ VStr suffix) ∧ e = TypeError ∧
            ∃ f, f ∈ files ∧ is_media AUDIO IMAGE (file_ext f) = true).
  { intros Hv. destruct (existsb _ _) eqn:Hex; [| done]. intros [= <-].
    split; [done |]. split; [done |].
    apply existsb_exists in Hex as (f & Hf & Hm). exists f.
    split; [by apply list_elem_of_In | done]. }
  destruct file_pair_suffix as [suffix|b|m]; simpl.
  - intros (f & Hrest)%pair_files_raise. left. by exists suffix, f.
  - intros Hrun. right. by apply Hother.
  - intros Hrun. right. by apply Hother.
Qed.

Lemma indexing_errors_witness :
  (∃ suffix f,
     VBool true = VStr suffix ∧
     f ∈ ["a.txt"; "clip.mp3"] ∧ is_media Sample.AUDIO Sample.IMAGE (file_ext f) = true ∧
     TypeError = KeyError ((OsPath.splitext f).1 +:+ suffix) ∧
     ∀ g, g ∈ ["a.txt"; "clip.mp3"] →
          is_media Sample.AUDIO Sample.IMAGE (file_ext g) = true →
          (OsPath.splitext g).1 ≠ (OsPath.splitext f).1 +:+ suffix) ∨
  ((∀ suffix, VBool true ≠ VStr suffix) ∧
   TypeError = TypeError ∧
   ∃ f, f ∈ ["a.txt"; "clip.mp3"] ∧
        is_media Sample.AUDIO Sample.IMAGE (file_ext f) = true).
Proof.
  apply (indexing_errors Sample.AUDIO Sample.IMAGE (VBool true) ["a.txt"; "clip.mp3"]).
  vm_compute. reflexivity.
Defined.

Section Quiet.

Variables AUDIO IMAGE : list string.
Variable add_file : list Event -> string -> string.
Variable addNote : list Event -> Note -> bool.

Lemma for_each_never_raises {A : Type} (body : RunState → A → RunState * Flow)
    (items : list A) (st : RunState) (e : exn) :
  (∀ st x, x ∈ items → (body st x).2 ≠ Raised e) →
  (for_each body items st).2 ≠ Raised e.
Proof.
  revert st. induction items as [|x items IH]; intros st Hbody; simpl; [done |].
  pose proof (Hbody st x (list_elem_of_here _ _)) as Hx.
  destruct (body st x) as [st1 []]; simpl in *; [| done | done].
  apply IH. intros st' y Hy. apply Hbody. by apply list_elem_of_further.
Qed.

Lemma import_file_never_raises (rq : Request) (w : Walked)
    (pairs : list (string * string)) (st : RunState) (i : nat) (f : string) (e : exn) :
  (file_pairs_used rq = true → is_Some (odict_get pairs f)) →
  (import_file AUDIO IMAGE add_file addNote rq w pairs st (i, f)).2 ≠ Raised e.
Proof.
  intros Hget. unfold import_file.
  destruct (is_media AUDIO IMAGE (file_ext f)); simpl; [| done].
  destruct (file_pairs_used rq).
  - destruct Hget as [s ->]; [done |]. simpl. by destruct (addNote _ _).
  - simpl. by destruct (addNote _ _).
Qed.

Lemma index_files_no_media (file_pair_suffix : string) (files : list string) :
  (∀ f, f ∈ files → is_media AUDIO IMAGE (file_ext f) = false) →
  index_files AUDIO IMAGE file_pair_suffix files
    = {| file_ending_index := ∅; primary_media := []; secondary_media := [] |}.
Proof.
  unfold index_files. generalize ({| file_ending_index := ∅; primary_media := [];
                                      secondary_media := [] |}).
  induction files as [|f files IH]; intros ix Hall; simpl; [done |].
  unfold index_file at 2. rewrite (Hall f) by apply list_elem_of_here. simpl.
  apply IH. intros g Hg. apply Hall. by apply list_elem_of_further.
Qed.

Lemma for_each_excluded (rq : Request) (w : Walked) (pairs : list (string * string))
    (files : list string) (k : nat) (st : RunState) :
  (∀ f, f ∈ files → is_media AUDIO IMAGE (file_ext f) = false) →
  for_each (import_file AUDIO IMAGE add_file addNote rq w pairs)
    (zip (seq k (length files)) files) st = (st, Next).
Proof.
  revert k. induction files as [|f files IH]; intros k Hall; [done |].
  rewrite zip_seq_cons, for_each_cons.
  rewrite import_file_excluded by apply Hall, list_elem_of_here.
  apply IH. intros g Hg. apply Hall. by apply list_elem_of_further.
Qed.

Lemma import_folder_raised (settings : gmap string Value) (rq : Request)
    (st st' : RunState) (w : Walked) (e : exn) :
  import_folder AUDIO IMAGE add_file addNote settings rq st w = (st', Raised e) →
  st' = st ∧
  ((settings !! "secondImageSuffix" = None ∧ e = KeyError "secondImageSuffix") ∨
   (∃ v, settings !! "secondImageSuffix" = Some v ∧ file_pairs_used rq = true ∧
         pair_files_value AUDIO IMAGE v (w_files w) = Raise e)).
Proof.
  unfold import_folder, getitem.
  destruct (settings !! "secondImageSuffix") as [v|] eqn:Hv.
  - destruct (file_pairs_used rq) eqn:Hu.
    + destruct (pair_files_value AUDIO IMAGE v (w_files w)) as [pairs|e1] eqn:Hpairs.
      * intros Hrun. exfalso.
        apply (for_each_never_raises
                 (import_file AUDIO IMAGE add_file addNote rq w pairs)
                 (enumerate (odict_keys pairs)) st e); [| by rewrite Hrun].
        intros st0 [i f] Hin%enumerate_elem.
        apply import_file_never_raises. intros _. by apply odict_get_key.
      * intros [= <- <-]. split; [done |]. right. by exists v.
    + intros Hrun. exfalso.
      apply (for_each_never_raises
               (import_file AUDIO IMAGE add_file addNote rq w [])
               (enumerate (w_files w)) st e); [| by rewrite Hrun].
      intros st0 [i f] _. apply import_file_never_raises. by rewrite Hu.
  - intros [= <- <-]. split; [done |]. by left.
Qed.

End Quiet.

(** X12. An exception leaves a folder before any of its files is stored, and
    comes either from the read of the suffix key or from the indexing of the
    folder; the loop over the files never raises, the lookup of the secondary
    at line 173 included. *)
Theorem folder_exceptions (AUDIO IMAGE : list string)
    (add_file : list Event → string → string) (addNote : list Event → Note → bool)
    (settings : gmap string Value) (rq : Request) (st st' : RunState) (w : Walked)
    (e : exn) :
  import_folder AUDIO IMAGE add_file addNote settings rq st w = (st', Raised e) →
  st' = st ∧
  ((settings !! "secondImageSuffix" = None ∧ e = KeyError "secondImageSuffix") ∨
   (∃ v, settings !! "secondImageSuffix" = Some v ∧ file_pairs_used rq = true ∧
         pair_files_value AUDIO IMAGE v (w_files w) = Raise e)).
Proof. apply import_folder_raised. Qed.

Lemma folder_exceptions_witness :
  {| log := []; newCount := 0 |} = {| log := []; newCount := 0 |} ∧
  ((Sample.suffix_2 !! "secondImageSuffix" = None ∧
    KeyError "clip_2" = KeyError "secondImageSuffix") ∨
   (∃ v, Sample.suffix_2 !! "secondImageSuffix" = Some v ∧
         file_pairs_used Scenario.request = true ∧
         pair_files_value Sample.AUDIO Sample.IMAGE v ["clip.mp3"]
           = Raise (KeyError "clip_2"))).
Proof.
  apply (folder_exceptions Sample.AUDIO Sample.IMAGE Sample.add_file Sample.addNote
           Sample.suffix_2 Scenario.request {| log := []; newCount := 0 |}
           {| log := []; newCount := 0 |}
           {| w_root := "root/b"; w_rel := ["b"]; w_files := ["clip.mp3"] |}
           (KeyError "clip_2")).
  vm_compute. reflexivity.
Defined.

Lemma existsb_none {A : Type} (P : A → bool) (l : list A) :
  (∀ x, x ∈ l → P x = false) → existsb P l = false.
Proof.
  induction l as [|x l IH]; simpl; intros Hall; [done |].
  rewrite (Hall x) by apply list_elem_of_here. simpl.
  apply IH. intros y Hy. apply Hall. by apply list_elem_of_further.
Qed.

(** X13. A folder without media files is passed over, whatever the mappings
    and the value of the suffix are: nothing is stored, no note is attempted
    and nothing is raised. *)
Theorem folder_without_media_is_skipped (AUDIO IMAGE : list string)
    (add_file : list Event → string → string) (addNote : list Event → Note → bool)
    (settings : gmap string Value) (rq : Request) (st : RunState) (w : Walked)
    (v : Value) :
  settings !! "secondImageSuffix" = Some v →
  (∀ f, f ∈ w_files w → is_media AUDIO IMAGE (file_ext f) = false) →
  import_folder AUDIO IMAGE add_file addNote settings rq st w = (st, Next).
Proof.
  intros Hv Hall. unfold import_folder, getitem. rewrite Hv.
  destruct (file_pairs_used rq).
  - assert (Hpairs : pair_files_value AUDIO IMAGE v (w_files w) = Ok []).
    { destruct v as [suffix| |]; simpl.
      - unfold pair_files. by rewrite index_files_no_media.
      - by rewrite existsb_none.
      - by rewrite existsb_none. }
    by rewrite Hpairs.
  - by apply for_each_excluded.
Qed.

Lemma folder_without_media_is_skipped_witness :
  import_folder Sample.AUDIO Sample.IMAGE Sample.add_file Sample.addNote
    Sample.suffix_2 Scenario.request {| log := []; newCount := 0 |}
    {| w_root := "root"; w_rel := []; w_files := ["notes.txt"; "README"] |}
  = ({| log := []; newCount := 0 |}, Next).
Proof.
  apply (folder_without_media_is_skipped _ _ _ _ _ _ _ _ (VStr "_2")).
  - reflexivity.
  - intros f Hf. repeat (apply elem_of_cons in Hf as [-> | Hf]; [reflexivity |]).
    by apply elem_of_nil in Hf.
Defined.

(** ** The calls of a run as a whole *)

Lemma for_each_raised {A : Type} (body : RunState → A → RunState * Flow)
    (items : list A) (st st' : RunState) (e : exn) :
  for_each body items st = (st', Raised e) →
  ∃ st1 x, x ∈ items ∧ body st1 x = (st', Raised e).
Proof.
  revert st. induction items as [|x items IH]; intros st; simpl; [done |].
  destruct (body st x) as [st1 flow] eqn:Hx. destruct flow.
  - intros (st2 & y & Hy & Hbody)%IH. exists st2, y.
    split; [by apply list_elem_of_further | done].
  - done.
  - intros [= <- <-]. exists st, x. split; [apply list_elem_of_here | done].
Qed.

Section RunShape.

Variables AUDIO IMAGE : list string.
Variable add_file : list Event -> string -> string.
Variable addNote : list Event -> Note -> bool.

Lemma import_file_loop_events (rq : Request) (w : Walked) (pairs : list (string * string))
    (st : RunState) (item : nat * string) :
  ∃ ev, log (import_file AUDIO IMAGE add_file addNote rq w pairs st item).1
          = log st ++ ev ∧
        forallb loop_event ev = true.
Proof.
  destruct item as [i fileName]. unfold import_file.
  destruct (is_media AUDIO IMAGE (file_ext fileName)); simpl.
  2: { exists []. by rewrite app_nil_r. }
  destruct (file_pairs_used rq).
  - destruct (odict_get pairs fileName) as [secondary|]; simpl.
    + destruct (addNote _ _); simpl; rewrite <- !app_assoc; simpl; by eexists.
    + by eexists.
  - simpl. destruct (addNote _ _); simpl; rewrite <- !app_assoc; simpl; by eexists.
Qed.

Lemma loop_events_app (a b : list Event) :
  forallb loop_event a = true → forallb loop_event b = true →
  forallb loop_event (a ++ b) = true.
Proof. intros Ha Hb. by rewrite forallb_app, Ha, Hb. Qed.

Lemma import_folder_loop_events (settings : gmap string Value) (rq : Request)
    (st : RunState) (w : Walked) :
  ∃ ev, log (import_folder AUDIO IMAGE add_file addNote settings rq st w).1
          = log st ++ ev ∧
        forallb loop_event ev = true.
Proof.
  assert (Hnone : ∃ ev, log st = log st ++ ev ∧ forallb loop_event ev = true).
  { exists []. by rewrite app_nil_r. }
  unfold import_folder. destruct (getitem settings "secondImageSuffix"); [| done].
  destruct (file_pairs_used rq).
  - destruct (pair_files_value _ _ _ _) as [pairs|]; [| done].
    apply for_each_log; [done | apply loop_events_app |].
    intros st' item _. apply import_file_loop_events.
  - apply for_each_log; [done | apply loop_events_app |].
    intros st' item _. apply import_file_loop_events.
Qed.

Lemma walk_loop_events (settings : gmap string Value) (rq : Request)
    (ws : list Walked) (st : RunState) :
  ∃ ev, log (for_each (import_folder AUDIO IMAGE add_file addNote settings rq) ws st).1
          = log st ++ ev ∧
        forallb loop_event ev = true.
Proof.
  apply for_each_log; [done | apply loop_events_app |].
  intros st' w _. apply import_folder_loop_events.
Qed.

End RunShape.

Lemma sum_list_app (a b : list nat) : sum_list (a ++ b) = sum_list a + sum_list b.
Proof. induction a as [|x a IH]; simpl; [done | lia]. Qed.

Lemma walk_counts_files (t : Tree) (top : string) (rel : list string) :
  sum_list (map (fun w => length (w_files w)) (walk true top rel t)) = tree_files t.
Proof.
  revert t top rel. fix IH 1. intros [files dirs] top rel.
  cbn [walk tree_files map sum_list w_files]. f_equal.
  induction dirs as [|[name sub] dirs IHdirs]; [done |].
  cbn [flat_map map sum_list]. rewrite map_app, sum_list_app, IHdirs. f_equal.
  apply IH.
Qed.

(** X14. The progress bar is opened with the number of files of the whole
    tree below the import folder, subfolders included even when they are not
    imported, before any file is stored. Up to the end of the loops the
    progress bar is not closed and no tooltip, refresh or dialog is made. A
    run that returns then closes the progress bar, shows the count, refreshes
    the deck browser and shows one dialog, in this order; a run that an
    exception leaves makes none of these four calls, so the progress bar stays
    open. *)
Theorem run_closing_calls (AUDIO IMAGE : list string)
    (add_file : list Event → string → string) (addNote : list Event → Note → bool)
    (settings : gmap string Value) (rq : Request) (t : Tree) :
  let run := run_import AUDIO IMAGE add_file addNote settings rq t in
  ∃ body,
    forallb loop_event body = true ∧
    match run.2 with
    | Returned n failure =>
        run.1 = ProgressStart (tree_files t) :: body
                  ++ [ProgressFinish; Tooltip n; DeckBrowserRefresh;
                      if failure then ShowFailureDialog else ShowCompletionDialog n]
    | Uncaught e => run.1 = ProgressStart (tree_files t) :: body
    end.
Proof.
  intros run. subst run. unfold run_import.
  destruct (walk_loop_events AUDIO IMAGE add_file addNote settings rq
              (walk (recursive rq) (path rq) [] t)
              {| log := [ProgressStart (fileCount rq t)]; newCount := 0 |})
    as (body & Hlog & Hbody).
  exists body. split; [done |].
  destruct (for_each _ _ _) as [st flow]. cbn [fst log] in Hlog.
  unfold fileCount in Hlog. rewrite walk_counts_files in Hlog.
  destruct flow; cbn [fst snd]; by rewrite Hlog.
Qed.

(** X15. An exception leaves a run for one of two reasons only: the settings
    lack the key [secondImageSuffix], or a mapping asks for the secondary
    file and the indexing of one of the visited folders fails. *)
Theorem run_exception_cause (AUDIO IMAGE : list string)
    (add_file : list Event → string → string) (addNote : list Event → Note → bool)
    (settings : gmap string Value) (rq : Request) (t : Tree) (e : exn) :
  (run_import AUDIO IMAGE add_file addNote settings rq t).2 = Uncaught e →
  (settings !! "secondImageSuffix" = None ∧ e = KeyError "secondImageSuffix") ∨
  (∃ v w, settings !! "secondImageSuffix" = Some v ∧ file_pairs_used rq = true ∧
          w ∈ walk (recursive rq) (path rq) [] t ∧
          pair_files_value AUDIO IMAGE v (w_files w) = Raise e).
Proof.
  unfold run_import.
  destruct (for_each _ _ _) as [st flow] eqn:Hrun.
  destruct flow; cbn [snd]; [done | done |]. intros [= ->].
  apply for_each_raised in Hrun as (st1 & w & Hw & Hfolder).
  apply import_folder_raised in Hfolder as [_ [? | (v & ? & ? & ?)]]; [by left |].
  right. by exists v, w.
Qed.

Lemma run_exception_cause_witness :
  (Sample.suffix_2 !! "secondImageSuffix" = None ∧
   KeyError "clip_2" = KeyError "secondImageSuffix") ∨
  (∃ v w, Sample.suffix_2 !! "secondImageSuffix" = Some v ∧
          file_pairs_used Scenario.request = true ∧
          w ∈ walk (recursive Scenario.request) (path Scenario.request) []
                Scenario.tree ∧
          pair_files_value Sample.AUDIO Sample.IMAGE v (w_files w)
            = Raise (KeyError "clip_2")).
Proof.
  apply (run_exception_cause Sample.AUDIO Sample.IMAGE Sample.add_file Sample.addNote
           Sample.suffix_2 Scenario.request Scenario.tree (KeyError "clip_2")).
  vm_compute. reflexivity.
Defined.

(** * Further properties of the settings *)

(** ** [saveSettings] and [initializeSettings] (src/settings.py) *)

Lemma select_keys_raise (settings : gmap string Value) (keys : list string) (e : exn) :
  Settings.select_keys settings keys = Raise e →
  ∃ k, k ∈ keys ∧ settings !! k = None ∧ e = KeyError k.
Proof.
  induction keys as [|key keys IH]; simpl; [done |].
  unfold getitem, mbind, result_bind.
  destruct (settings !! key) as [v|] eqn:Hv.
  - destruct (Settings.select_keys settings keys) as [rest|e1]; [done |].
    intros [= <-]. destruct IH as (k & ? & ? & ?); [done |].
    exists k. split; [by apply list_elem_of_further | done].
  - intros [= <-]. exists key. split; [apply list_elem_of_here | done].
Qed.

(** X16. [saveSettings] raises the key-lookup error for the first key of
    [DefaultSettings] that the settings dictionary lacks, and raises for no
    other reason. *)
Theorem saveSettings_missing_key (settings : gmap string Value) (d : Settings.Disk) :
  (settings !! "secondMediaSuffix" = None →
   Settings.saveSettings settings d = Raise (KeyError "secondMediaSuffix")) ∧
  (is_Some (settings !! "secondMediaSuffix") →
   settings !! "showExtensionActions" = None →
   Settings.saveSettings settings d = Raise (KeyError "showExtensionActions")) ∧
  (∀ e, Settings.saveSettings settings d = Raise e →
        ∃ k, k ∈ map fst Settings.DefaultSettings ∧ settings !! k = None ∧
             e = KeyError k).
Proof.
  split_and!.
  - intros Hnone. unfold Settings.saveSettings, mbind, result_bind. simpl.
    unfold getitem, mbind, result_bind. by rewrite Hnone.
  - intros [v Hv] Hnone. unfold Settings.saveSettings, mbind, result_bind. simpl.
    unfold getitem, mbind, result_bind. by rewrite Hv, Hnone.
  - intros e. unfold Settings.saveSettings, mbind, result_bind.
    destruct (Settings.select_keys settings (map fst Settings.DefaultSettings))
      as [userSettings|e1] eqn:Huser; [done |].
    intros [= <-]. by apply select_keys_raise.
Qed.

Lemma saveSettings_missing_key_witness :
  Settings.saveSettings {["secondMediaSuffix" := VStr "_2"]} SavedSettings.disk
    = Raise (KeyError "showExtensionActions").
Proof.
  destruct (saveSettings_missing_key {["secondMediaSuffix" := VStr "_2"]}
              SavedSettings.disk) as (_ & H & _).
  apply H; [by eexists | reflexivity].
Defined.

(** X17. A successful save splits the settings dictionary between the two
    stores without loss: the host configuration receives exactly the keys of
    [DefaultSettings], the transient file every other key, each with the value
    it has in the dictionary. *)
Theorem saveSettings_splits (settings : gmap string Value) (d d' : Settings.Disk) :
  Settings.saveSettings settings d = Ok d' →
  ∃ transientSettings,
    Settings.transient_file d' = Some transientSettings ∧
    dom (Settings.addon_config d') = list_to_set (map fst Settings.DefaultSettings) ∧
    dom transientSettings
      = dom settings ∖ list_to_set (map fst Settings.DefaultSettings) ∧
    transientSettings ##ₘ Settings.addon_config d' ∧
    transientSettings ∪ Settings.addon_config d' = settings.
Proof.
  unfold Settings.saveSettings, mbind, result_bind.
  destruct (Settings.select_keys settings (map fst Settings.DefaultSettings))
    as [userSettings|] eqn:Huser; [| done].
  intros [= <-]. cbn [Settings.transient_file Settings.addon_config].
  pose proof (select_keys_lookup _ _ _ Huser) as Hlook.
  assert (Hsome : ∀ k, k ∈ map fst Settings.DefaultSettings → is_Some (settings !! k)).
  { intros k Hk. destruct (settings !! k) as [v|] eqn:Hv; [by eexists |].
    exfalso. clear Hlook. revert userSettings Huser.
    induction (map fst Settings.DefaultSettings) as [|key keys IH]; simpl.
    - by apply elem_of_nil in Hk.
    - unfold getitem, mbind, result_bind. intros userSettings.
      destruct (settings !! key) as [v|] eqn:Hkey; [| done].
      destruct (Settings.select_keys settings keys) as [rest|]; [| done].
      intros _. apply elem_of_cons in Hk as [-> | Hk]; [congruence |].
      by apply (IH Hk rest). }
  set (t := filter (fun kv : string * Value =>
               Settings.asdict Settings.DefaultSettings !! kv.1 = None) settings).
  assert (Ht : ∀ k, t !! k = if decide (k ∈ map fst Settings.DefaultSettings)
                             then None else settings !! k).
  { intros k. destruct (decide (k ∈ map fst Settings.DefaultSettings)) as [Hk | Hk].
    - apply map_lookup_filter_None. right. intros v _ Hnone.
      apply (proj1 (asdict_lookup_None Settings.DefaultSettings k)) in Hnone. done.
    - destruct (settings !! k) as [v|] eqn:Hv.
      + apply map_lookup_filter_Some. split; [done |].
        apply (proj2 (asdict_lookup_None Settings.DefaultSettings k)). exact Hk.
      + apply map_lookup_filter_None. by left. }
  exists t. split_and!.
  - done.
  - apply set_eq. intros k. rewrite elem_of_dom, Hlook, elem_of_list_to_set.
    destruct (decide (k ∈ map fst Settings.DefaultSettings)) as [Hk | Hk].
    + split; [done |]. intros _. by apply Hsome.
    + split; [by intros [? ?] | done].
  - apply set_eq. intros k.
    rewrite elem_of_difference, !elem_of_dom, Ht, elem_of_list_to_set.
    destruct (decide (k ∈ map fst Settings.DefaultSettings)) as [Hk | Hk].
    + split; [by intros [? ?] | tauto].
    + tauto.
  - apply map_disjoint_spec. intros k v1 v2. rewrite Ht, Hlook.
    by destruct (decide (k ∈ map fst Settings.DefaultSettings)).
  - apply map_eq. intros k. rewrite lookup_union, Ht, Hlook.
    destruct (decide (k ∈ map fst Settings.DefaultSettings)) as [Hk | Hk].
    + destruct (settings !! k); done.
    + destruct (settings !! k); done.
Qed.

Lemma saveSettings_splits_witness :
  ∃ d' transientSettings,
    Settings.saveSettings SavedSettings.settings SavedSettings.disk = Ok d' ∧
    Settings.transient_file d' = Some transientSettings ∧
    transientSettings ∪ Settings.addon_config d' = SavedSettings.settings.
Proof.
  destruct (Settings.saveSettings SavedSettings.settings SavedSettings.disk)
    as [d'|e] eqn:Hsave; [| vm_compute in Hsave; discriminate Hsave].
  destruct (saveSettings_splits SavedSettings.settings SavedSettings.disk d' Hsave)
    as (t & Ht & _ & _ & _ & Hunion).
  by exists d', t.
Defined.

(** X18. Loading twice is loading once, and loading never removes a key from
    the settings dictionary: a key that no store and no default defines keeps
    the value the dictionary held. *)
Theorem initializeSettings_idempotent (home : string) (d : Settings.Disk)
    (settings : gmap string Value) :
  Settings.initializeSettings home d (Settings.initializeSettings home d settings)
    = Settings.initializeSettings home d settings ∧
  dom settings ⊆ dom (Settings.initializeSettings home d settings) ∧
  ∀ k, Settings.mergedSettings home d !! k = None →
       Settings.initializeSettings home d settings !! k = settings !! k.
Proof.
  unfold Settings.initializeSettings. split_and!.
  - by rewrite (assoc_L (∪)), (idemp_L (∪)).
  - rewrite dom_union. set_solver.
  - intros k Hk. by apply lookup_union_r.
Qed.

Lemma initializeSettings_idempotent_witness :
  Settings.initializeSettings "/home/user" SavedSettings.disk SavedSettings.settings
    !! "extra" = SavedSettings.settings !! "extra".
Proof.
  destruct (initializeSettings_idempotent "/home/user" SavedSettings.disk
              SavedSettings.settings) as (_ & _ & H).
  apply H. reflexivity.
Defined.

(** ** [accept] *)

Lemma accepted_settings_keeps (noteType : string) (rq : Request)
    (m : gmap string (gmap string string)) (settings : gmap string Value) (k : string) :
  is_Some (settings !! k) → is_Some (accepted_settings noteType rq m settings !! k).
Proof.
  intros [v Hv]. unfold accepted_settings.
  repeat (rewrite lookup_insert; case_decide; [by eexists |]). by exists v.
Qed.

(** X19. After the settings were loaded, [accept] fails only when the stored
    [fieldSettings] is no dictionary, with a type error; otherwise it stores
    the folder, the recursion flag and the mappings of the note type, leaves
    every other key and every other note type as they were, and saves: a
    fresh load of what it saved gives the same settings dictionary. *)
Theorem accept_saves_choices (home : string) (d : Settings.Disk)
    (settings0 : gmap string Value) (noteType : string) (rq : Request) :
  let settings := Settings.initializeSettings home d settings0 in
  is_Some (settings !! "fieldSettings") ∧
  (∀ m, settings !! "fieldSettings" = Some (VFieldSettings m) →
     ∃ d', accept noteType rq settings d
             = Ok (accepted_settings noteType rq m settings, d') ∧
           Settings.initializeSettings home d' ∅
             = accepted_settings noteType rq m settings) ∧
  (∀ v, settings !! "fieldSettings" = Some v → (∀ m, v ≠ VFieldSettings m) →
     accept noteType rq settings d = Raise TypeError).
Proof.
  intros settings.
  assert (Hdef : ∀ k, k ∈ map fst (Settings.TransientSettings home) ++
                          map fst Settings.DefaultSettings → is_Some (settings !! k)).
  { intros k Hk. unfold settings, Settings.initializeSettings.
    destruct (Settings.mergedSettings home d !! k) as [v|] eqn:Hv.
    - exists v. by apply lookup_union_Some_l.
    - exfalso. apply merged_lookup_None in Hv as [Ht Hd].
      apply asdict_lookup_None in Ht. apply asdict_lookup_None in Hd.
      apply elem_of_app in Hk as [? | ?]; done. }
  split_and!.
  - apply Hdef. simpl. do 2 apply list_elem_of_further. apply list_elem_of_here.
  - intros m Hm. unfold accept, getitem, mbind, result_bind. rewrite Hm.
    fold (field_mapping (fieldList rq)). fold (accepted_settings noteType rq m settings).
    destruct (select_keys_present (accepted_settings noteType rq m settings)
                (map fst Settings.DefaultSettings)) as [userSettings Huser].
    { intros k Hk. apply accepted_settings_keeps, Hdef, elem_of_app. by right. }
    assert (Hsave : ∃ d', Settings.saveSettings (accepted_settings noteType rq m settings) d
                          = Ok d').
    { unfold Settings.saveSettings, mbind, result_bind. rewrite Huser. by eexists. }
    destruct Hsave as [d' Hsave]. rewrite Hsave. exists d'. split; [done |].
    unfold Settings.initializeSettings. rewrite (right_id_L ∅ (∪)).
    apply map_eq. intros k. rewrite (merged_after_save home _ d d' Hsave).
    destruct (accepted_settings noteType rq m settings !! k) as [v|] eqn:Hv; [done |].
    apply (proj2 (asdict_lookup_None (Settings.TransientSettings home) k)).
    intros Hk. destruct (accepted_settings_keeps noteType rq m settings k) as [v' Hv'].
    + apply Hdef, elem_of_app. by left.
    + congruence.
  - intros v Hv Hnot. unfold accept, getitem, mbind, result_bind. rewrite Hv.
    destruct v as [s|b|m]; [done | done |]. by destruct (Hnot m).
Qed.

Lemma accept_saves_choices_witness :
  ∃ d', accept "Basic" Scenario.request
          (Settings.initializeSettings "/home/user" SavedSettings.disk ∅)
          SavedSettings.disk
        = Ok (accepted_settings "Basic" Scenario.request ∅
                (Settings.initializeSettings "/home/user" SavedSettings.disk ∅), d') ∧
        Settings.initializeSettings "/home/user" d' ∅
        = accepted_settings "Basic" Scenario.request ∅
            (Settings.initializeSettings "/home/user" SavedSettings.disk ∅).
Proof.
  destruct (accept_saves_choices "/home/user" SavedSettings.disk ∅ "Basic"
              Scenario.request) as (_ & H & _).
  apply H. reflexivity.
Defined.

(** ** The settings module of the earlier versions *)

(** X20. With the earlier settings module a save followed by a load gives
    back every value, and the same dictionary when it holds the three default
    keys, as it does after every load; a load always defines the key
    [secondImageSuffix] that the import reads. *)
Theorem legacy_settings_round_trip (home : string) (settings : gmap string Value)
    (file : option (gmap string Value)) :
  (∀ k v, settings !! k = Some v →
     LegacySettings.initializeSettings home (LegacySettings.saveSettings settings) ∅ !! k
       = Some v) ∧
  ((∀ k, k ∈ map fst (LegacySettings.DefaultSettings home) → is_Some (settings !! k)) →
   LegacySettings.initializeSettings home (LegacySettings.saveSettings settings) ∅
     = settings) ∧
  (let loaded := LegacySettings.initializeSettings home file settings in
   LegacySettings.initializeSettings home (LegacySettings.saveSettings loaded) ∅ = loaded ∧
   is_Some (loaded !! "secondImageSuffix") ∧
   (default ∅ file !! "secondImageSuffix" = None →
    loaded !! "secondImageSuffix" = Some (VStr "_2"))).
Proof.
  assert (Hround : ∀ s, (∀ k, k ∈ map fst (LegacySettings.DefaultSettings home) →
                              is_Some (s !! k)) →
            LegacySettings.initializeSettings home (LegacySettings.saveSettings s) ∅ = s).
  { intros s Hkeys. unfold LegacySettings.initializeSettings, LegacySettings.saveSettings.
    simpl default. rewrite (right_id_L ∅ (∪)). apply map_eq. intros k.
    destruct (s !! k) as [v|] eqn:Hv; [by apply lookup_union_Some_l |].
    rewrite lookup_union_r by done.
    apply (proj2 (asdict_lookup_None (LegacySettings.DefaultSettings home) k)).
    intros Hk. apply Hkeys in Hk as [v' Hv']. congruence. }
  split; [| split; [| cbv zeta; split_and!]].
  - intros k v Hv. unfold LegacySettings.initializeSettings, LegacySettings.saveSettings.
    simpl default. by apply lookup_union_Some_l, lookup_union_Some_l.
  - apply Hround.
  - apply Hround. intros k Hk. unfold LegacySettings.initializeSettings.
    destruct ((default ∅ file ∪ Settings.asdict (LegacySettings.DefaultSettings home)) !! k)
      as [v|] eqn:Hv.
    + exists v. by apply lookup_union_Some_l.
    + exfalso. apply lookup_union_None in Hv as [_ Hv].
      by apply (proj1 (asdict_lookup_None _ k)) in Hv.
  - unfold LegacySettings.initializeSettings.
    destruct (default ∅ file !! "secondImageSuffix") as [v|] eqn:Hv.
    + exists v. by apply lookup_union_Some_l, lookup_union_Some_l.
    + exists (VStr "_2"). apply lookup_union_Some_l. by rewrite lookup_union_r.
  - intros Hnone. unfold LegacySettings.initializeSettings.
    apply lookup_union_Some_l. by rewrite lookup_union_r.
Qed.

Lemma legacy_settings_round_trip_witness :
  LegacySettings.initializeSettings "/home/user"
    (LegacySettings.saveSettings SavedSettings.settings) ∅ !! "showExtensionActions"
  = Some (VBool true).
Proof.
  destruct (legacy_settings_round_trip "/home/user" SavedSettings.settings None)
    as (H & _).
  apply H. reflexivity.
Defined.

(** * Properties of the dialog rows *)

Section DialogRows.

Import ImportSettingsDialog.

Lemma findText_found (l : list string) (text : string) :
  text ∈ l → ∃ i, findText l text = Some i ∧ nth i l EmptyString = text.
Proof.
  induction l as [|item l IH]; simpl; intros Hin.
  - by apply elem_of_nil in Hin.
  - destruct (String.eqb_spec item text) as [-> | Hne]; [by exists 0 |].
    apply elem_of_cons in Hin as [? | Hin]; [congruence |].
    destruct (IH Hin) as (i & -> & Hi). by exists (S i).
Qed.

Lemma findText_index (l : list string) (text : string) (i : nat) :
  findText l text = Some i → nth i l EmptyString = text ∧ i < length l.
Proof.
  revert i. induction l as [|item l IH]; simpl; intros i; [done |].
  destruct (String.eqb_spec item text) as [-> | Hne].
  - intros [= <-]. split; [done | lia].
  - destruct (findText l text) as [j|]; [| done]. simpl. intros [= <-].
    destruct (IH j eq_refl). split; [done | lia].
Qed.

Lemma createRow_items_filter (name : string) (sp : bool) :
  items (createRow name sp)
    = List.filter
        (fun action => negb (String.eqb name "Tags" && String.eqb action Actions.media))
        all_actions.
Proof. reflexivity. Qed.

Lemma createRow_items (name : string) (sp : bool) :
  0 < length (items (createRow name sp)) ∧
  (∀ a, a ∈ items (createRow name sp) → a ∈ all_actions) ∧
  (name = "Tags" → Actions.media ∉ items (createRow name sp)) ∧
  (name ≠ "Tags" → items (createRow name sp) = all_actions).
Proof.
  rewrite createRow_items_filter. split_and!.
  - destruct (String.eqb name "Tags"); simpl; lia.
  - intros a Ha. apply list_elem_of_In, filter_In in Ha as [Ha _].
    by apply list_elem_of_In.
  - intros -> Ha. apply list_elem_of_In, filter_In in Ha as [_ Ha]. done.
  - intros Hne. by destruct (String.eqb_spec name "Tags") as [-> | _].
Qed.

(** A row of the dialog: its items are those [createRow] gives its label,
    and an item is current. *)
Lemma apply_setting_row (fieldSettings : gmap string string) (r : Row) :
  currentIndex r < length (items r) →
  lbl (apply_setting fieldSettings r) = lbl r ∧
  special (apply_setting fieldSettings r) = special r ∧
  items (apply_setting fieldSettings r) = items r ∧
  currentIndex (apply_setting fieldSettings r) < length (items r).
Proof.
  intros Hidx. unfold apply_setting.
  destruct (fieldSettings !! lbl r) as [a|]; [| done].
  destruct (findText (items r) a) as [i|] eqn:Hi; [| done].
  apply findText_index in Hi as [_ Hi]. done.
Qed.

Lemma apply_setting_found (fieldSettings : gmap string string) (r : Row) (a : string) :
  fieldSettings !! lbl r = Some a → a ∈ items r →
  currentText (apply_setting fieldSettings r) = a.
Proof.
  intros Ha Hin. unfold apply_setting. rewrite Ha.
  destruct (findText_found _ _ Hin) as (i & -> & Hi). done.
Qed.

Lemma nth_elem (l : list string) (i : nat) :
  i < length l → nth i l EmptyString ∈ l.
Proof. intros Hi. by apply list_elem_of_In, nth_In. Qed.

Lemma callback_rows (flds : list string) (noteType : string)
    (settings : gmap string Value) (sessionSettings : gmap string (gmap string string))
    (rows : list Row) :
  noteTypeChangedCallback flds noteType settings sessionSettings = Ok rows →
  ∃ fieldSettings, rows = map (apply_setting fieldSettings) (fresh_rows flds).
Proof.
  unfold noteTypeChangedCallback, mbind, result_bind.
  destruct (stored_mapping noteType settings) as [tr|]; [| done].
  intros [= <-]. by eexists.
Qed.

Lemma fresh_rows_elem (flds : list string) (r : Row) :
  r ∈ fresh_rows flds → ∃ name sp, r = createRow name sp.
Proof.
  unfold fresh_rows. intros [Hr | Hr]%elem_of_app.
  - apply list_elem_of_fmap in Hr as (name & -> & _). by exists name, false.
  - apply list_elem_of_fmap in Hr as (name & -> & _). by exists name, true.
Qed.

End DialogRows.

(** X21. Whatever mappings are stored or were chosen in the session, the
    dialog shows one row for each field of the note type, in their order,
    followed by the special row Tags; the action shown in a row is one of the
    ten action keywords, and a row labelled Tags neither shows nor offers the
    action Media. *)
Theorem dialog_rows_are_valid (flds : list string) (noteType : string)
    (settings : gmap string Value) (sessionSettings : gmap string (gmap string string))
    (rows : list ImportSettingsDialog.Row) :
  ImportSettingsDialog.noteTypeChangedCallback flds noteType settings sessionSettings = Ok rows →
  map (fun m => (m.1.1, m.2)) (ImportSettingsDialog.getDialogResult rows)
    = map (fun name => (name, false)) flds ++ [("Tags", true)] ∧
  (∀ field action sp, (field, action, sp) ∈ ImportSettingsDialog.getDialogResult rows →
     action ∈ ImportSettingsDialog.all_actions ∧ (field = "Tags" → action ≠ Actions.media)) ∧
  (∀ r, r ∈ rows → ImportSettingsDialog.lbl r = "Tags" → Actions.media ∉ ImportSettingsDialog.items r).
Proof.
  intros (fs & ->)%callback_rows.
  assert (Hrow : ∀ r, r ∈ ImportSettingsDialog.fresh_rows flds →
            ImportSettingsDialog.lbl (ImportSettingsDialog.apply_setting fs r) = ImportSettingsDialog.lbl r ∧
            ImportSettingsDialog.special (ImportSettingsDialog.apply_setting fs r) = ImportSettingsDialog.special r ∧
            ImportSettingsDialog.items (ImportSettingsDialog.apply_setting fs r) = ImportSettingsDialog.items r ∧
            ImportSettingsDialog.currentIndex (ImportSettingsDialog.apply_setting fs r) < length (ImportSettingsDialog.items r)).
  { intros r (name & sp & ->)%fresh_rows_elem. apply apply_setting_row.
    apply createRow_items. }
  split_and!.
  - unfold ImportSettingsDialog.getDialogResult. rewrite !map_map. unfold ImportSettingsDialog.fresh_rows.
    rewrite map_app, !map_map. f_equal.
    + apply map_ext_in. intros name Hname. simpl.
      destruct (apply_setting_row fs (ImportSettingsDialog.createRow name false)) as (-> & -> & _);
        [apply createRow_items | done].
    + simpl.
      destruct (apply_setting_row fs (ImportSettingsDialog.createRow "Tags" true)) as (-> & -> & _);
        [apply createRow_items | done].
  - intros field action sp0 Hin. unfold ImportSettingsDialog.getDialogResult in Hin.
    rewrite map_map in Hin. apply list_elem_of_fmap in Hin as (r & Heq & Hr).
    destruct (Hrow r Hr) as (Hl & _ & Hi & Hidx).
    destruct (fresh_rows_elem flds r Hr) as (name & sp & ->).
    assert (Hcur : ImportSettingsDialog.currentText (ImportSettingsDialog.apply_setting fs (ImportSettingsDialog.createRow name sp))
                   ∈ ImportSettingsDialog.items (ImportSettingsDialog.createRow name sp)).
    { unfold ImportSettingsDialog.currentText. rewrite Hi. by apply nth_elem. }
    destruct (createRow_items name sp) as (_ & Hall & Htags & _).
    injection Heq as Hfield Haction _. rewrite Hl in Hfield. simpl in Hfield.
    subst field action. split.
    + by apply Hall.
    + intros Hname Heq. apply (Htags Hname). by rewrite <- Heq.
  - intros r' (r & -> & Hr)%list_elem_of_fmap.
    destruct (Hrow r Hr) as (-> & _ & -> & _).
    destruct (fresh_rows_elem flds r Hr) as (name & sp & ->). simpl.
    apply (createRow_items name sp).
Qed.

Lemma dialog_rows_are_valid_witness :
  ∃ rows,
    ImportSettingsDialog.noteTypeChangedCallback ["Front"; "Back"] "Basic"
      {["fieldSettings" := VFieldSettings {["Basic" := {["Tags" := Actions.media]}]}]} ∅
      = Ok rows ∧
    map (fun m => (m.1.1, m.2)) (ImportSettingsDialog.getDialogResult rows)
      = [("Front", false); ("Back", false); ("Tags", true)].
Proof.
  destruct (ImportSettingsDialog.noteTypeChangedCallback ["Front"; "Back"] "Basic"
              {["fieldSettings" := VFieldSettings {["Basic" := {["Tags" := Actions.media]}]}]}
              ∅) as [rows|e] eqn:Hrows.
  - exists rows. split; [reflexivity |].
    exact (proj1 (dialog_rows_are_valid ["Front"; "Back"] "Basic" _ ∅ rows Hrows)).
  - vm_compute in Hrows. discriminate Hrows.
Defined.

Section DialogChoices.

Import ImportSettingsDialog.

Lemma apply_setting_keeps (fieldSettings : gmap string string) (r : Row) :
  lbl (apply_setting fieldSettings r) = lbl r ∧
  special (apply_setting fieldSettings r) = special r ∧
  items (apply_setting fieldSettings r) = items r.
Proof.
  unfold apply_setting. destruct (fieldSettings !! lbl r) as [a|]; [| done].
  by destruct (findText (items r) a).
Qed.

Lemma apply_setting_missing (fieldSettings : gmap string string) (r : Row) :
  fieldSettings !! lbl r = None → apply_setting fieldSettings r = r.
Proof. intros Hnone. unfold apply_setting. by rewrite Hnone. Qed.

Lemma apply_setting_not_offered (fieldSettings : gmap string string) (r : Row) (a : string) :
  fieldSettings !! lbl r = Some a → a ∉ items r → apply_setting fieldSettings r = r.
Proof.
  intros Ha Hnot. unfold apply_setting. rewrite Ha.
  destruct (findText (items r) a) as [i|] eqn:Hi; [| done].
  apply findText_index in Hi as [<- Hi]. destruct Hnot. by apply nth_elem.
Qed.

Lemma fresh_rows_valid (flds : list string) (fieldSettings : gmap string string) :
  Forall2 row_of (map (apply_setting fieldSettings) (fresh_rows flds)) (fresh_rows flds).
Proof.
  assert (Hall : Forall (fun r => currentIndex r < length (items r)) (fresh_rows flds)).
  { apply Forall_forall. intros r (name & sp & ->)%fresh_rows_elem.
    apply (createRow_items name sp). }
  induction Hall as [|r rows Hr _ IH]; simpl; constructor; [| done].
  by apply apply_setting_row.
Qed.

Lemma select_valid (choices : list nat) (rows rows0 : list Row) :
  Forall2 row_of rows rows0 → Forall2 row_of (select choices rows) rows0.
Proof.
  intros Hall. revert choices.
  induction Hall as [|r r0 rows rows0 Hr Hrows IH]; intros [|i choices]; simpl;
    try by constructor.
  constructor; [| apply IH].
  destruct Hr as (Hl & Hs & Hi & Hidx).
  destruct (Nat.ltb_spec i (length (items r))); [| done].
  unfold row_of. simpl. split_and!; try done. by rewrite <- Hi.
Qed.

Lemma row_of_labels (rows rows0 : list Row) :
  Forall2 row_of rows rows0 → map lbl rows = map lbl rows0.
Proof.
  induction 1 as [|r r0 rows rows0 Hr _ IH]; simpl; [done |].
  destruct Hr as (-> & _). by rewrite IH.
Qed.

Lemma fresh_rows_labels (flds : list string) :
  map lbl (fresh_rows flds) = flds ++ SPECIAL_FIELDS.
Proof.
  unfold fresh_rows. rewrite map_app, !map_map. simpl. by rewrite map_id.
Qed.

(** Rows that show what [fieldSettings] holds for their labels are shown
    again when the mapping is applied to fresh rows. *)
Lemma restore_rows (fieldSettings : gmap string string) (shown rows0 : list Row) :
  Forall2 row_of shown rows0 →
  (∀ r, r ∈ shown → fieldSettings !! lbl r = Some (currentText r)) →
  getDialogResult (map (apply_setting fieldSettings) rows0) = getDialogResult shown.
Proof.
  induction 1 as [|r r0 rows rows0 Hr _ IH]; intros Hmap; [done |].
  unfold getDialogResult in *. simpl. f_equal.
  - destruct Hr as (Hl & Hs & Hi & Hidx).
    destruct (apply_setting_keeps fieldSettings r0) as (-> & -> & _).
    rewrite (apply_setting_found fieldSettings r0 (currentText r)).
    + by rewrite Hl, Hs.
    + rewrite <- Hl. apply Hmap, list_elem_of_here.
    + unfold currentText. rewrite Hi. by apply nth_elem.
  - apply IH. intros r' Hr'. by apply Hmap, list_elem_of_further.
Qed.

Lemma field_mapping_lookup (rows : list Row) (r : Row) :
  NoDup (map lbl rows) → r ∈ rows →
  field_mapping (getDialogResult rows) !! lbl r = Some (currentText r).
Proof.
  intros Hnd Hr. unfold field_mapping, getDialogResult. rewrite map_map. simpl.
  apply elem_of_list_to_map.
  - apply NoDup_ListNoDup.
    change (List.NoDup (map fst (rev (map (fun x => (lbl x, currentText x)) rows)))).
    rewrite map_rev, map_map. simpl. apply List.NoDup_rev. by apply NoDup_ListNoDup.
  - apply list_elem_of_In, (proj1 (in_rev _ _)), list_elem_of_In, list_elem_of_fmap.
    by exists r.
Qed.

Lemma stored_mapping_dict (noteType : string) (settings : gmap string Value)
    (m : gmap string (gmap string string)) :
  settings !! "fieldSettings" = Some (VFieldSettings m) →
  stored_mapping noteType settings = Ok (default ∅ (m !! noteType)).
Proof.
  intros Hm. unfold stored_mapping, getitem, mbind, result_bind. by rewrite Hm.
Qed.

Lemma defaultSettings_lookup (name a : string) :
  defaultSettings !! name = Some a → name ≠ "Tags" ∧ a ∈ all_actions.
Proof.
  intros Ha. apply elem_of_list_to_map_2 in Ha.
  repeat (apply elem_of_cons in Ha as [[= -> ->] | Ha];
          [split; [done | apply list_elem_of_In; simpl; tauto] |]).
  by apply elem_of_nil in Ha.
Qed.

End DialogChoices.

(** X22. The dialog restores what was accepted: when the field names of the
    note type differ from each other and from Tags, and the dialog is
    accepted with whatever the user picked in its rows, the dialog opened
    again on the settings that [accept] left shows, for that note type, the
    same field list. *)
Theorem dialog_restores_accepted_choices (flds : list string) (noteType : string)
    (settings : gmap string Value) (sessionSettings : gmap string (gmap string string))
    (rows : list ImportSettingsDialog.Row) (choices : list nat) (rq : Request)
    (m : gmap string (gmap string string)) :
  NoDup (flds ++ ImportSettingsDialog.SPECIAL_FIELDS) →
  ImportSettingsDialog.noteTypeChangedCallback flds noteType settings sessionSettings
    = Ok rows →
  fieldList rq
    = ImportSettingsDialog.getDialogResult (ImportSettingsDialog.select choices rows) →
  ∃ rows',
    ImportSettingsDialog.noteTypeChangedCallback flds noteType
      (accepted_settings noteType rq m settings) ∅ = Ok rows' ∧
    ImportSettingsDialog.getDialogResult rows' = fieldList rq.
Proof.
  intros Hnd (fs & ->)%callback_rows Hrq.
  set (shown := ImportSettingsDialog.select choices
                  (map (ImportSettingsDialog.apply_setting fs)
                     (ImportSettingsDialog.fresh_rows flds))) in *.
  assert (Hshown : Forall2 row_of shown (ImportSettingsDialog.fresh_rows flds)).
  { apply select_valid, fresh_rows_valid. }
  eexists. split.
  - unfold ImportSettingsDialog.noteTypeChangedCallback, mbind, result_bind.
    rewrite (stored_mapping_dict noteType _
               (<[noteType := field_mapping (fieldList rq)]> m)); [reflexivity |].
    unfold accepted_settings.
    rewrite lookup_insert_ne, lookup_insert_ne by done. apply lookup_insert_eq.
  - rewrite Hrq. apply restore_rows; [done |].
    intros r Hr. rewrite lookup_empty. simpl. rewrite (left_id_L ∅ (∪)).
    apply lookup_union_Some_l. rewrite lookup_insert_eq. simpl.
    apply field_mapping_lookup; [| done].
    by rewrite (row_of_labels _ _ Hshown), fresh_rows_labels.
Qed.

Lemma dialog_restores_accepted_choices_witness :
  ∃ rows',
    ImportSettingsDialog.noteTypeChangedCallback ["Front"; "Back"] "Basic"
      (accepted_settings "Basic"
         {| path := "/media"; recursive := false; model := ["Front"; "Back"];
            fieldList := [("Front", Actions.file_name, false);
                          ("Back", Actions.media, false);
                          ("Tags", Actions.extension, true)] |}
         ∅ {["fieldSettings" := VFieldSettings ∅]}) ∅ = Ok rows' ∧
    ImportSettingsDialog.getDialogResult rows'
      = [("Front", Actions.file_name, false); ("Back", Actions.media, false);
         ("Tags", Actions.extension, true)].
Proof.
  apply (dialog_restores_accepted_choices ["Front"; "Back"] "Basic"
           {["fieldSettings" := VFieldSettings ∅]} ∅
           (map (ImportSettingsDialog.apply_setting ImportSettingsDialog.defaultSettings)
              (ImportSettingsDialog.fresh_rows ["Front"; "Back"]))
           [3; 1; 4]).
  - apply (bool_decide_unpack _). vm_compute. exact I.
  - vm_compute. reflexivity.
  - vm_compute. reflexivity.
Defined.

(** X23. A choice made in a row during the session is kept for the note type:
    rebuilding the rows after [fieldSettingChangedCallback] recorded the
    choice shows it in every row of that field which offers it, whatever is
    stored on disk or is the default; the rows of every other note type are
    built as before. *)
Theorem session_choice_is_shown (flds : list string) (noteType field setting : string)
    (settings : gmap string Value) (sessionSettings : gmap string (gmap string string)) :
  (∀ rows,
     ImportSettingsDialog.noteTypeChangedCallback flds noteType settings
       (ImportSettingsDialog.fieldSettingChangedCallback noteType field setting
          sessionSettings) = Ok rows →
     ∀ r, r ∈ rows → ImportSettingsDialog.lbl r = field →
          setting ∈ ImportSettingsDialog.items r →
          ImportSettingsDialog.currentText r = setting) ∧
  (∀ other, other ≠ noteType →
     ImportSettingsDialog.noteTypeChangedCallback flds other settings
       (ImportSettingsDialog.fieldSettingChangedCallback noteType field setting
          sessionSettings)
     = ImportSettingsDialog.noteTypeChangedCallback flds other settings sessionSettings).
Proof.
  split.
  - intros rows Hrows r Hr Hl Hin.
    unfold ImportSettingsDialog.noteTypeChangedCallback, mbind, result_bind in Hrows.
    destruct (ImportSettingsDialog.stored_mapping noteType settings) as [tr|]; [| done].
    injection Hrows as <-. apply list_elem_of_fmap in Hr as (r0 & -> & Hr0).
    destruct (apply_setting_keeps
                (default ∅ (ImportSettingsDialog.fieldSettingChangedCallback noteType
                              field setting sessionSettings !! noteType)
                   ∪ (tr ∪ ImportSettingsDialog.defaultSettings)) r0) as (Hl0 & _ & Hi0).
    rewrite Hl0 in Hl. rewrite Hi0 in Hin.
    apply apply_setting_found; [| done].
    apply lookup_union_Some_l. unfold ImportSettingsDialog.fieldSettingChangedCallback.
    rewrite lookup_insert_eq. simpl. rewrite Hl. apply lookup_insert_eq.
  - intros other Hne. unfold ImportSettingsDialog.noteTypeChangedCallback,
      ImportSettingsDialog.fieldSettingChangedCallback.
    by rewrite lookup_insert_ne.
Qed.

(** X24. For a note type with no stored and no session mappings the rows show
    the defaults: Media for a field named Front or Image, File Name for Back,
    Back Extra or Text, and the empty action for every other field and for
    Tags. *)
Theorem dialog_default_rows (flds : list string) (noteType : string)
    (settings : gmap string Value) (sessionSettings : gmap string (gmap string string))
    (m : gmap string (gmap string string)) :
  settings !! "fieldSettings" = Some (VFieldSettings m) →
  m !! noteType = None →
  sessionSettings !! noteType = None →
  ∃ rows,
    ImportSettingsDialog.noteTypeChangedCallback flds noteType settings sessionSettings
      = Ok rows ∧
    ImportSettingsDialog.getDialogResult rows
      = map (fun name =>
               (name,
                if bool_decide (name ∈ ["Front"; "Image"]) then Actions.media
                else if bool_decide (name ∈ ["Back"; "Back Extra"; "Text"])
                     then Actions.file_name
                     else Actions.nothing,
                false)) flds
        ++ [("Tags", Actions.nothing, true)].
Proof.
  intros Hm Hnone Hsession. eexists. split.
  - unfold ImportSettingsDialog.noteTypeChangedCallback, mbind, result_bind.
    rewrite (stored_mapping_dict noteType settings m Hm). reflexivity.
  - rewrite Hnone, Hsession. simpl. rewrite !(left_id_L ∅ (∪)).
    unfold ImportSettingsDialog.getDialogResult, ImportSettingsDialog.fresh_rows.
    rewrite !map_app, !map_map. f_equal.
    apply map_ext. intros name.
    destruct (ImportSettingsDialog.defaultSettings !! name) as [a|] eqn:Ha.
    + pose proof Ha as Hdef. apply defaultSettings_lookup in Hdef as [Hne Hin].
      destruct (apply_setting_keeps ImportSettingsDialog.defaultSettings
                  (ImportSettingsDialog.createRow name false)) as (-> & -> & _).
      rewrite (apply_setting_found _ _ a); [| done |].
      * simpl. apply elem_of_list_to_map_2 in Ha.
        repeat (apply elem_of_cons in Ha as [[= -> ->] | Ha]; [done |]).
        by apply elem_of_nil in Ha.
      * by rewrite (proj2 (proj2 (proj2 (createRow_items name false))) Hne).
    + rewrite apply_setting_missing by done. simpl.
      apply not_elem_of_list_to_map_2 in Ha. simpl in Ha.
      rewrite !bool_decide_eq_false_2;
        [| intros Hin; apply Ha; revert Hin; rewrite !elem_of_cons; tauto ..].
      unfold ImportSettingsDialog.currentText. simpl.
      by destruct (String.eqb name "Tags").
Qed.

Lemma dialog_default_rows_witness :
  ∃ rows,
    ImportSettingsDialog.noteTypeChangedCallback ["Front"; "Back"; "Notes"] "Basic"
      {["fieldSettings" := VFieldSettings ∅]} ∅ = Ok rows ∧
    ImportSettingsDialog.getDialogResult rows
      = [("Front", Actions.media, false); ("Back", Actions.file_name, false);
         ("Notes", Actions.nothing, false); ("Tags", Actions.nothing, true)].
Proof.
  apply (dialog_default_rows ["Front"; "Back"; "Notes"] "Basic"
           {["fieldSettings" := VFieldSettings ∅]} ∅ ∅); reflexivity.
Defined.

Lemma session_choice_is_shown_witness :
  ImportSettingsDialog.noteTypeChangedCallback ["Front"] "Cloze"
    {["fieldSettings" := VFieldSettings ∅]}
    (ImportSettingsDialog.fieldSettingChangedCallback "Basic" "Front" Actions.sequence ∅)
  = ImportSettingsDialog.noteTypeChangedCallback ["Front"] "Cloze"
      {["fieldSettings" := VFieldSettings ∅]} ∅.
Proof.
  apply (proj2 (session_choice_is_shown ["Front"] "Basic" "Front" Actions.sequence
                  {["fieldSettings" := VFieldSettings ∅]} ∅)).
  discriminate.
Defined.
